(** * Picard fixed-point iteration with Anderson acceleration

    A shallow embedding of [hermes_common/src/solvers/picard_matrix_solver.cpp]
    (class [PicardMatrixSolver<Scalar>]) and the properties its specification
    states about it.

    Modelling conventions.
    - [Scalar] ([double] or [std::complex<double>]) is an arbitrary commutative
      ring [R] with exact arithmetic: "equal" below means equal in exact
      arithmetic.  Where rounding decides a property, [calculate_anderson_coeffs]
      is read a second time over bare operations (module [Machine]) and run
      in IEEE 754 binary64.
    - A [Scalar*] buffer is a [seq R]; [a[i]] is [nth 0 a i] and the store
      [a[i] = x] is [set_nth 0 a i x].
    - [Scalar** previous_vectors] is an array of row pointers; the model keeps
      the pointer array ([seq nat], indices of row buffers) apart from the row
      buffers themselves, so that the pointer rotation of
      [handle_previous_vectors] is modelled as written.
    - A counting [for] loop is a left fold over its index range.
    - The collaborators that live outside this file (the convergence test of
      the base class, the sparse linear solve, the caller's hooks) are an
      input script: one record of answers per iteration.  Calls into them
      and the messages of [info] are appended to an event log.
    - The norm channels ([p_solution_norms], [p_solution_change_norms],
      [p_residual_norms]) are write-only instrumentation built from square
      roots of floating-point sums; they are left out.  The two counters
      ([p_iteration], [p_vec_in_memory]) are kept.
    - [new], [calloc], [delete] and [free] act on a list of live blocks: the
      buffers of the object and the vector made for a [NULL] argument are in
      [heap], the arrays local to [calculate_anderson_coeffs] in a list of
      their own ([scratch]). *)

From Corelib Require Import PrimFloat.
From HB Require Import structures.
From mathcomp Require Import ssreflect ssrfun ssrbool eqtype ssrnat seq choice.
From mathcomp Require Import fintype bigop order ssralg ssrnum ssrint rat.

Set Implicit Arguments.
Unset Strict Implicit.
Unset Printing Implicit Defensive.

Import GRing.Theory Num.Theory.
Local Open Scope ring_scope.

(** ** Loops and buffers *)

(** [for (int i = lo; i < hi; i++) body]. *)
Definition for_loop (S : Type) (lo hi : nat) (body : nat -> S -> S) (s0 : S) : S :=
  foldl (fun s i => body i s) s0 (iota lo (hi - lo)).

(** [memcpy(dst, src, n * sizeof(T))]: the first [n] cells of [dst] are
    overwritten with the first [n] cells of [src]. *)
Definition memcpy (T : Type) (dst src : seq T) (n : nat) : seq T :=
  take n src ++ drop n dst.

(** ** The Anderson kernel: [calculate_anderson_coeffs] and the mixing loop *)

Section Kernel.

Variable R : comRingType.

(** The dense helpers of [dense_matrix_operations.h], which the solver calls
    but which are not part of this file: [ludcmp(a, n, indx, &d)] overwrites
    [a] and fills [indx] and [d]; [lubksb(a, n, indx, b)] overwrites [b]. *)
Variable ludcmp : seq (seq R) -> nat -> seq (seq R) * seq nat * int.
Variable lubksb : seq (seq R) -> nat -> seq nat -> seq R -> seq R.

(** [pvec j c] stands for the read [previous_vectors[j][c]]. *)
Variable pvec : nat -> nat -> R.

(** [dimension] and [num_last_vectors_used]. *)
Variables (dimension k : nat).

(** [previous_vectors[i + 1][c] - previous_vectors[i][c]]. *)
Definition residual (i c : nat) : R := pvec i.+1 c - pvec i c.

(** Lines 202-208: the accumulation of [rhs[i]]. *)
Definition rhs_entry (n i : nat) : R :=
  for_loop 0 dimension
    (fun c acc =>
       let residual_n_k := residual n c in
       let residual_i_k := residual i c in
       acc + residual_n_k * (residual_n_k - residual_i_k)) 0.

(** Lines 211-220: the accumulation of [mat[i][j]]. *)
Definition mat_entry (n i j : nat) : R :=
  for_loop 0 dimension
    (fun c val =>
       let residual_n_k := residual n c in
       let residual_i_k := residual i c in
       let residual_j_k := residual j c in
       val + (residual_n_k - residual_i_k) * (residual_n_k - residual_j_k)) 0.

(** Lines 195-222: every cell of the freshly allocated [rhs] and [mat] is
    assigned once by the set-up loops. *)
Definition setup_rhs (n : nat) : seq R := mkseq (rhs_entry n) n.
Definition setup_mat (n : nat) : seq (seq R) :=
  mkseq (fun i => mkseq (mat_entry n i) n) n.

(** Lines 225-228: [ludcmp(mat, n, perm, &d); lubksb(mat, n, perm, rhs)];
    the value is [rhs] as the pair of calls leaves it. *)
Definition lu_solve (mat : seq (seq R)) (n : nat) (rhs : seq R) : seq R :=
  let: (lu, perm, _) := ludcmp mat n in lubksb lu n perm rhs.

(** Lines 232-238: copy the solution into [anderson_coeffs], summing it on
    the way, and store [1.0 - sum] behind it. *)
Definition store_coeffs (n : nat) (rhs anderson_coeffs : seq R) : seq R :=
  let: (coeffs, sum) :=
    for_loop 0 n
      (fun i cs => let: (coeffs, sum) := cs in
         (set_nth 0 coeffs i (nth 0 rhs i), sum + nth 0 rhs i))
      (anderson_coeffs, 0) in
  set_nth 0 coeffs n (1 - sum).

(** [calculate_anderson_coeffs()]: the new contents of [anderson_coeffs]. *)
Definition calculate_anderson_coeffs (anderson_coeffs : seq R) : seq R :=
  if k == 2%N then set_nth 0 anderson_coeffs 0 1
  else
    let n := (k - 2)%N in
    let mat := setup_mat n in
    let rhs := setup_rhs n in
    let rhs := lu_solve mat n rhs in
    store_coeffs n rhs anderson_coeffs.

(** Lines 172-174: the value accumulated into [sln_vector[i]]. *)
Definition mixed_entry (anderson_beta : R) (anderson_coeffs : seq R) (i : nat) : R :=
  for_loop 1 k
    (fun j acc =>
       acc + (nth 0 anderson_coeffs j.-1 * pvec j i
              - (1 - anderson_beta) * nth 0 anderson_coeffs j.-1
                * (pvec j i - pvec j.-1 i))) 0.

(** Lines 170-175: the loop that overwrites [sln_vector]. *)
Definition mix_vectors (anderson_beta : R) (anderson_coeffs sln_vector : seq R) : seq R :=
  for_loop 0 dimension
    (fun i sln => set_nth 0 sln i (mixed_entry anderson_beta anderson_coeffs i))
    sln_vector.

End Kernel.

(** ** The solver object *)

(** Modelled from the spec: the enumeration [NonlinearConvergenceState] is
    declared in a header outside this file; these are the states the
    specification names, and [OtherState] stands for any further enumerator,
    which the [default:] branch of
    [handle_convergence_state_return_finished] catches. *)
Inductive NonlinearConvergenceState :=
  | Converged
  | NotConverged
  | AboveMaxIterations
  | Error
  | OtherState.

(** The exceptions the file throws, by their throw site. *)
Inductive exn :=
  | BadNumLastVectors      (* isOkay: "Picard: Bad number of last iterations ..." *)
  | InstanceNotOkay        (* check(): the base class reports the object not okay *)
  | NonlinearException of NonlinearConvergenceState
  | UnknownException       (* "Unknown exception in PicardSolver." *)
  | UnknownConvergenceState.

(** Calls into collaborators and messages, in the order they happen. *)
Inductive event :=
  | Tick
  | OnInitialization
  | ReuseMatrixStructureCompletely
  | CreateStructureFromScratch
  | AssembleResidual
  | Assemble
  | MatrixSolve
  | StepInfo
  | OnInitialStepEnd
  | OnStepBegin
  | OnStepEnd
  | InfoDone
  | InfoAborted
  | InfoDuration
  | OnFinish.

Definition is_on_finish (e : event) : bool :=
  if e is OnFinish then true else false.
Definition is_matrix_solve (e : event) : bool :=
  if e is MatrixSolve then true else false.

(** Heap blocks the solver allocates with [new] or [calloc] for the buffers
    of the object and for the vector it makes when the caller passes none
    (the local arrays of [calculate_anderson_coeffs] are the [scratch]
    blocks further down). *)
Inductive block :=
  | BlkSlnVector
  | BlkCoeffVec
  | BlkRowTable            (* new Scalar*[num_last_vectors_used] *)
  | BlkRow of nat          (* new Scalar[dimension], one per history slot *)
  | BlkCoeffs.             (* new Scalar[num_last_vectors_used - 1] *)

Definition block_eqb (a b : block) : bool :=
  match a, b with
  | BlkSlnVector, BlkSlnVector => true
  | BlkCoeffVec, BlkCoeffVec => true
  | BlkRowTable, BlkRowTable => true
  | BlkRow i, BlkRow j => i == j
  | BlkCoeffs, BlkCoeffs => true
  | _, _ => false
  end.

(** [b] is currently allocated. *)
Definition is_live (b : block) (heap : seq block) : bool := has (block_eqb b) heap.

(** [delete] / [free]: the block leaves the heap. *)
Fixpoint release (b : block) (heap : seq block) : seq block :=
  if heap is a :: heap' then
    if block_eqb b a then heap' else a :: release b heap'
  else [::].

(** What the collaborators answer during one iteration: the caller's
    [on_step_begin()], the vector [matrix_solver->get_sln_vector()] after the
    linear solve, [get_convergence_state()], and the caller's [on_step_end()]
    (for the initial step: [on_initial_step_end()]; [in_step_begin] is not
    consulted there). *)
Record step_input (R : Type) := StepInput {
  in_step_begin : bool;
  in_new_sln : seq R;
  in_state : NonlinearConvergenceState;
  in_step_end : bool
}.

(** The configuration: what [init_picard] and the setters
    [set_num_last_vector_used], [set_anderson_beta],
    [use_Anderson_acceleration] leave in the object, the base-class flag
    [constant_jacobian], and the verdict of the base class's own
    [NonlinearMatrixSolver<Scalar>::isOkay()]. *)
Record config (R : Type) := Config {
  num_last_vectors_used : int;
  anderson_beta : R;
  anderson_is_on : bool;
  constant_jacobian : bool;
  base_isOkay : bool
}.

(** The mutable part of the object together with the locals of [solve]
    that the parameter channels point at ([it], [vec_in_memory]), the
    caller-visible [coeff_vec], the heap and the event log. *)
Record state (R : Type) := State {
  dimension : nat;
  sln_vector : seq R;
  coeff_vec : seq R;
  delete_coeff_vec : bool;
  jacobian_reusable : bool;
  previous_vectors : seq nat;
  rows : seq (seq R);
  anderson_coeffs : seq R;
  it : nat;
  vec_in_memory : nat;
  num_iters : nat;
  heap : seq block;
  trace : seq event
}.

Section Updates.
Variable R : Type.
Implicit Type s : state R.

Definition set_dimension d s :=
  State d (sln_vector s) (coeff_vec s) (delete_coeff_vec s) (jacobian_reusable s)
    (previous_vectors s) (rows s) (anderson_coeffs s) (it s) (vec_in_memory s)
    (num_iters s) (heap s) (trace s).
Definition set_sln_vector v s :=
  State (dimension s) v (coeff_vec s) (delete_coeff_vec s) (jacobian_reusable s)
    (previous_vectors s) (rows s) (anderson_coeffs s) (it s) (vec_in_memory s)
    (num_iters s) (heap s) (trace s).
Definition set_coeff_vec v s :=
  State (dimension s) (sln_vector s) v (delete_coeff_vec s) (jacobian_reusable s)
    (previous_vectors s) (rows s) (anderson_coeffs s) (it s) (vec_in_memory s)
    (num_iters s) (heap s) (trace s).
Definition set_delete_coeff_vec b s :=
  State (dimension s) (sln_vector s) (coeff_vec s) b (jacobian_reusable s)
    (previous_vectors s) (rows s) (anderson_coeffs s) (it s) (vec_in_memory s)
    (num_iters s) (heap s) (trace s).
Definition set_jacobian_reusable b s :=
  State (dimension s) (sln_vector s) (coeff_vec s) (delete_coeff_vec s) b
    (previous_vectors s) (rows s) (anderson_coeffs s) (it s) (vec_in_memory s)
    (num_iters s) (heap s) (trace s).
Definition set_previous_vectors pv s :=
  State (dimension s) (sln_vector s) (coeff_vec s) (delete_coeff_vec s) (jacobian_reusable s)
    pv (rows s) (anderson_coeffs s) (it s) (vec_in_memory s)
    (num_iters s) (heap s) (trace s).
Definition set_rows rs s :=
  State (dimension s) (sln_vector s) (coeff_vec s) (delete_coeff_vec s) (jacobian_reusable s)
    (previous_vectors s) rs (anderson_coeffs s) (it s) (vec_in_memory s)
    (num_iters s) (heap s) (trace s).
Definition set_anderson_coeffs c s :=
  State (dimension s) (sln_vector s) (coeff_vec s) (delete_coeff_vec s) (jacobian_reusable s)
    (previous_vectors s) (rows s) c (it s) (vec_in_memory s)
    (num_iters s) (heap s) (trace s).
Definition set_it n s :=
  State (dimension s) (sln_vector s) (coeff_vec s) (delete_coeff_vec s) (jacobian_reusable s)
    (previous_vectors s) (rows s) (anderson_coeffs s) n (vec_in_memory s)
    (num_iters s) (heap s) (trace s).
Definition set_vec_in_memory n s :=
  State (dimension s) (sln_vector s) (coeff_vec s) (delete_coeff_vec s) (jacobian_reusable s)
    (previous_vectors s) (rows s) (anderson_coeffs s) (it s) n
    (num_iters s) (heap s) (trace s).
Definition set_num_iters n s :=
  State (dimension s) (sln_vector s) (coeff_vec s) (delete_coeff_vec s) (jacobian_reusable s)
    (previous_vectors s) (rows s) (anderson_coeffs s) (it s) (vec_in_memory s)
    n (heap s) (trace s).
Definition set_heap h s :=
  State (dimension s) (sln_vector s) (coeff_vec s) (delete_coeff_vec s) (jacobian_reusable s)
    (previous_vectors s) (rows s) (anderson_coeffs s) (it s) (vec_in_memory s)
    (num_iters s) h (trace s).
Definition set_trace t s :=
  State (dimension s) (sln_vector s) (coeff_vec s) (delete_coeff_vec s) (jacobian_reusable s)
    (previous_vectors s) (rows s) (anderson_coeffs s) (it s) (vec_in_memory s)
    (num_iters s) (heap s) t.

(** A call into a collaborator, or a message, is appended to the log. *)
Definition log (e : event) s := set_trace (rcons (trace s) e) s.
Definition alloc (b : block) s := set_heap (b :: heap s) s.
Definition dealloc (b : block) s := set_heap (release b (heap s)) s.

(** Results of code that may throw: a value and the state it leaves, or the
    exception and the state at the throw. *)
Inductive res (A : Type) :=
  | Val of A & state R
  | Throw of exn & state R.

Definition M (A : Type) := state R -> res A.
Definition ret (A : Type) (a : A) : M A := fun s => Val a s.
Definition throw (A : Type) (e : exn) : M A := fun s => Throw A e s.
Definition bind (A B : Type) (m : M A) (f : A -> M B) : M B :=
  fun s => match m s with
           | Val a s' => f a s'
           | Throw e s' => Throw B e s'
           end.
(** A statement that only changes the state. *)
Definition exec (f : state R -> state R) : M unit := fun s => Val tt (f s).

Definition final_state (A : Type) (r : res A) : state R :=
  match r with Val _ s => s | Throw _ s => s end.

End Updates.

Notation "m >>= f" := (bind m f) (at level 58, left associativity).
Notation "m >> n" := (bind m (fun _ => n)) (at level 58, left associativity).

(** ** The methods of [PicardMatrixSolver<Scalar>] *)

Section Solver.

Variable R : comRingType.
Variable ludcmp : seq (seq R) -> nat -> seq (seq R) * seq nat * int.
Variable lubksb : seq (seq R) -> nat -> seq nat -> seq R -> seq R.

(** What a cell of a [new Scalar[...]] buffer holds before its first store. *)
Variable uninit : R.

Variable cfg : config R.

Implicit Type s : state R.

(** [num_last_vectors_used] as a loop bound and array length: a negative
    [int] bounds no iteration.  ([solve] reaches the code below only after
    [check()] has let the value through.) *)
Definition capacity : nat :=
  if num_last_vectors_used cfg is Posz n then n else 0%N.

(** [isOkay()], lines 41-51. *)
Definition isOkay : M R bool :=
  if num_last_vectors_used cfg <= 1 then throw bool BadNumLastVectors
  else ret (R := R) (base_isOkay cfg).

(** Modelled from the spec: [check()] is inherited from a base class outside
    this file; the specification has [solve] fail when the object is
    misconfigured, so [check] raises unless the virtual [isOkay()] answers
    [true]. *)
Definition check : M R unit :=
  isOkay >>= fun ok => if ok then ret (R := R) tt else throw unit InstanceNotOkay.

(** [init_anderson()], lines 116-127. *)
Definition init_anderson s : state R :=
  if anderson_is_on cfg then
    let s := alloc BlkRowTable s in
    let s := set_previous_vectors (iota 0 capacity) s in
    let s :=
      for_loop 0 capacity
        (fun i s => alloc (BlkRow i)
                      (set_rows (set_nth [::] (rows s) i (nseq (dimension s) uninit)) s))
        (set_rows [::] s) in
    let s := alloc BlkCoeffs (set_anderson_coeffs (nseq capacity.-1 uninit) s) in
    let p0 := nth 0%N (previous_vectors s) 0 in
    set_rows (set_nth [::] (rows s) p0
                (memcpy (nth [::] (rows s) p0) (sln_vector s) (dimension s))) s
  else s.

(** [deinit_anderson()], lines 129-139.  No method of this file calls it. *)
Definition deinit_anderson s : state R :=
  if anderson_is_on cfg then
    let s := for_loop 0 capacity (fun i s => dealloc (BlkRow i) s) s in
    dealloc BlkCoeffs (dealloc BlkRowTable s)
  else s.

(** The read [previous_vectors[j][c]] through the row pointer. *)
Definition read_pv s (j c : nat) : R :=
  nth 0 (nth [::] (rows s) (nth 0%N (previous_vectors s) j)) c.

(** The history as the sequence of rows the pointer array designates. *)
Definition history s : seq (seq R) :=
  [seq nth [::] (rows s) p | p <- previous_vectors s].

(** Lines 147-162 of [handle_previous_vectors]: the new iterate enters the
    history. *)
Definition push_vector s : state R :=
  if (vec_in_memory s < capacity)%N then
    let p := nth 0%N (previous_vectors s) (vec_in_memory s) in
    set_vec_in_memory (vec_in_memory s).+1
      (set_rows (set_nth [::] (rows s) p
                   (memcpy (nth [::] (rows s) p) (sln_vector s) (dimension s))) s)
  else
    let oldest_vec := nth 0%N (previous_vectors s) 0 in
    let pv :=
      for_loop 0 capacity.-1
        (fun i pv => set_nth 0%N pv i (nth 0%N pv i.+1)) (previous_vectors s) in
    let pv := set_nth 0%N pv capacity.-1 oldest_vec in
    set_rows (set_nth [::] (rows s) oldest_vec
                (memcpy (nth [::] (rows s) oldest_vec) (sln_vector s) (dimension s)))
      (set_previous_vectors pv s).

(** Lines 164-176 of [handle_previous_vectors]: coefficients, then mixing. *)
Definition mix_if_full s : state R :=
  if (capacity <= vec_in_memory s)%N then
    let s :=
      set_anderson_coeffs
        (calculate_anderson_coeffs ludcmp lubksb (read_pv s) (dimension s) capacity
           (anderson_coeffs s)) s in
    set_sln_vector
      (mix_vectors (read_pv s) (dimension s) capacity (anderson_beta cfg)
         (anderson_coeffs s) (sln_vector s)) s
  else s.

(** [handle_previous_vectors(vec_in_memory)], lines 141-178. *)
Definition handle_previous_vectors s : state R :=
  if anderson_is_on cfg then mix_if_full (push_vector s) else s.

(** [calculate_error(coeff_vec)], lines 256-275: the norm channels are
    instrumentation and are left out; the new vector of the linear solver
    replaces [sln_vector]. *)
Definition calculate_error (new_sln_vector : seq R) s : state R :=
  set_sln_vector (memcpy (sln_vector s) new_sln_vector (dimension s)) s.

(** [deinit_solving(coeff_vec)], lines 444-452. *)
Definition deinit_solving s : state R :=
  if delete_coeff_vec s then set_delete_coeff_vec false (dealloc BlkCoeffVec s)
  else s.

(** [finalize_solving(coeff_vec)], lines 434-442. *)
Definition finalize_solving s : state R :=
  let s := log Tick s in
  let s := set_num_iters (it s) s in
  let s := log InfoDuration s in
  let s := log OnFinish s in
  deinit_solving s.

(** [handle_convergence_state_return_finished(state, coeff_vec)],
    lines 53-81. *)
Definition handle_convergence_state_return_finished
    (st : NonlinearConvergenceState) : M R bool :=
  if st is NotConverged then ret (R := R) false
  else
    exec finalize_solving >>
    match st with
    | Converged => exec (log InfoDone) >> ret (R := R) true
    | AboveMaxIterations => throw bool (NonlinearException AboveMaxIterations)
    | Error => throw bool UnknownException
    | _ => throw bool UnknownConvergenceState
    end.

(** Lines 283-306 of [init_solving(coeff_vec)], after [check()] and before
    nothing else can fail; [dim] is what [get_dimension()] answers and [arg]
    the caller's vector, [None] for [NULL]. *)
Definition init_solving_body (arg : option (seq R)) (dim : nat) s : state R :=
  let s := log Tick s in
  let s := set_dimension dim s in
  let s := if is_live BlkSlnVector (heap s) then dealloc BlkSlnVector s else s in
  let s := alloc BlkSlnVector (set_sln_vector (nseq dim uninit) s) in
  let s :=
    match arg with
    | None => set_sln_vector (memcpy (sln_vector s) (nseq dim 0) dim) s
    | Some v => set_sln_vector (memcpy (sln_vector s) v dim) s
    end in
  let s := set_delete_coeff_vec false s in
  let s :=
    match arg with
    | None => set_delete_coeff_vec true (alloc BlkCoeffVec (set_coeff_vec (nseq dim 0) s))
    | Some v => set_coeff_vec v s
    end in
  log OnInitialization s.

(** [init_solving(coeff_vec)], lines 277-307. *)
Definition init_solving (arg : option (seq R)) (dim : nat) : M R unit :=
  check >> exec (init_solving_body arg dim).

(** [solve_linear_system(coeff_vec)], lines 337-356 (without the push onto
    the residual-norm channel). *)
Definition solve_linear_system s : state R :=
  let s :=
    if jacobian_reusable s && constant_jacobian cfg then
      log AssembleResidual (log ReuseMatrixStructureCompletely s)
    else
      set_jacobian_reusable true (log Assemble (log CreateStructureFromScratch s)) in
  log MatrixSolve s.

(** [do_initial_step_return_finished(coeff_vec)], lines 309-335 (without
    the push of the initial norm). *)
Definition do_initial_step_return_finished (e : step_input R) : M R bool :=
  exec solve_linear_system >>
  exec (calculate_error (in_new_sln e)) >>
  exec handle_previous_vectors >>
  exec (log StepInfo) >>
  exec (fun s => set_coeff_vec (memcpy (coeff_vec s) (sln_vector s) (dimension s)) s) >>
  handle_convergence_state_return_finished (in_state e) >>= fun finished =>
  if finished then ret (R := R) true
  else exec (log OnInitialStepEnd) >> ret (R := R) (in_step_end e == false).

(** One pass through the body of [while (true)], lines 392-431; the value
    says whether [solve] returns. *)
Definition loop_body (e : step_input R) : M R bool :=
  exec (log OnStepBegin) >>
  if ~~ in_step_begin e then
    exec (log InfoAborted) >> exec finalize_solving >> ret (R := R) true
  else
    exec solve_linear_system >>
    exec (calculate_error (in_new_sln e)) >>
    exec handle_previous_vectors >>
    exec (log StepInfo) >>
    handle_convergence_state_return_finished (in_state e) >>= fun finished =>
    if finished then ret (R := R) true
    else
      exec (log OnStepEnd) >>
      if ~~ in_step_end e then
        exec (log InfoAborted) >> exec finalize_solving >> ret (R := R) true
      else
        exec (fun s => set_it (it s).+1 s) >>
        exec (fun s => set_coeff_vec (memcpy (coeff_vec s) (sln_vector s) (dimension s)) s) >>
        ret (R := R) false.

(** [while (true) { ... }]: the loop runs as long as the script has answers;
    [None] when the script ends before the loop does. *)
Fixpoint main_loop (script : seq (step_input R)) s : option (res R unit) :=
  if script is e :: script' then
    match loop_body e s with
    | Val true s' => Some (Val tt s')
    | Val false s' => main_loop script' s'
    | Throw x s' => Some (Throw unit x s')
    end
  else None.

(** [solve(coeff_vec)], lines 358-432, up to the entry of the loop: the
    value says whether [solve] has returned. *)
Definition solve_entry (arg : option (seq R)) (dim : nat) (first : step_input R)
    : M R bool :=
  init_solving arg dim >>
  exec init_anderson >>
  exec (fun s => set_it 1 (set_vec_in_memory 1 s)) >>
  do_initial_step_return_finished first >>= fun finished =>
  if finished then
    exec (log InfoAborted) >> exec finalize_solving >> ret (R := R) true
  else
    exec (fun s => set_it (it s).+1 s) >> ret (R := R) false.

(** [solve(coeff_vec)]. *)
Definition solve (arg : option (seq R)) (dim : nat) (first : step_input R)
    (script : seq (step_input R)) s : option (res R unit) :=
  match solve_entry arg dim first s with
  | Val true s' => Some (Val tt s')
  | Val false s' => main_loop script s'
  | Throw x s' => Some (Throw unit x s')
  end.

End Solver.

(** ** Runs of the loop *)

Section Runs.

Variable R : comRingType.
Variable ludcmp : seq (seq R) -> nat -> seq (seq R) * seq nat * int.
Variable lubksb : seq (seq R) -> nat -> seq nat -> seq R -> seq R.
Variable uninit : R.
Variable cfg : config R.

Implicit Type s : state R.

(** Lines 319-322 and 406-409: the vector of the linear solver is taken
    over by [calculate_error], then handed to [handle_previous_vectors]. *)
Definition accept_iterate (new_sln_vector : seq R) s : state R :=
  handle_previous_vectors ludcmp lubksb cfg (calculate_error new_sln_vector s).

(** Lines 316-325 and 403-412: linear solve, error, history, report. *)
Definition step_work (new_sln_vector : seq R) s : state R :=
  log StepInfo (accept_iterate new_sln_vector (solve_linear_system cfg s)).

(** Lines 328 and 430: [memcpy(coeff_vec, sln_vector, ...)]. *)
Definition renew_coeff_vec s : state R :=
  set_coeff_vec (memcpy (coeff_vec s) (sln_vector s) (dimension s)) s.

(** [it++]. *)
Definition next_iteration s : state R := set_it (it s).+1 s.

(** The state in which the initial step starts, when [check()] passes. *)
Definition start_state (arg : option (seq R)) (dim : nat) s : state R :=
  set_it 1 (set_vec_in_memory 1
              (init_anderson uninit cfg (init_solving_body uninit arg dim s))).

(** The state after the passes through the loop body that the answers
    [steps] drive. *)
Definition run_steps (steps : seq (step_input R)) s : state R :=
  foldl (fun s e => final_state (loop_body ludcmp lubksb cfg e s)) s steps.

(** Answers after which the loop goes round again: both hooks allow it and
    the state is [NotConverged]. *)
Definition not_converged (st : NonlinearConvergenceState) : bool :=
  if st is NotConverged then true else false.
Definition continuing (e : step_input R) : bool :=
  [&& in_step_begin e, not_converged (in_state e) & in_step_end e].
(** The same for the initial step, which consults no begin hook. *)
Definition initial_continuing (e : step_input R) : bool :=
  not_converged (in_state e) && in_step_end e.

(** Answers with which a hook of the loop asks for the abort. *)
Definition hook_abort (e : step_input R) : bool :=
  ~~ in_step_begin e || (not_converged (in_state e) && ~~ in_step_end e).

(** The history buffers are laid out as [init_anderson] leaves them: one row
    buffer of [dimension] cells per slot, each designated by exactly one
    row pointer, and no more vectors counted than there are slots. *)
Definition wf_history s : bool :=
  [&& size (rows s) == capacity cfg,
      perm_eq (previous_vectors s) (iota 0 (capacity cfg)),
      all (fun r => size r == dimension s) (rows s),
      size (sln_vector s) == dimension s
    & (vec_in_memory s <= capacity cfg)%N].

(** The occupied part of the history, oldest vector first. *)
Definition stored s : seq (seq R) := take (vec_in_memory s) (history s).

(** The last [n] elements of a list. *)
Definition lastn (T : Type) (n : nat) (l : seq T) : seq T := drop (size l - n) l.

(** The part of the object that the history code reads and writes. *)
Definition anderson_view s :=
  (dimension s, sln_vector s, previous_vectors s, rows s, anderson_coeffs s,
   vec_in_memory s).

(** The blocks that [init_anderson] allocates. *)
Definition anderson_block (b : block) : bool :=
  match b with
  | BlkRowTable | BlkRow _ | BlkCoeffs => true
  | _ => false
  end.

(** The part of the object that the history code never writes. *)
Definition outside_history s :=
  (dimension s, coeff_vec s, delete_coeff_vec s, jacobian_reusable s, it s,
   num_iters s, heap s, trace s).

(** The vector [solve] starts from: the caller's, or zeros for [NULL]. *)
Definition initial_iterate (arg : option (seq R)) (dim : nat) : seq R :=
  if arg is Some v then v else nseq dim 0.

(** Lines 361-379 of [solve]: everything before the initial step. *)
Definition solve_start (arg : option (seq R)) (dim : nat) : M R unit :=
  init_solving uninit cfg arg dim >>
  exec (init_anderson uninit cfg) >>
  exec (fun s => set_it 1 (set_vec_in_memory 1 s)).

(** The number of times [on_finish()] has been called. *)
Definition finish_count s : nat := count is_on_finish (trace s).

(** The object between two calls of [solve]: nothing allocated yet. *)
Definition new_solver : state R :=
  State 0 [::] [::] false false [::] [::] [::] 0 0 0 [::] [::].

(** [init_picard()], lines 107-114, for the given base-class answers. *)
Definition init_picard (constant_jacobian base_isOkay : bool) : config R :=
  Config 3 1 false constant_jacobian base_isOkay.

End Runs.

(** ** The specification's formulas *)

Section Spec.

Variable R : comRingType.

(** [v j c]: component [c] of history entry [j]; index 0 is the oldest. *)
Variable v : nat -> nat -> R.
Variable dim : nat.

(** "residual differences r_i = v_{i+1} - v_i". *)
Definition spec_r (i c : nat) : R := v i.+1 c - v i c.

(** "entry (i,j) = sum over components of (r_n - r_i) (r_n - r_j)". *)
Definition spec_matrix (n i j : nat) : R :=
  \sum_(0 <= c < dim) (spec_r n c - spec_r i c) * (spec_r n c - spec_r j c).

(** "right-hand side i = sum over components of r_n (r_n - r_i)". *)
Definition spec_rhs (n i : nat) : R :=
  \sum_(0 <= c < dim) spec_r n c * (spec_r n c - spec_r i c).

(** [x] satisfies the [n] equations [mat x = rhs]. *)
Definition solves_system (mat : seq (seq R)) (n : nat) (x rhs : seq R) : bool :=
  all (fun i =>
         for_loop 0 n (fun j acc => acc + nth 0 (nth [::] mat i) j * nth 0 x j) 0
         == nth 0 rhs i)
      (iota 0 n).

End Spec.

(** ** The dense helper *)

(** Modelled from the spec: [ludcmp] and [lubksb] belong to
    [dense_matrix_operations.h], which is not part of this file.  The
    specification describes them as the Dense Linear Algebra Helper that
    "solves a small dense linear system (LU with partial pivoting)":
    [ludcmp] factors the row-permuted matrix in place, unit lower factor below
    the diagonal, and records the row exchanges; [lubksb] applies the
    exchanges to the right-hand side and substitutes forward and backward. *)
Module DenseMatrixOperations.
Section LU.

Variable F : numFieldType.
Implicit Types (a : seq (seq F)) (b : seq F).

Definition entry a (i j : nat) : F := nth 0 (nth [::] a i) j.

Definition swap (T : Type) (x0 : T) (v : seq T) (i j : nat) : seq T :=
  set_nth x0 (set_nth x0 v i (nth x0 v j)) j (nth x0 v i).

(** The row at or below the diagonal with the largest magnitude in
    column [j]. *)
Definition pivot_row a (n j : nat) : nat :=
  for_loop j.+1 n
    (fun i p => if `|entry a p j| < `|entry a i j| then i else p) j.

(** Row [i] after the multiple [a[i][j] / a[j][j]] of row [j] has been
    subtracted right of column [j]; the multiplier takes the place of the
    cleared entry. *)
Definition eliminate a (n j i : nat) : seq (seq F) :=
  let m := entry a i j / entry a j j in
  let row :=
    for_loop j.+1 n (fun c row => set_nth 0 row c (nth 0 row c - m * entry a j c))
      (set_nth 0 (nth [::] a i) j m) in
  set_nth [::] a i row.

Definition ludcmp a (n : nat) : seq (seq F) * seq nat * int :=
  for_loop 0 n
    (fun j st =>
       let: (a, indx, d) := st in
       let p := pivot_row a n j in
       let a := swap [::] a j p in
       let d := if p == j then d else - d in
       (for_loop j.+1 n (fun i a => eliminate a n j i) a, rcons indx p, d))
    (a, [::], 1).

Definition lubksb a (n : nat) (indx : seq nat) b : seq F :=
  let b := for_loop 0 n (fun i b => swap 0 b i (nth 0%N indx i)) b in
  let b :=
    for_loop 0 n
      (fun i b =>
         set_nth 0 b i
           (for_loop 0 i (fun j sum => sum - entry a i j * nth 0 b j) (nth 0 b i)))
      b in
  for_loop 0 n
    (fun t b =>
       let i := (n - t.+1)%N in
       set_nth 0 b i
         (for_loop i.+1 n (fun j sum => sum - entry a i j * nth 0 b j) (nth 0 b i)
          / entry a i i)) b.

End LU.
End DenseMatrixOperations.

(** ** [Scalar] arithmetic as the machine carries it out *)

(** The code of [calculate_anderson_coeffs] once more, over a type [T] with
    the operations of [Scalar] and no law about them: instantiated with a
    ring it is the kernel above (lemma [calculate_anderson_coeffs_machine]),
    instantiated with IEEE 754 binary64 it is the code as it runs for
    [Scalar = double], every sum, difference, product and quotient rounded
    to nearest. *)
Module Machine.

(** [0], [1.0], [+], [-], [*] on [Scalar]. *)
Record scalar (T : Type) := Scalar {
  zero : T;
  one : T;
  add : T -> T -> T;
  sub : T -> T -> T;
  mul : T -> T -> T
}.

(** What the dense helper needs besides: [/], the magnitude by which the
    pivot is chosen, and its comparison. *)
Record pivoting (T : Type) := Pivoting {
  div : T -> T -> T;
  magnitude : T -> T;
  less : T -> T -> bool
}.

Section Kernel.

Variable T : Type.
Variable ops : scalar T.
Variable ludcmp : seq (seq T) -> nat -> seq (seq T) * seq nat * int.
Variable lubksb : seq (seq T) -> nat -> seq nat -> seq T -> seq T.
Variable pvec : nat -> nat -> T.
Variables (dimension k : nat).

(** [previous_vectors[i + 1][c] - previous_vectors[i][c]]. *)
Definition residual (i c : nat) : T := sub ops (pvec i.+1 c) (pvec i c).

(** Lines 202-208: the accumulation of [rhs[i]]. *)
Definition rhs_entry (n i : nat) : T :=
  for_loop 0 dimension
    (fun c acc =>
       let residual_n_k := residual n c in
       let residual_i_k := residual i c in
       add ops acc (mul ops residual_n_k (sub ops residual_n_k residual_i_k)))
    (zero ops).

(** Lines 211-220: the accumulation of [mat[i][j]]. *)
Definition mat_entry (n i j : nat) : T :=
  for_loop 0 dimension
    (fun c val =>
       let residual_n_k := residual n c in
       let residual_i_k := residual i c in
       let residual_j_k := residual j c in
       add ops val
         (mul ops (sub ops residual_n_k residual_i_k)
            (sub ops residual_n_k residual_j_k)))
    (zero ops).

(** Lines 195-222: the set-up loops. *)
Definition setup_rhs (n : nat) : seq T := mkseq (rhs_entry n) n.
Definition setup_mat (n : nat) : seq (seq T) :=
  mkseq (fun i => mkseq (mat_entry n i) n) n.

(** Lines 225-228: [ludcmp(mat, n, perm, &d); lubksb(mat, n, perm, rhs)]. *)
Definition lu_solve (mat : seq (seq T)) (n : nat) (rhs : seq T) : seq T :=
  let: (lu, perm, _) := ludcmp mat n in lubksb lu n perm rhs.

(** Lines 232-238: the copy into [anderson_coeffs], its sum, and
    [1.0 - sum] behind it. *)
Definition store_coeffs (n : nat) (rhs anderson_coeffs : seq T) : seq T :=
  let: (coeffs, sum) :=
    for_loop 0 n
      (fun i cs => let: (coeffs, sum) := cs in
         (set_nth (zero ops) coeffs i (nth (zero ops) rhs i),
          add ops sum (nth (zero ops) rhs i)))
      (anderson_coeffs, zero ops) in
  set_nth (zero ops) coeffs n (sub ops (one ops) sum).

(** [calculate_anderson_coeffs()], lines 180-243. *)
Definition calculate_anderson_coeffs (anderson_coeffs : seq T) : seq T :=
  if k == 2%N then set_nth (zero ops) anderson_coeffs 0 (one ops)
  else
    let n := (k - 2)%N in
    let mat := setup_mat n in
    let rhs := setup_rhs n in
    let rhs := lu_solve mat n rhs in
    store_coeffs n rhs anderson_coeffs.

(** The sum of the first [n] cells of [x], taken from the left as the loop
    of lines 233-237 takes it. *)
Definition running_sum (n : nat) (x : seq T) : T :=
  for_loop 0 n (fun i sum => add ops sum (nth (zero ops) x i)) (zero ops).

End Kernel.

(** Modelled from the spec: the Dense Linear Algebra Helper
    ([dense_matrix_operations.h], outside this file), "LU with partial
    pivoting", step for step as [DenseMatrixOperations] above has it, with
    the operations of the machine in the place of those of a field. *)
Section Dense.

Variable T : Type.
Variable ops : scalar T.
Variable piv : pivoting T.

Definition entry (a : seq (seq T)) (i j : nat) : T :=
  nth (zero ops) (nth [::] a i) j.

Definition pivot_row (a : seq (seq T)) (n j : nat) : nat :=
  for_loop j.+1 n
    (fun i p =>
       if less piv (magnitude piv (entry a p j)) (magnitude piv (entry a i j))
       then i else p) j.

Definition eliminate (a : seq (seq T)) (n j i : nat) : seq (seq T) :=
  let m := div piv (entry a i j) (entry a j j) in
  let row :=
    for_loop j.+1 n
      (fun c row =>
         set_nth (zero ops) row c
           (sub ops (nth (zero ops) row c) (mul ops m (entry a j c))))
      (set_nth (zero ops) (nth [::] a i) j m) in
  set_nth [::] a i row.

Definition ludcmp (a : seq (seq T)) (n : nat) : seq (seq T) * seq nat * int :=
  for_loop 0 n
    (fun j st =>
       let: (a, indx, d) := st in
       let p := pivot_row a n j in
       let a := DenseMatrixOperations.swap [::] a j p in
       let d := if p == j then d else - d in
       (for_loop j.+1 n (fun i a => eliminate a n j i) a, rcons indx p, d))
    (a, [::], 1).

Definition lubksb (a : seq (seq T)) (n : nat) (indx : seq nat) (b : seq T) : seq T :=
  let b :=
    for_loop 0 n
      (fun i b => DenseMatrixOperations.swap (zero ops) b i (nth 0%N indx i)) b in
  let b :=
    for_loop 0 n
      (fun i b =>
         set_nth (zero ops) b i
           (for_loop 0 i
              (fun j sum => sub ops sum (mul ops (entry a i j) (nth (zero ops) b j)))
              (nth (zero ops) b i)))
      b in
  for_loop 0 n
    (fun t b =>
       let i := (n - t.+1)%N in
       set_nth (zero ops) b i
         (div piv
            (for_loop i.+1 n
               (fun j sum => sub ops sum (mul ops (entry a i j) (nth (zero ops) b j)))
               (nth (zero ops) b i))
            (entry a i i))) b.

(** The left-hand side of equation [i] of [mat x = rhs], summed from the
    left. *)
Definition row_product (mat : seq (seq T)) (n : nat) (x : seq T) (i : nat) : T :=
  for_loop 0 n (fun j acc => add ops acc (mul ops (entry mat i j) (nth (zero ops) x j)))
    (zero ops).

End Dense.

(** Exact arithmetic: the operations of a ring, and of an ordered field. *)
Definition exact (R : comRingType) : scalar R :=
  Scalar 0 1 +%R (fun x y => x - y) *%R.
Definition exact_pivoting (F : numFieldType) : pivoting F :=
  Pivoting (fun x y => x / y) (fun x => `|x|) (fun x y => x < y).

(** [double]: IEEE 754 binary64 with rounding to nearest, ties to even. *)
Definition binary64 : scalar PrimFloat.float :=
  Scalar PrimFloat.zero PrimFloat.one PrimFloat.add PrimFloat.sub PrimFloat.mul.
Definition binary64_pivoting : pivoting PrimFloat.float :=
  Pivoting PrimFloat.div PrimFloat.abs PrimFloat.ltb.

End Machine.

(** ** Runs in [double] *)

Module Binary64.

(** Reads of a history of dimension 1: the vectors [0], [7], [11]. *)
Definition bends (j c : nat) : PrimFloat.float :=
  nth PrimFloat.zero
    (nth [::] [:: [:: 0%float]; [:: 7%float]; [:: 11%float]] j) c.

(** Reads of a history of dimension 1 that advances by equal steps: the
    vectors [0], [1], [2]. *)
Definition ramp (j c : nat) : PrimFloat.float :=
  nth PrimFloat.zero
    (nth [::] [:: [:: 0%float]; [:: 1%float]; [:: 2%float]] j) c.

Definition ludcmp := Machine.ludcmp Machine.binary64 Machine.binary64_pivoting.
Definition lubksb := Machine.lubksb Machine.binary64 Machine.binary64_pivoting.

(** [calculate_anderson_coeffs] with three history vectors of dimension 1,
    on a coefficient array of two cells. *)
Definition coefficients (pvec : nat -> nat -> PrimFloat.float) : seq PrimFloat.float :=
  Machine.calculate_anderson_coeffs Machine.binary64 ludcmp lubksb pvec 1 3
    [:: PrimFloat.zero; PrimFloat.zero].

End Binary64.

(** ** The passes of the dense helper *)

Section DenseSteps.

Variable F : numFieldType.

(** One pass of the outer loop of [ludcmp], on the matrix alone: the row
    exchange, then the elimination below the diagonal. *)
Definition lu_pass (n j : nat) (a : seq (seq F)) : seq (seq F) :=
  for_loop j.+1 n (fun i a => DenseMatrixOperations.eliminate a n j i)
    (DenseMatrixOperations.swap [::] a j (DenseMatrixOperations.pivot_row a n j)).

(** The matrix after the first [t] passes. *)
Definition lu_after (n t : nat) (a : seq (seq F)) : seq (seq F) :=
  for_loop 0 t (lu_pass n) a.

(** The row chosen by pass [t]. *)
Definition pivots (n : nat) (a : seq (seq F)) (t : nat) : nat :=
  DenseMatrixOperations.pivot_row (lu_after n t a) n t.

(** The exchange of the positions [i] and [p]. *)
Definition exchange (i p r : nat) : nat :=
  if r == p then i else if r == i then p else r.

(** The position at which the row that stands at [r] after [t] exchanges
    stood in the beginning; [piv j] is the row chosen in pass [j]. *)
Fixpoint origin (piv : nat -> nat) (t r : nat) : nat :=
  if t is t'.+1 then origin piv t' (exchange t' (piv t') r) else r.

(** The position to which [t] exchanges take the row that stood at [i]. *)
Fixpoint destination (piv : nat -> nat) (t i : nat) : nat :=
  if t is t'.+1 then exchange t' (piv t') (destination piv t' i) else i.

(** Entry [c] of the row that [eliminate] leaves in the place of row [r]
    when it clears column [j]. *)
Definition eliminated (n : nat) (a : seq (seq F)) (j r c : nat) : F :=
  let m := DenseMatrixOperations.entry a r j / DenseMatrixOperations.entry a j j in
  if c == j then m
  else if (j < c < n)%N then DenseMatrixOperations.entry a r c
                             - m * DenseMatrixOperations.entry a j c
  else DenseMatrixOperations.entry a r c.

(** The array [m] holds, after [t] passes, the factors of the matrix [a]
    with its rows in the order [sigma]: the multipliers left of the
    diagonal in the rows done, the rows of the upper factor above, and
    what is still to be eliminated below. *)
Definition factored (n : nat) (a : seq (seq F)) (sigma : nat -> nat) (t : nat)
    (m : seq (seq F)) : Prop :=
  forall r c, (r < n)%N -> (c < n)%N ->
    DenseMatrixOperations.entry a (sigma r) c
    = \sum_(0 <= u < minn r t)
         (if (u <= c)%N
          then DenseMatrixOperations.entry m r u * DenseMatrixOperations.entry m u c
          else 0)
      + (if (minn r t <= c)%N then DenseMatrixOperations.entry m r c else 0).

(** The decomposition has met no zero pivot. *)
Definition no_zero_pivot (lu : seq (seq F)) (n : nat) : bool :=
  all (fun j => DenseMatrixOperations.entry lu j j != 0) (iota 0 n).

End DenseSteps.

(** ** A concrete solver over the rationals *)

Module Demo.

Definition ludcmp : seq (seq rat) -> nat -> seq (seq rat) * seq nat * int :=
  @DenseMatrixOperations.ludcmp rat.
Definition lubksb : seq (seq rat) -> nat -> seq nat -> seq rat -> seq rat :=
  @DenseMatrixOperations.lubksb rat.

(** The content of unwritten cells in the concrete runs. *)
Definition junk : rat := 7%:Q.

(** History capacity 2, 3 and 4 with acceleration on; damping 1/2 and 1. *)
Definition cfg2_damped : config rat := Config 2 (1 / 2%:Q) true false true.
Definition cfg2 : config rat := Config 2 1 true false true.
Definition cfg3 : config rat := Config 3 1 true false true.
Definition cfg4 : config rat := Config 4 1 true true true.
(** Acceleration off, and a capacity the check refuses. *)
Definition cfg_plain : config rat := init_picard rat false true.
Definition cfg_bad : config rat := Config 1 1 true false true.

(** Answers of the collaborators for a problem of dimension 2. *)
Definition step (go_on : bool) (x y : rat) (st : NonlinearConvergenceState)
    (hook : bool) : step_input rat :=
  StepInput go_on [:: x; y] st hook.

Definition guess : seq rat := [:: 0; 1].
Definition first : step_input rat := step true 4%:Q 2%:Q NotConverged true.
Definition second : step_input rat := step true 6%:Q 5%:Q NotConverged true.
Definition third : step_input rat := step true 7%:Q 10%:Q NotConverged true.
Definition converged : step_input rat := step true 7%:Q 8%:Q Converged true.
Definition begin_abort : step_input rat := step false 0 0 NotConverged true.
Definition end_abort : step_input rat := step true 7%:Q 8%:Q NotConverged false.

Definition solve (cfg : config rat) :=
  solve ludcmp lubksb junk cfg (Some guess) 2.

(** The object when the initial step is about to hand its vector to the
    history. *)
Definition at_first (cfg : config rat) : state rat :=
  calculate_error (in_new_sln first)
    (solve_linear_system cfg (start_state junk cfg (Some guess) 2 (new_solver rat))).

(** The object when the second and the third pass of the loop are about to
    hand their vector to the history. *)
Definition at_second (cfg : config rat) : state rat :=
  calculate_error (in_new_sln second)
    (final_state (solve_entry ludcmp lubksb junk cfg (Some guess) 2 first (new_solver rat))).
Definition at_third (cfg : config rat) : state rat :=
  calculate_error (in_new_sln third)
    (run_steps ludcmp lubksb cfg [:: second]
       (final_state (solve_entry ludcmp lubksb junk cfg (Some guess) 2 first (new_solver rat)))).

(** What a run leaves behind; the object itself when the script runs out. *)
Definition outcome (cfg : config rat) (first : step_input rat)
    (script : seq (step_input rat)) : res rat unit :=
  if solve cfg first script (new_solver rat) is Some r then r
  else Val tt (new_solver rat).

End Demo.

(** ** Further methods and observers *)

Section Accessors.

Variable R : comRingType.

(** [set_num_last_vector_used(num)], lines 83-87. *)
Definition set_num_last_vector_used (num : int) (cfg : config R) : config R :=
  Config num (anderson_beta cfg) (anderson_is_on cfg) (constant_jacobian cfg)
    (base_isOkay cfg).

(** [set_anderson_beta(beta)], lines 89-93. *)
Definition set_anderson_beta (beta : R) (cfg : config R) : config R :=
  Config (num_last_vectors_used cfg) beta (anderson_is_on cfg) (constant_jacobian cfg)
    (base_isOkay cfg).

(** [use_Anderson_acceleration(to_set)], lines 95-99. *)
Definition use_Anderson_acceleration (to_set : bool) (cfg : config R) : config R :=
  Config (num_last_vectors_used cfg) (anderson_beta cfg) to_set (constant_jacobian cfg)
    (base_isOkay cfg).

(** [get_current_iteration_number()], lines 101-105: the value behind the
    [p_iteration] channel, which [solve] links to its local [it]. *)
Definition get_current_iteration_number (s : state R) : nat := it s.

(** Component [c] of entry [j] of a list of vectors. *)
Definition component (h : seq (seq R)) (j c : nat) : R := nth 0 (nth [::] h j) c.

End Accessors.

(** Events of [solve_linear_system]: the full assembly and the assembly of
    the residual alone. *)
Definition is_assemble (e : event) : bool :=
  if e is Assemble then true else false.
Definition is_assemble_residual (e : event) : bool :=
  if e is AssembleResidual then true else false.

(** Concrete data for the properties below. *)
Module Cases.

(** Reads of a history whose entries advance by the same step: entry [j]
    holds [j] in every component. *)
Definition ramp (j c : nat) : rat := j%:Q.

(** Answers that end a run with an exception: at the initial step the state
    [Error], in the loop the state [AboveMaxIterations]. *)
Definition failing : step_input rat := Demo.step true 7%:Q 8%:Q Error true.
Definition exhausted : step_input rat :=
  Demo.step true 7%:Q 8%:Q AboveMaxIterations true.

(** An object that an earlier [solve] has left behind. *)
Definition used : state rat :=
  final_state (Demo.outcome Demo.cfg3 Demo.first [:: Demo.second; Demo.converged]).

End Cases.

(** ** The calls and messages of a run, in order *)

(** What [solve_linear_system] logs: the reuse scheme chosen, the assembly
    made and the linear solve. *)
Definition linear_solve_events (reuse : bool) : seq event :=
  if reuse then [:: ReuseMatrixStructureCompletely; AssembleResidual; MatrixSolve]
  else [:: CreateStructureFromScratch; Assemble; MatrixSolve].

(** What [finalize_solving] logs. *)
Definition finalize_events : seq event := [:: Tick; InfoDuration; OnFinish].

(** What follows the report of a step: nothing but the hook [hook] when the
    state is [NotConverged] and the hook lets the run go on, otherwise the
    ways out of [handle_convergence_state_return_finished] and of the
    aborts. *)
Definition verdict_events (st : NonlinearConvergenceState) (hook : event)
    (go_on : bool) : seq event :=
  match st with
  | NotConverged => hook :: (if go_on then [::] else InfoAborted :: finalize_events)
  | Converged => finalize_events ++ [:: InfoDone]
  | _ => finalize_events
  end.

Section Events.

Variable R : Type.

(** One pass through the loop body. *)
Definition pass_events (reuse : bool) (e : step_input R) : seq event :=
  OnStepBegin ::
  if in_step_begin e then
    linear_solve_events reuse
    ++ StepInfo :: verdict_events (in_state e) OnStepEnd (in_step_end e)
  else InfoAborted :: finalize_events.

(** The initial step, with what [solve] adds when the step reports that
    the run is over. *)
Definition initial_events (reuse : bool) (e : step_input R) : seq event :=
  linear_solve_events reuse
  ++ StepInfo :: verdict_events (in_state e) OnInitialStepEnd (in_step_end e)
  ++ (if in_state e is Converged then InfoAborted :: finalize_events else [::]).

End Events.

Section Endings.

Variable R : comRingType.

(** The result of [solve] made of the result of its last pass: [solve]
    returns when the pass says so and lets its exception through. *)
Definition ending (r : res R bool) : res R unit :=
  match r with
  | Val _ s' => Val tt s'
  | Throw x s' => Throw unit x s'
  end.

End Endings.

(** The exception that [handle_convergence_state_return_finished] throws
    for a state, if any (lines 63-77). *)
Definition raised (st : NonlinearConvergenceState) : option exn :=
  match st with
  | AboveMaxIterations => Some (NonlinearException AboveMaxIterations)
  | Error => Some UnknownException
  | OtherState => Some UnknownConvergenceState
  | _ => None
  end.

(** ** Scratch memory of [calculate_anderson_coeffs] *)

(** The blocks that one call of [calculate_anderson_coeffs] allocates: the
    matrix (made by [new_matrix], a helper outside this file; one block, as
    one [delete []] is what releases it), the right-hand side and the
    permutation array. *)
Inductive scratch :=
  | ScratchMat             (* new_matrix<Scalar>(n, n) *)
  | ScratchRhs             (* new Scalar[n] *)
  | ScratchPerm.           (* new int[n] *)

Definition scratch_eqb (a b : scratch) : bool :=
  match a, b with
  | ScratchMat, ScratchMat => true
  | ScratchRhs, ScratchRhs => true
  | ScratchPerm, ScratchPerm => true
  | _, _ => false
  end.

(** [delete []] on a scratch block. *)
Fixpoint release_scratch (b : scratch) (m : seq scratch) : seq scratch :=
  if m is a :: m' then
    if scratch_eqb b a then m' else a :: release_scratch b m'
  else [::].

(** [calculate_anderson_coeffs()], lines 180-243, as far as it allocates
    and frees: nothing for a capacity of 2 (line 184), otherwise [mat] and
    [rhs] (lines 195-196) and [perm] (line 226), of which [mat] and [rhs]
    are freed (lines 241-242). *)
Definition calculate_anderson_coeffs_scratch (k : nat) (m : seq scratch) : seq scratch :=
  if k == 2%N then m
  else
    let m := ScratchMat :: m in
    let m := ScratchRhs :: m in
    let m := ScratchPerm :: m in
    let m := release_scratch ScratchMat m in
    release_scratch ScratchRhs m.

Section Scratch.

Variable R : comRingType.
Variable ludcmp : seq (seq R) -> nat -> seq (seq R) * seq nat * int.
Variable lubksb : seq (seq R) -> nat -> seq nat -> seq R -> seq R.
Variable uninit : R.
Variable cfg : config R.

(** [handle_previous_vectors], lines 145 and 164-167: the coefficients are
    computed when acceleration is on and the history is full after the
    push. *)
Definition handle_previous_vectors_scratch (s : state R) (m : seq scratch)
    : seq scratch :=
  if anderson_is_on cfg then
    if (capacity cfg <= vec_in_memory (push_vector cfg s))%N
    then calculate_anderson_coeffs_scratch (capacity cfg) m
    else m
  else m.

(** Lines 316-322 and 403-409: the linear solve and [calculate_error] come
    before [handle_previous_vectors]. *)
Definition step_work_scratch (new_sln_vector : seq R) (s : state R) (m : seq scratch)
    : seq scratch :=
  handle_previous_vectors_scratch
    (calculate_error new_sln_vector (solve_linear_system cfg s)) m.

(** One pass through the loop body, lines 392-409: the history is reached
    when [on_step_begin] lets the pass go on. *)
Definition loop_body_scratch (e : step_input R) (s : state R) (m : seq scratch)
    : seq scratch :=
  if ~~ in_step_begin e then m
  else step_work_scratch (in_new_sln e) (log OnStepBegin s) m.

(** The scratch blocks after the passes that the answers [steps] drive. *)
Definition run_steps_scratch (steps : seq (step_input R)) (s : state R)
    (m : seq scratch) : seq scratch :=
  (foldl
     (fun sm e =>
        (final_state (loop_body ludcmp lubksb cfg e sm.1),
         loop_body_scratch e sm.1 sm.2))
     (s, m) steps).2.

(** [solve] up to the entry of the loop, lines 361-383: the initial step is
    reached when [init_solving] does not throw. *)
Definition solve_entry_scratch (arg : option (seq R)) (dim : nat)
    (first : step_input R) (s : state R) (m : seq scratch) : seq scratch :=
  match solve_start uninit cfg arg dim s with
  | Val _ s' => step_work_scratch (in_new_sln first) s' m
  | Throw _ _ => m
  end.

(** [while (true) { ... }], lines 390-431: the loop goes round again after
    a pass that says so, and ends with the pass otherwise. *)
Fixpoint main_loop_scratch (script : seq (step_input R)) (s : state R)
    (m : seq scratch) : seq scratch :=
  if script is e :: script' then
    match loop_body ludcmp lubksb cfg e s with
    | Val false s' => main_loop_scratch script' s' (loop_body_scratch e s m)
    | _ => loop_body_scratch e s m
    end
  else m.

(** [solve(coeff_vec)], lines 358-432: the scratch blocks that a whole call
    leaves behind. *)
Definition solve_scratch (arg : option (seq R)) (dim : nat) (first : step_input R)
    (script : seq (step_input R)) (s : state R) (m : seq scratch) : seq scratch :=
  match solve_entry ludcmp lubksb uninit cfg arg dim first s with
  | Val false s' => main_loop_scratch script s' (solve_entry_scratch arg dim first s m)
  | _ => solve_entry_scratch arg dim first s m
  end.

End Scratch.

(** * Properties *)

(** ** Loops *)

Section LoopLemmas.

Lemma for_loopSr (S : Type) (n : nat) (body : nat -> S -> S) (s0 : S) :
  for_loop 0 n.+1 body s0 = body n (for_loop 0 n body s0).
Proof. by rewrite /for_loop !subn0 -addn1 iotaD foldl_cat /= add0n. Qed.

Lemma for_loop0 (S : Type) (lo : nat) (body : nat -> S -> S) (s0 : S) :
  for_loop lo lo body s0 = s0.
Proof. by rewrite /for_loop subnn. Qed.

Lemma foldl_addE (V : zmodType) (f : nat -> V) (l : seq nat) (a : V) :
  foldl (fun s i => s + f i) a l = a + \sum_(i <- l) f i.
Proof.
elim: l a => [|i l IH] a /=; first by rewrite big_nil addr0.
by rewrite IH big_cons addrA.
Qed.

Lemma for_loop_sum (V : zmodType) (lo hi : nat) (f : nat -> V) :
  for_loop lo hi (fun i acc => acc + f i) 0 = \sum_(lo <= i < hi) f i.
Proof. by rewrite /for_loop foldl_addE add0r. Qed.

Lemma set_nth_fill (T : Type) (x0 y : T) (f : nat -> T) (n : nat) (a : seq T) :
  set_nth x0 (mkseq f n ++ drop n a) n y = mkseq f n ++ y :: drop n.+1 a.
Proof.
rewrite set_nthE size_cat size_mkseq size_drop.
case: ltnP => [|].
  rewrite -{1}[n]addn0 ltn_add2l subn_gt0 => lt_n.
  rewrite take_size_cat ?size_mkseq // drop_cat size_mkseq ltnNge leqnSn.
  by rewrite [negb _]/= subSn // subnn drop_drop add1n.
move=> le_n; have {}le_n : (size a <= n)%N.
  by rewrite -subn_eq0 -leqn0 -(leq_add2l n) addn0.
rewrite (drop_oversize le_n) (drop_oversize (leqW le_n)) !cats0.
by move: le_n; rewrite -subn_eq0 => /eqP ->; rewrite addn0 subnn.
Qed.

Lemma for_loop_fill (T : Type) (x0 : T) (f : nat -> T) (n : nat) (a : seq T) :
  for_loop 0 n (fun i a => set_nth x0 a i (f i)) a = mkseq f n ++ drop n a.
Proof.
elim: n => [|n IH]; first by rewrite for_loop0 drop0.
by rewrite for_loopSr IH set_nth_fill mkseqS -cats1 -catA.
Qed.

Lemma for_loop_pair (S1 S2 : Type) (f1 : nat -> S1 -> S1) (f2 : nat -> S2 -> S2)
    (n : nat) (a : S1) (b : S2) :
  for_loop 0 n (fun i cs => let: (c, s) := cs in (f1 i c, f2 i s)) (a, b)
  = (for_loop 0 n f1 a, for_loop 0 n f2 b).
Proof. by elim: n => [|n IH]; rewrite ?for_loop0 // !for_loopSr IH. Qed.

Lemma nth_fill (T : Type) (x0 y : T) (f : nat -> T) (n i : nat) (rest : seq T) :
  nth x0 (mkseq f n ++ y :: rest) i =
  if (i < n)%N then f i else nth x0 (y :: rest) (i - n).
Proof. by rewrite nth_cat size_mkseq; case: ltnP => // lt_i; rewrite nth_mkseq. Qed.

End LoopLemmas.

Section KernelLemmas.

Variable R : comRingType.
Variable ludcmp : seq (seq R) -> nat -> seq (seq R) * seq nat * int.
Variable lubksb : seq (seq R) -> nat -> seq nat -> seq R -> seq R.
Variable pvec : nat -> nat -> R.
Variables (dim : nat).

Lemma rhs_entryE (n i : nat) :
  rhs_entry pvec dim n i =
  \sum_(0 <= c < dim) residual pvec n c * (residual pvec n c - residual pvec i c).
Proof. exact: for_loop_sum. Qed.

Lemma mat_entryE (n i j : nat) :
  mat_entry pvec dim n i j =
  \sum_(0 <= c < dim)
     (residual pvec n c - residual pvec i c) * (residual pvec n c - residual pvec j c).
Proof. exact: for_loop_sum. Qed.

Lemma mixed_entryE (k : nat) (beta : R) (c : seq R) (i : nat) :
  mixed_entry pvec k beta c i =
  \sum_(1 <= j < k)
     (nth 0 c j.-1 * pvec j i
      - (1 - beta) * nth 0 c j.-1 * (pvec j i - pvec j.-1 i)).
Proof. exact: for_loop_sum. Qed.

Lemma mix_vectorsE (k : nat) (beta : R) (c sln : seq R) :
  mix_vectors pvec dim k beta c sln
  = mkseq (mixed_entry pvec k beta c) dim ++ drop dim sln.
Proof. exact: for_loop_fill. Qed.

Lemma store_coeffsE (n : nat) (rhs c0 : seq R) :
  store_coeffs n rhs c0
  = mkseq (nth 0 rhs) n ++ (1 - \sum_(0 <= i < n) nth 0 rhs i) :: drop n.+1 c0.
Proof.
by rewrite /store_coeffs for_loop_pair for_loop_fill for_loop_sum set_nth_fill.
Qed.

Lemma sum_store_coeffs (n : nat) (rhs c0 : seq R) :
  \sum_(0 <= i < n.+1) nth 0 (store_coeffs n rhs c0) i = 1.
Proof.
rewrite store_coeffsE big_nat_recr //= nth_fill ltnn subnn /=.
rewrite (eq_big_nat _ _ (F2 := nth 0 rhs)) ?subrKC // => i /andP [_ lt_i].
by rewrite nth_fill lt_i.
Qed.

Lemma calculate_anderson_coeffs_sum (k : nat) (c0 : seq R) :
  (2 <= k)%N ->
  \sum_(0 <= i < k.-1) nth 0 (calculate_anderson_coeffs ludcmp lubksb pvec dim k c0) i = 1.
Proof.
case: k => [|[|[|k]]] // _; rewrite /calculate_anderson_coeffs /=.
  by rewrite big_nat1 nth_set_nth.
by rewrite subn2 /= sum_store_coeffs.
Qed.

Lemma calculate_anderson_coeffsE (k : nat) (c0 : seq R) :
  (2 <= k)%N ->
  let n := (k - 2)%N in
  let x := lu_solve ludcmp lubksb (setup_mat pvec dim n) n (setup_rhs pvec dim n) in
  let c := calculate_anderson_coeffs ludcmp lubksb pvec dim k c0 in
  (forall i, (i < n)%N -> nth 0 c i = nth 0 x i)
  /\ nth 0 c n = 1 - \sum_(0 <= i < n) nth 0 x i.
Proof.
case: k => [|[|[|k]]] // _; rewrite /calculate_anderson_coeffs /=.
  by rewrite subnn big_geq // subr0 nth_set_nth /=; split.
rewrite subn2 /= store_coeffsE; split=> [i lt_i|]; rewrite nth_fill ?lt_i //.
by rewrite ltnn subnn.
Qed.

Lemma setup_matE (n i j : nat) :
  (i < n)%N -> (j < n)%N ->
  nth 0 (nth [::] (setup_mat pvec dim n) i) j = spec_matrix pvec dim n i j.
Proof. by move=> lt_i lt_j; rewrite /setup_mat !nth_mkseq // mat_entryE. Qed.

Lemma setup_rhsE (n i : nat) :
  (i < n)%N -> nth 0 (setup_rhs pvec dim n) i = spec_rhs pvec dim n i.
Proof. by move=> lt_i; rewrite /setup_rhs nth_mkseq // rhs_entryE. Qed.

Lemma solves_systemP (mat : seq (seq R)) (n : nat) (x rhs : seq R) :
  reflect
    (forall i, (i < n)%N ->
       \sum_(0 <= j < n) nth 0 (nth [::] mat i) j * nth 0 x j = nth 0 rhs i)
    (solves_system mat n x rhs).
Proof.
apply: (iffP allP) => [sol i lt_i|sol i].
  by rewrite -for_loop_sum; apply/eqP/sol; rewrite mem_iota.
by rewrite mem_iota => /andP [_ lt_i]; rewrite for_loop_sum; apply/eqP/sol.
Qed.

End KernelLemmas.

(** ** The vector history *)

Section ListLemmas.

Variable T : Type.
Implicit Types (s dst src : seq T).

Lemma memcpy_full dst src (n : nat) :
  size src = n -> size dst = n -> memcpy dst src n = src.
Proof.
move=> sz_src sz_dst; rewrite /memcpy -sz_src take_size.
by rewrite drop_oversize ?cats0 // sz_src sz_dst.
Qed.

Lemma size_memcpy dst src (n : nat) :
  (n <= size src)%N -> (n <= size dst)%N -> size (memcpy dst src n) = size dst.
Proof.
move=> le_src le_dst; rewrite /memcpy size_cat size_takel // size_drop.
by rewrite subnKC.
Qed.

(** The pointer rotation of lines 154-159: after the shifting loop and the
    store of the saved pointer, the array is rotated by one place. *)
Lemma shift_loop_nth (pv : seq nat) (m i : nat) :
  (m < size pv)%N ->
  let pv' := for_loop 0 m (fun i pv => set_nth 0%N pv i (nth 0%N pv i.+1)) pv in
  size pv' = size pv /\
  nth 0%N pv' i = if (i < m)%N then nth 0%N pv i.+1 else nth 0%N pv i.
Proof.
elim: m i => [|m IH] i lt_m /=; first by rewrite for_loop0.
rewrite for_loopSr; set L := for_loop _ _ _ _.
have [szL nthL] : size L = size pv /\ forall j,
    nth 0%N L j = if (j < m)%N then nth 0%N pv j.+1 else nth 0%N pv j.
  by split=> [|j]; [case: (IH 0%N (ltnW lt_m)) | case: (IH j (ltnW lt_m))].
split; first by rewrite size_set_nth szL; apply/maxn_idPr/ltnW.
rewrite nth_set_nth /= nthL ltnNge leqnSn /= ltnS leq_eqVlt.
by case: eqP => [->|_] //=; rewrite nthL.
Qed.

Lemma rotate_pointers (pv : seq nat) :
  (0 < size pv)%N ->
  set_nth 0%N
    (for_loop 0 (size pv).-1 (fun i pv => set_nth 0%N pv i (nth 0%N pv i.+1)) pv)
    (size pv).-1 (nth 0%N pv 0)
  = rot 1 pv.
Proof.
move=> pv_gt0.
have lt_m : ((size pv).-1 < size pv)%N by rewrite prednK.
have sz_loop := proj1 (shift_loop_nth 0 lt_m).
apply: (@eq_from_nth _ 0%N) => [|i].
  by rewrite size_set_nth sz_loop size_rot; apply/maxn_idPr; rewrite prednK.
rewrite size_set_nth sz_loop (maxn_idPr _) ?prednK // => lt_i.
rewrite nth_set_nth /= (proj2 (shift_loop_nth i lt_m)).
rewrite /rot nth_cat size_drop subn1 nth_drop add1n.
case: eqP => [->|ne_i]; first by rewrite ltnn subnn; case: (pv) pv_gt0.
by rewrite ltn_neqAle -ltnS prednK // lt_i andbT; move/eqP: ne_i => ->.
Qed.

Lemma take_set_nthS (x0 : T) s (n : nat) (y : T) :
  (n < size s)%N -> take n.+1 (set_nth x0 s n y) = rcons (take n s) y.
Proof.
move=> lt_n; rewrite set_nthE lt_n take_cat (size_takel (ltnW lt_n)).
by rewrite ltnNge leqnSn /= subSn // subnn /= take0 cats1.
Qed.

Lemma rot1_set_nth0 (x0 : T) s (y : T) :
  (0 < size s)%N -> rot 1 (set_nth x0 s 0 y) = rcons (behead s) y.
Proof. by case: s => [|x s] //= _; rewrite /rot /= drop0 take0 cats1. Qed.

End ListLemmas.

Lemma all_set_nth (T : Type) (P : pred T) (x0 : T) (s : seq T) (n : nat) (y : T) :
  (n < size s)%N -> all P s -> P y -> all P (set_nth x0 s n y).
Proof.
elim: s n => [|x s IH] [|n] //= lt_n /andP [Px Ps] Py; first by rewrite Py.
by rewrite Px IH.
Qed.


Section HistoryLemmas.

Variable R : comRingType.
Variable ludcmp : seq (seq R) -> nat -> seq (seq R) * seq nat * int.
Variable lubksb : seq (seq R) -> nat -> seq nat -> seq R -> seq R.
Variable uninit : R.
Variable cfg : config R.

Implicit Type s : state R.

Local Notation k := (capacity cfg).
Local Notation push := (push_vector cfg).
Local Notation hpv := (handle_previous_vectors ludcmp lubksb cfg).
Local Notation wf := (wf_history cfg).

Lemma wf_size_rows s : wf s -> size (rows s) = k.
Proof. by case/and5P => /eqP. Qed.

Lemma wf_size_pv s : wf s -> size (previous_vectors s) = k.
Proof. by case/and5P => _ /perm_size; rewrite size_iota. Qed.

Lemma wf_uniq_pv s : wf s -> uniq (previous_vectors s).
Proof. by case/and5P => _ /perm_uniq; rewrite iota_uniq. Qed.

Lemma wf_pv_lt s (j : nat) :
  wf s -> (j < k)%N -> (nth 0%N (previous_vectors s) j < k)%N.
Proof.
move=> wf_s lt_j; case/and5P: (wf_s) => _ /perm_mem eq_mem _ _ _.
have: nth 0%N (previous_vectors s) j \in previous_vectors s.
  by rewrite mem_nth // wf_size_pv.
by rewrite eq_mem mem_iota.
Qed.

Lemma wf_size_row s (p : nat) :
  wf s -> (p < k)%N -> size (nth [::] (rows s) p) = dimension s.
Proof.
move=> wf_s lt_p; case/and5P: (wf_s) => _ _ /all_nthP sz_rows _ _.
by apply/eqP/sz_rows; rewrite wf_size_rows.
Qed.

Lemma wf_size_sln s : wf s -> size (sln_vector s) = dimension s.
Proof. by case/and5P => _ _ _ /eqP. Qed.

Lemma wf_vec_in_memory s : wf s -> (vec_in_memory s <= k)%N.
Proof. by case/and5P. Qed.

Lemma size_history s : size (history s) = size (previous_vectors s).
Proof. by rewrite /history size_map. Qed.

(** A store through the row pointer of slot [j] changes entry [j] of the
    history and no other: the row pointers are pairwise distinct. *)
Lemma store_slot s (j : nat) (v : seq R) :
  wf s -> (j < k)%N ->
  [seq nth [::] (set_nth [::] (rows s) (nth 0%N (previous_vectors s) j) v) p
     | p <- previous_vectors s]
  = set_nth [::] (history s) j v.
Proof.
move=> wf_s lt_j.
have sz_pv := wf_size_pv wf_s.
apply: (@eq_from_nth _ [::]) => [|i].
  by rewrite size_map size_set_nth size_history sz_pv; apply/esym/maxn_idPr.
rewrite size_map sz_pv => lt_i.
rewrite (nth_map 0%N) ?sz_pv // !nth_set_nth /= nth_uniq ?sz_pv ?wf_uniq_pv //.
by case: eqP => // _; rewrite /history (nth_map 0%N) ?sz_pv.
Qed.

Lemma push_not_full s :
  wf s -> (vec_in_memory s < k)%N ->
  [/\ wf (push s),
      history (push s) = set_nth [::] (history s) (vec_in_memory s) (sln_vector s),
      vec_in_memory (push s) = (vec_in_memory s).+1
    & stored (push s) = rcons (stored s) (sln_vector s)].
Proof.
move=> wf_s lt_v; rewrite /push_vector lt_v.
set p := nth 0%N _ _; have lt_p : (p < k)%N by apply: wf_pv_lt.
have cpy : memcpy (nth [::] (rows s) p) (sln_vector s) (dimension s) = sln_vector s.
  by rewrite memcpy_full ?wf_size_sln ?wf_size_row.
have hist : history (set_vec_in_memory (vec_in_memory s).+1
              (set_rows (set_nth [::] (rows s) p (sln_vector s)) s))
            = set_nth [::] (history s) (vec_in_memory s) (sln_vector s).
  by rewrite {1}/history /= store_slot.
rewrite cpy; split=> //.
  case/and5P: (wf_s) => sz_rows perm_pv all_rows sz_sln _.
  apply/and5P; split=> //=.
  - by rewrite size_set_nth (eqP sz_rows); apply/eqP/maxn_idPr.
  - by apply: all_set_nth => //; rewrite (eqP sz_rows).
by rewrite /stored hist /= take_set_nthS // size_history wf_size_pv.
Qed.

Lemma push_full s :
  wf s -> (0 < k)%N -> (k <= vec_in_memory s)%N ->
  [/\ wf (push s),
      history (push s) = rcons (behead (history s)) (sln_vector s),
      vec_in_memory (push s) = vec_in_memory s
    & stored (push s) = rcons (behead (stored s)) (sln_vector s)].
Proof.
move=> wf_s k_gt0 le_v; rewrite /push_vector ltnNge le_v /=.
have sz_pv := wf_size_pv wf_s.
have eq_v : vec_in_memory s = k.
  by apply/eqP; rewrite eqn_leq le_v wf_vec_in_memory.
have -> : set_nth 0%N
          (for_loop 0 k.-1 (fun i pv => set_nth 0%N pv i (nth 0%N pv i.+1))
             (previous_vectors s))
          k.-1 (nth 0%N (previous_vectors s) 0)
        = rot 1 (previous_vectors s).
  by rewrite -sz_pv rotate_pointers // sz_pv.
set p := nth 0%N _ 0; have lt_p : (p < k)%N by apply: wf_pv_lt.
have cpy : memcpy (nth [::] (rows s) p) (sln_vector s) (dimension s) = sln_vector s.
  by rewrite memcpy_full ?wf_size_sln ?wf_size_row.
have hist : history (set_rows (set_nth [::] (rows s) p (sln_vector s))
                       (set_previous_vectors (rot 1 (previous_vectors s)) s))
            = rcons (behead (history s)) (sln_vector s).
  rewrite {1}/history /= map_rot store_slot // rot1_set_nth0 //.
  by rewrite size_history sz_pv.
rewrite cpy; split=> //.
  case/and5P: (wf_s) => sz_rows perm_pv all_rows sz_sln le_vk.
  apply/and5P; split=> //=.
  - by rewrite size_set_nth (eqP sz_rows); apply/eqP/maxn_idPr.
  - by rewrite perm_rot.
  - by apply: all_set_nth => //; rewrite (eqP sz_rows).
rewrite /stored hist /= eq_v take_oversize.
  by rewrite size_rcons size_behead size_history sz_pv prednK.
by rewrite take_oversize // size_history sz_pv.
Qed.


Lemma read_pv_history s (j c : nat) :
  (j < size (previous_vectors s))%N ->
  read_pv s j c = nth 0 (nth [::] (history s) j) c.
Proof. by move=> lt_j; rewrite /read_pv /history (nth_map 0%N). Qed.

Lemma size_stored s : wf s -> size (stored s) = vec_in_memory s.
Proof.
move=> wf_s; rewrite /stored size_takel // size_history wf_size_pv //.
exact: wf_vec_in_memory.
Qed.

Lemma outside_historyP s s' :
  outside_history s' = outside_history s ->
  [/\ dimension s' = dimension s, coeff_vec s' = coeff_vec s,
      delete_coeff_vec s' = delete_coeff_vec s
    & jacobian_reusable s' = jacobian_reusable s]
  /\ [/\ it s' = it s, num_iters s' = num_iters s, heap s' = heap s
       & trace s' = trace s].
Proof. by rewrite /outside_history => -[-> -> -> -> -> -> -> ->]. Qed.

Lemma push_outside s : outside_history (push s) = outside_history s.
Proof. by rewrite /push_vector; case: ifP. Qed.

Lemma mix_outside s :
  outside_history (mix_if_full ludcmp lubksb cfg s) = outside_history s.
Proof. by rewrite /mix_if_full; case: ifP. Qed.

Lemma hpv_outside s : outside_history (hpv s) = outside_history s.
Proof.
by rewrite /handle_previous_vectors; case: ifP => // _; rewrite mix_outside push_outside.
Qed.

Lemma mix_history s :
  let s' := mix_if_full ludcmp lubksb cfg s in
  [/\ previous_vectors s' = previous_vectors s, rows s' = rows s
     & vec_in_memory s' = vec_in_memory s].
Proof. by rewrite /mix_if_full; case: ifP. Qed.

Lemma mix_wf s : wf s -> wf (mix_if_full ludcmp lubksb cfg s).
Proof.
move=> wf_s; case/and5P: (wf_s) => sz_rows perm_pv all_rows sz_sln le_v.
rewrite /mix_if_full; case: ifP => // _.
apply/and5P; split=> //=.
rewrite mix_vectorsE size_cat size_mkseq size_drop (eqP sz_sln).
by rewrite subnn addn0.
Qed.

Lemma mix_not_full s :
  (vec_in_memory s < k)%N -> mix_if_full ludcmp lubksb cfg s = s.
Proof. by move=> lt_v; rewrite /mix_if_full leqNgt lt_v. Qed.

Lemma calculate_error_full s (v : seq R) :
  size (sln_vector s) = dimension s -> size v = dimension s ->
  calculate_error v s = set_sln_vector v s.
Proof. by move=> sz_s sz_v; rewrite /calculate_error memcpy_full. Qed.

Lemma wf_set_sln s (v : seq R) :
  wf s -> size v = dimension s -> wf (set_sln_vector v s).
Proof.
case/and5P => sz_rows perm_pv all_rows sz_sln le_v sz_v.
by apply/and5P; split=> //=; rewrite sz_v.
Qed.

(** [accept_iterate] reads and writes the history part of the object only. *)
Lemma accept_view_congr (s1 s2 : state R) (x : seq R) :
  anderson_view s1 = anderson_view s2 ->
  anderson_view (accept_iterate ludcmp lubksb cfg x s1)
  = anderson_view (accept_iterate ludcmp lubksb cfg x s2).
Proof.
case: s1 => d1 sl1 cv1 dc1 jr1 pv1 rw1 ac1 it1 vm1 ni1 hp1 tr1.
case: s2 => d2 sl2 cv2 dc2 jr2 pv2 rw2 ac2 it2 vm2 ni2 hp2 tr2.
rewrite {1 2}/anderson_view /= => -[-> -> -> -> -> ->].
rewrite /accept_iterate /handle_previous_vectors; case: ifP => // _.
rewrite /calculate_error /push_vector /=; case: ifP => _;
  by rewrite /mix_if_full /=; case: ifP.
Qed.

Section Accept.

Hypothesis on : anderson_is_on cfg.
Hypothesis k_gt0 : (0 < k)%N.

Local Notation accept := (accept_iterate ludcmp lubksb cfg).

Lemma accept_spec s (v : seq R) :
  wf s -> size v = dimension s ->
  [/\ wf (accept v s),
      stored (accept v s)
      = (if (vec_in_memory s < k)%N then rcons (stored s) v
         else rcons (behead (stored s)) v),
      vec_in_memory (accept v s)
      = (if (vec_in_memory s < k)%N then (vec_in_memory s).+1 else vec_in_memory s)
    & dimension (accept v s) = dimension s].
Proof.
move=> wf_s sz_v.
rewrite /accept_iterate calculate_error_full ?wf_size_sln //.
have wf_v := wf_set_sln wf_s sz_v.
rewrite /handle_previous_vectors on.
have dim_eq : dimension (mix_if_full ludcmp lubksb cfg (push (set_sln_vector v s)))
              = dimension s.
  have [[-> _ _ _] _] := outside_historyP (mix_outside (push (set_sln_vector v s))).
  by have [[-> _ _ _] _] := outside_historyP (push_outside (set_sln_vector v s)).
have [pv_eq rows_eq vim_eq] := mix_history (push (set_sln_vector v s)).
have st_eq : stored (mix_if_full ludcmp lubksb cfg (push (set_sln_vector v s)))
             = stored (push (set_sln_vector v s)).
  by rewrite /stored /history pv_eq rows_eq vim_eq.
rewrite st_eq vim_eq; case: ifP => [lt_v|ge_v].
  have [wf_p _ vim_p st_p] := @push_not_full (set_sln_vector v s) wf_v lt_v.
  by split=> //; apply: mix_wf.
have le_v : (k <= vec_in_memory (set_sln_vector v s))%N by rewrite leqNgt /= ge_v.
have [wf_p _ vim_p st_p] := push_full wf_v k_gt0 le_v.
by split=> //; apply: mix_wf.
Qed.

Lemma lastn_step (T : Type) (l : seq T) (v : T) :
  (if (size (lastn k l) < k)%N then rcons (lastn k l) v
   else rcons (behead (lastn k l)) v)
  = lastn k (rcons l v).
Proof.
rewrite /lastn size_drop size_rcons.
case: (ltnP (size l) k) => [lt_l|le_l].
  have -> : (size l - k = 0)%N by apply/eqP; rewrite subn_eq0 ltnW.
  have -> : ((size l).+1 - k = 0)%N by apply/eqP; rewrite subn_eq0.
  by rewrite subn0 lt_l !drop0.
rewrite subKn // ltnn subSn // -drop1 drop_drop add1n -!cats1 drop_cat.
case: ltnP => // le_d.
have -> : (size l - k).+1 = size l.
  by apply/eqP; rewrite eqn_leq le_d andbT ltn_subrL k_gt0 (leq_trans k_gt0).
by rewrite subnn drop_size.
Qed.


Lemma accept_seq s (vs : seq (seq R)) :
  wf s -> all (fun v => size v == dimension s) vs ->
  let s' := foldl (fun s v => accept v s) s vs in
  [/\ wf s', dimension s' = dimension s
     & stored s' = lastn k (stored s ++ vs)].
Proof.
move=> wf_s; elim/last_ind: vs => [|vs v IH] /=.
  move=> _; split=> //; rewrite cats0 /lastn.
  have -> : (size (stored s) - k = 0)%N.
    by apply/eqP; rewrite subn_eq0 size_stored // wf_vec_in_memory.
  by rewrite drop0.
rewrite all_rcons => /andP [/eqP sz_v all_vs].
rewrite -cats1 foldl_cat /=.
have [wf_s' dim_s' st_s'] := IH all_vs.
have [wf_a st_a vim_a dim_a] := accept_spec wf_s' (etrans sz_v (esym dim_s')).
split=> //; first by rewrite dim_a.
by rewrite st_a -size_stored // st_s' lastn_step catA cats1.
Qed.

End Accept.

End HistoryLemmas.

(** ** One call of [handle_previous_vectors] on a full history *)

Section AndersonStep.

Variable R : comRingType.
Variable ludcmp : seq (seq R) -> nat -> seq (seq R) * seq nat * int.
Variable lubksb : seq (seq R) -> nat -> seq nat -> seq R -> seq R.
Variable cfg : config R.

Implicit Type s : state R.

Local Notation k := (capacity cfg).
Local Notation hpv := (handle_previous_vectors ludcmp lubksb cfg).

(** [handle_previous_vectors] once the history is full. *)
Lemma hpv_full s :
  anderson_is_on cfg -> (k <= vec_in_memory (push_vector cfg s))%N ->
  let s1 := push_vector cfg s in
  [/\ anderson_coeffs (hpv s)
      = calculate_anderson_coeffs ludcmp lubksb (read_pv s1) (dimension s) k
          (anderson_coeffs s1),
      sln_vector (hpv s)
      = mix_vectors (read_pv s1) (dimension s) k (anderson_beta cfg)
          (anderson_coeffs (hpv s)) (sln_vector s),
      read_pv (hpv s) = read_pv s1
    & dimension (hpv s) = dimension s].
Proof.
move=> on full; rewrite /handle_previous_vectors on /mix_if_full full /=.
have [[dim_eq _ _ _] _] := outside_historyP (push_outside cfg s).
have sln_eq : sln_vector (push_vector cfg s) = sln_vector s.
  by rewrite /push_vector; case: ifP.
by rewrite dim_eq sln_eq.
Qed.

Lemma hpv_coeffs s :
  anderson_is_on cfg -> (2 <= k)%N -> (k <= vec_in_memory (push_vector cfg s))%N ->
  let s' := hpv s in
  let n := (k - 2)%N in
  let x :=
    lu_solve ludcmp lubksb (setup_mat (read_pv s') (dimension s') n) n
      (setup_rhs (read_pv s') (dimension s') n) in
  [/\ forall i, (i < n)%N -> nth 0 (anderson_coeffs s') i = nth 0 x i,
      nth 0 (anderson_coeffs s') n = 1 - \sum_(0 <= i < n) nth 0 x i
    & \sum_(0 <= i < k.-1) nth 0 (anderson_coeffs s') i = 1].
Proof.
move=> on k_ge2 full /=.
have [-> _ -> ->] := hpv_full on full.
have [coeffs_x coeff_last] :=
  calculate_anderson_coeffsE ludcmp lubksb (read_pv (push_vector cfg s))
    (dimension s) (anderson_coeffs (push_vector cfg s)) k_ge2.
by split=> //; apply: calculate_anderson_coeffs_sum.
Qed.

Lemma hpv_mixed s (i : nat) :
  anderson_is_on cfg -> (k <= vec_in_memory (push_vector cfg s))%N ->
  (i < dimension s)%N ->
  let s' := hpv s in
  nth 0 (sln_vector s') i
  = \sum_(1 <= j < k)
       (nth 0 (anderson_coeffs s') j.-1 * read_pv s' j i
        - (1 - anderson_beta cfg) * nth 0 (anderson_coeffs s') j.-1
          * (read_pv s' j i - read_pv s' j.-1 i)).
Proof.
move=> on full lt_i /=.
have [_ -> -> _] := hpv_full on full.
by rewrite mix_vectorsE nth_cat size_mkseq lt_i nth_mkseq // mixed_entryE.
Qed.

End AndersonStep.


(** ** The methods, one by one *)

Section MethodLemmas.

Variable R : comRingType.
Variable ludcmp : seq (seq R) -> nat -> seq (seq R) * seq nat * int.
Variable lubksb : seq (seq R) -> nat -> seq nat -> seq R -> seq R.
Variable uninit : R.
Variable cfg : config R.

Implicit Type s : state R.

Local Notation k := (capacity cfg).
Local Notation hpv := (handle_previous_vectors ludcmp lubksb cfg).
Local Notation wf := (wf_history cfg).

Lemma mkseq_const (T : Type) (c : T) (n : nat) : mkseq (fun=> c) n = nseq n c.
Proof.
apply: (@eq_from_nth _ c) => [|i]; first by rewrite size_mkseq size_nseq.
by rewrite size_mkseq => lt_i; rewrite nth_mkseq // nth_nseq lt_i.
Qed.

Lemma init_rows_loop (m : nat) s :
  for_loop 0 m
    (fun i s => alloc (BlkRow i)
                  (set_rows (set_nth [::] (rows s) i (nseq (dimension s) uninit)) s)) s
  = set_heap (rev [seq BlkRow i | i <- iota 0 m] ++ heap s)
      (set_rows (nseq m (nseq (dimension s) uninit) ++ drop m (rows s)) s).
Proof.
elim: m => [|m IH]; first by rewrite for_loop0 /= drop0; case: s.
have -> : rev [seq BlkRow i | i <- iota 0 m.+1]
          = BlkRow m :: rev [seq BlkRow i | i <- iota 0 m].
  by rewrite -addn1 iotaD map_cat rev_cat /= add0n.
have -> : nseq m.+1 (nseq (dimension s) uninit) ++ drop m.+1 (rows s)
          = set_nth [::] (nseq m (nseq (dimension s) uninit) ++ drop m (rows s)) m
              (nseq (dimension s) uninit).
  by rewrite -!mkseq_const set_nth_fill mkseqS -cats1 -catA.
by rewrite for_loopSr IH.
Qed.

(** What [init_anderson] leaves behind when acceleration is on. *)
Lemma init_anderson_on s :
  anderson_is_on cfg -> (0 < k)%N -> size (sln_vector s) = dimension s ->
  let s' := init_anderson uninit cfg s in
  [/\ previous_vectors s' = iota 0 k,
      rows s' = sln_vector s :: nseq k.-1 (nseq (dimension s) uninit),
      anderson_coeffs s' = nseq k.-1 uninit,
      sln_vector s' = sln_vector s
    & heap s'
      = BlkCoeffs :: rev [seq BlkRow i | i <- iota 0 k] ++ BlkRowTable :: heap s].
Proof.
move=> on k_gt0 sz_sln; rewrite /init_anderson on init_rows_loop /= cats0.
case: (capacity cfg) k_gt0 => // n _ /=.
by rewrite memcpy_full // size_nseq.
Qed.

Lemma init_anderson_frame s :
  let s' := init_anderson uninit cfg s in
  [/\ dimension s' = dimension s, sln_vector s' = sln_vector s,
      coeff_vec s' = coeff_vec s, delete_coeff_vec s' = delete_coeff_vec s
    & trace s' = trace s].
Proof.
by rewrite /init_anderson; case: ifP => // _; rewrite init_rows_loop.
Qed.

Lemma init_anderson_off s : anderson_is_on cfg = false -> init_anderson uninit cfg s = s.
Proof. by rewrite /init_anderson => ->. Qed.


(** *** The configuration check *)

Lemma capacity_ge2 :
  2 <= num_last_vectors_used cfg ->
  (num_last_vectors_used cfg <= 1) = false /\ (2 <= k)%N.
Proof. by rewrite /capacity; case: (num_last_vectors_used cfg) => [[|[|n]]|n]. Qed.

Lemma isOkay_ge2 s :
  2 <= num_last_vectors_used cfg -> isOkay cfg s = Val (base_isOkay cfg) s.
Proof. by rewrite /isOkay => /capacity_ge2 [-> _]. Qed.

Lemma check_ok s :
  2 <= num_last_vectors_used cfg -> base_isOkay cfg -> check cfg s = Val tt s.
Proof. by move=> ge2 ok; rewrite /check /bind isOkay_ge2 // ok. Qed.

Lemma check_bad s :
  num_last_vectors_used cfg <= 1 -> check cfg s = Throw unit BadNumLastVectors s.
Proof. by move=> le1; rewrite /check /bind /isOkay le1. Qed.

(** *** Frames: what each method leaves alone *)

Lemma anderson_viewP s s' :
  anderson_view s' = anderson_view s ->
  [/\ dimension s' = dimension s, sln_vector s' = sln_vector s,
      previous_vectors s' = previous_vectors s, rows s' = rows s
    & anderson_coeffs s' = anderson_coeffs s]
  /\ [/\ vec_in_memory s' = vec_in_memory s, history s' = history s,
        stored s' = stored s & wf s' = wf s].
Proof.
rewrite /anderson_view /stored /history /wf_history.
by move=> [-> -> -> -> -> ->].
Qed.

Lemma sls_view s : anderson_view (solve_linear_system cfg s) = anderson_view s.
Proof. by rewrite /solve_linear_system; case: ifP. Qed.

Lemma sls_heap s : heap (solve_linear_system cfg s) = heap s.
Proof. by rewrite /solve_linear_system; case: ifP. Qed.

Lemma sls_delete s :
  delete_coeff_vec (solve_linear_system cfg s) = delete_coeff_vec s.
Proof. by rewrite /solve_linear_system; case: ifP. Qed.

Lemma finish_count_log (e : event) s :
  finish_count (log e s) = (finish_count s + is_on_finish e)%N.
Proof. by rewrite /finish_count /= -cats1 count_cat /= addn0. Qed.

Lemma sls_finish_count s :
  finish_count (solve_linear_system cfg s) = finish_count s.
Proof.
rewrite /solve_linear_system /finish_count; case: ifP => _ /=;
  by rewrite -!cats1 !count_cat /= !addn0.
Qed.

Lemma sls_matrix_solve s :
  count is_matrix_solve (trace (solve_linear_system cfg s))
  = (count is_matrix_solve (trace s)).+1.
Proof.
rewrite /solve_linear_system; case: ifP => _ /=;
  by rewrite -!cats1 !count_cat /= !addn0 addn1.
Qed.

Lemma hpv_finish_count s : finish_count (hpv s) = finish_count s.
Proof. by rewrite /finish_count; have [_ [_ _ _ ->]] := outside_historyP (hpv_outside ludcmp lubksb cfg s). Qed.

Lemma hpv_heap s : heap (hpv s) = heap s.
Proof. by have [_ [_ _ -> _]] := outside_historyP (hpv_outside ludcmp lubksb cfg s). Qed.

Lemma hpv_delete s : delete_coeff_vec (hpv s) = delete_coeff_vec s.
Proof. by have [[_ _ -> _] _] := outside_historyP (hpv_outside ludcmp lubksb cfg s). Qed.

Lemma finalize_view s : anderson_view (finalize_solving s) = anderson_view s.
Proof. by rewrite /finalize_solving /deinit_solving /=; case: ifP. Qed.

Lemma finalize_finish_count s :
  finish_count (finalize_solving s) = (finish_count s).+1.
Proof.
rewrite /finalize_solving /deinit_solving /=; case: ifP => _;
  by rewrite /finish_count /= -!cats1 !count_cat /= !addn0 addn1.
Qed.

Lemma finalize_heap s :
  heap (finalize_solving s)
  = if delete_coeff_vec s then release BlkCoeffVec (heap s) else heap s.
Proof. by rewrite /finalize_solving /deinit_solving /=; case: ifP. Qed.

Lemma finalize_delete s : delete_coeff_vec (finalize_solving s) = false.
Proof. by rewrite /finalize_solving /deinit_solving /=; case: ifP. Qed.

Lemma finalize_num_iters s : num_iters (finalize_solving s) = it s.
Proof. by rewrite /finalize_solving /deinit_solving /=; case: ifP. Qed.

(** *** The heap *)

Lemma live_release (b b' : block) (h : seq block) :
  block_eqb b b' = false -> is_live b (release b' h) = is_live b h.
Proof.
move=> ne_b.
have other a : block_eqb b' a -> block_eqb b a = false.
  by case: b b' a ne_b => [|||i|] [|||j|] [|||l|] //= ne_ij /eqP <-.
elim: h => [|a h IH] //=.
by case: ifP => [/other ->|_] /=; last rewrite IH.
Qed.

Lemma live_release_anderson (b b' : block) (h : seq block) :
  anderson_block b -> ~~ anderson_block b' ->
  is_live b (release b' h) = is_live b h.
Proof. by move=> ab nab'; apply: live_release; case: b b' ab nab' => [|||i|] [|||j|]. Qed.

Lemma finalize_live (b : block) s :
  anderson_block b ->
  is_live b (heap (finalize_solving s)) = is_live b (heap s).
Proof.
by move=> ab; rewrite finalize_heap; case: ifP => // _; rewrite live_release_anderson.
Qed.

End MethodLemmas.

(** ** Runs of [solve] *)

Section RunLemmas.

Variable R : comRingType.
Variable ludcmp : seq (seq R) -> nat -> seq (seq R) * seq nat * int.
Variable lubksb : seq (seq R) -> nat -> seq nat -> seq R -> seq R.
Variable uninit : R.
Variable cfg : config R.

Implicit Type s : state R.
Implicit Type e : step_input R.

Local Notation k := (capacity cfg).
Local Notation hpv := (handle_previous_vectors ludcmp lubksb cfg).
Local Notation wf := (wf_history cfg).
Local Notation body := (loop_body ludcmp lubksb cfg).
Local Notation initial := (do_initial_step_return_finished ludcmp lubksb cfg).
Local Notation work := (step_work ludcmp lubksb cfg).
Local Notation start := (start_state uninit cfg).
Local Notation entry := (solve_entry ludcmp lubksb uninit cfg).
Local Notation run := (run_steps ludcmp lubksb cfg).

Hypothesis num_ok : 2 <= num_last_vectors_used cfg.
Hypothesis base_ok : base_isOkay cfg.

Lemma solve_start_ok arg dim s :
  solve_start uninit cfg arg dim s = Val tt (start arg dim s).
Proof. by rewrite /solve_start /init_solving /bind check_ok. Qed.

(** *** The initial step *)

Lemma initial_not_converged e s :
  not_converged (in_state e) ->
  initial e s
  = Val (~~ in_step_end e)
      (log OnInitialStepEnd (renew_coeff_vec (work (in_new_sln e) s))).
Proof. by case: e => b x [] [] //= _. Qed.

Lemma initial_converged e s :
  in_state e = Converged ->
  initial e s
  = Val true (log InfoDone (finalize_solving (renew_coeff_vec (work (in_new_sln e) s)))).
Proof. by case: e => b x st b' /= ->. Qed.

Lemma initial_above_max e s :
  in_state e = AboveMaxIterations ->
  initial e s
  = Throw bool (NonlinearException AboveMaxIterations)
      (finalize_solving (renew_coeff_vec (work (in_new_sln e) s))).
Proof. by case: e => b x st b' /= ->. Qed.

Lemma initial_error e s :
  in_state e = Error ->
  initial e s
  = Throw bool UnknownException
      (finalize_solving (renew_coeff_vec (work (in_new_sln e) s))).
Proof. by case: e => b x st b' /= ->. Qed.

(** *** [solve] up to the loop *)

Lemma entry_continue arg dim e s :
  initial_continuing e ->
  entry arg dim e s
  = Val false
      (next_iteration
         (log OnInitialStepEnd
            (renew_coeff_vec (work (in_new_sln e) (start arg dim s))))).
Proof.
case/andP => nc hook_ok.
rewrite /solve_entry /init_solving /bind check_ok //=.
by rewrite initial_not_converged // hook_ok.
Qed.

Lemma entry_converged arg dim e s :
  in_state e = Converged ->
  entry arg dim e s
  = Val true
      (finalize_solving
         (log InfoAborted
            (log InfoDone
               (finalize_solving
                  (renew_coeff_vec (work (in_new_sln e) (start arg dim s))))))).
Proof.
move=> conv; rewrite /solve_entry /init_solving /bind check_ok //=.
by rewrite initial_converged.
Qed.


(** *** One pass through the loop body *)

Lemma body_continue e s :
  continuing e ->
  body e s
  = Val false
      (renew_coeff_vec
         (next_iteration
            (log OnStepEnd (work (in_new_sln e) (log OnStepBegin s))))).
Proof. by case: e => -[] x [] [] //=. Qed.

Lemma body_begin_abort e s :
  in_step_begin e = false ->
  body e s = Val true (finalize_solving (log InfoAborted (log OnStepBegin s))).
Proof. by case: e => b x st b' /= ->. Qed.

Lemma body_end_abort e s :
  in_step_begin e -> not_converged (in_state e) -> in_step_end e = false ->
  body e s
  = Val true
      (finalize_solving
         (log InfoAborted
            (log OnStepEnd (work (in_new_sln e) (log OnStepBegin s))))).
Proof. by case: e => -[] x [] [] //=. Qed.

Lemma body_converged e s :
  in_step_begin e -> in_state e = Converged ->
  body e s
  = Val true
      (log InfoDone (finalize_solving (work (in_new_sln e) (log OnStepBegin s)))).
Proof. by case: e => -[] x st b' //= _ ->. Qed.

Lemma body_above_max e s :
  in_step_begin e -> in_state e = AboveMaxIterations ->
  body e s
  = Throw bool (NonlinearException AboveMaxIterations)
      (finalize_solving (work (in_new_sln e) (log OnStepBegin s))).
Proof. by case: e => -[] x st b' //= _ ->. Qed.

Lemma body_error e s :
  in_step_begin e -> in_state e = Error ->
  body e s
  = Throw bool UnknownException
      (finalize_solving (work (in_new_sln e) (log OnStepBegin s))).
Proof. by case: e => -[] x st b' //= _ ->. Qed.

Lemma main_loop_continue steps rest s :
  all (@continuing R) steps ->
  main_loop ludcmp lubksb cfg (steps ++ rest) s
  = main_loop ludcmp lubksb cfg rest (run steps s).
Proof.
elim: steps s => [|e steps IH] s //= /andP [cont_e cont_steps].
by rewrite body_continue //= IH.
Qed.

(** *** Calls of [on_finish()] *)

Lemma work_finish_count x s : finish_count (work x s) = finish_count s.
Proof.
rewrite /step_work finish_count_log addn0 /accept_iterate hpv_finish_count.
exact: sls_finish_count.
Qed.

Lemma start_finish_count arg dim s : finish_count (start arg dim s) = finish_count s.
Proof.
rewrite /start_state /finish_count /=.
have [_ _ _ _ ->] := init_anderson_frame uninit cfg (init_solving_body uninit arg dim s).
rewrite /init_solving_body; case: arg => [v|]; case: ifP => _ /=;
  by rewrite -!cats1 !count_cat /= !addn0.
Qed.

Lemma renew_finish_count s : finish_count (renew_coeff_vec s) = finish_count s.
Proof. by []. Qed.

Lemma next_finish_count s : finish_count (next_iteration s) = finish_count s.
Proof. by []. Qed.

Lemma final_state_Val (A : Type) (a : A) s : final_state (Val a s) = s.
Proof. by []. Qed.

Lemma final_state_Throw (A : Type) (x : exn) s : final_state (Throw A x s) = s.
Proof. by []. Qed.

Lemma continue_finish_count e s :
  continuing e -> finish_count (final_state (body e s)) = finish_count s.
Proof.
move=> cont_e; rewrite body_continue // final_state_Val.
rewrite renew_finish_count next_finish_count finish_count_log addn0.
by rewrite work_finish_count finish_count_log addn0.
Qed.

Lemma run_finish_count steps s :
  all (@continuing R) steps -> finish_count (run steps s) = finish_count s.
Proof.
elim: steps s => [|e steps IH] s //= /andP [cont_e cont_steps].
by rewrite -/(run steps _) IH // continue_finish_count.
Qed.


(** *** Every way out of the initial step and of the loop body *)

Lemma initial_other e s :
  in_state e = OtherState ->
  initial e s
  = Throw bool UnknownConvergenceState
      (finalize_solving (renew_coeff_vec (work (in_new_sln e) s))).
Proof. by case: e => b x st b' /= ->. Qed.

Lemma body_other e s :
  in_step_begin e -> in_state e = OtherState ->
  body e s
  = Throw bool UnknownConvergenceState
      (finalize_solving (work (in_new_sln e) (log OnStepBegin s))).
Proof. by case: e => -[] x st b' //= _ ->. Qed.

Lemma entry_initial arg dim e s :
  entry arg dim e s
  = match initial e (start arg dim s) with
    | Val true s' => Val true (finalize_solving (log InfoAborted s'))
    | Val false s' => Val false (next_iteration s')
    | Throw x s' => Throw bool x s'
    end.
Proof.
rewrite /solve_entry /init_solving /bind check_ok //=.
by case: (initial e _) => [[] s'|x s'].
Qed.

Lemma heap_log (ev : event) s : heap (log ev s) = heap s.
Proof. by []. Qed.

Lemma heap_renew s : heap (renew_coeff_vec s) = heap s.
Proof. by []. Qed.

Lemma heap_next s : heap (next_iteration s) = heap s.
Proof. by []. Qed.

Lemma heap_calculate_error x s : heap (calculate_error x s) = heap s.
Proof. by []. Qed.

Lemma work_heap x s : heap (work x s) = heap s.
Proof.
by rewrite /step_work heap_log /accept_iterate hpv_heap heap_calculate_error sls_heap.
Qed.

Lemma work_delete x s : delete_coeff_vec (work x s) = delete_coeff_vec s.
Proof. by rewrite /step_work /= /accept_iterate hpv_delete /= sls_delete. Qed.

Lemma init_body_live (b : block) arg dim s :
  anderson_block b ->
  is_live b (heap (init_solving_body uninit arg dim s)) = is_live b (heap s).
Proof.
move=> ab; rewrite /init_solving_body.
case: arg => [v|]; case: ifP => _ /=; rewrite ?live_release_anderson //;
  by case: b ab.
Qed.

Lemma init_anderson_heap s :
  heap (init_anderson uninit cfg s)
  = if anderson_is_on cfg
    then BlkCoeffs :: rev [seq BlkRow i | i <- iota 0 k] ++ BlkRowTable :: heap s
    else heap s.
Proof. by rewrite /init_anderson; case: ifP => // _; rewrite init_rows_loop. Qed.

(** What one pass through the loop body does to the Anderson blocks and to
    the count of [on_finish()] calls. *)
Lemma body_obs (b : block) e s :
  anderson_block b ->
  is_live b (heap (final_state (body e s))) = is_live b (heap s)
  /\ finish_count (final_state (body e s))
     = (finish_count s + (if body e s is Val false _ then 0 else 1))%N.
Proof.
move=> ab; case be: (in_step_begin e); last first.
  rewrite body_begin_abort // final_state_Val finalize_live // 2!heap_log.
  by rewrite finalize_finish_count 2!finish_count_log /= !addn0 addn1.
case st: (in_state e).
- rewrite body_converged // final_state_Val heap_log finalize_live //.
  rewrite work_heap heap_log.
  rewrite finish_count_log finalize_finish_count work_finish_count.
  by rewrite finish_count_log /= !addn0 addn1.
- case en: (in_step_end e).
    rewrite body_continue ?final_state_Val /continuing ?be ?st ?en //.
    rewrite heap_renew heap_next heap_log work_heap heap_log.
    rewrite renew_finish_count next_finish_count.
    by rewrite finish_count_log work_finish_count finish_count_log /= !addn0.
  rewrite body_end_abort ?st // final_state_Val finalize_live // 2!heap_log.
  rewrite work_heap heap_log.
  rewrite finalize_finish_count 2!finish_count_log work_finish_count.
  by rewrite finish_count_log /= !addn0 addn1.
- rewrite body_above_max // final_state_Throw finalize_live // work_heap heap_log.
  by rewrite finalize_finish_count work_finish_count finish_count_log /= addn0 addn1.
- rewrite body_error // final_state_Throw finalize_live // work_heap heap_log.
  by rewrite finalize_finish_count work_finish_count finish_count_log /= addn0 addn1.
- rewrite body_other // final_state_Throw finalize_live // work_heap heap_log.
  by rewrite finalize_finish_count work_finish_count finish_count_log /= addn0 addn1.
Qed.

Lemma main_loop_obs (b : block) script s r :
  anderson_block b -> main_loop ludcmp lubksb cfg script s = Some r ->
  is_live b (heap (final_state r)) = is_live b (heap s)
  /\ finish_count (final_state r) = (finish_count s).+1.
Proof.
move=> ab; elim: script s => [|e script IH] s //=.
have [live_e count_e] := body_obs e s ab.
case be: (body e s) live_e count_e => [[] s'|x s'] /=.
- by move=> live_e count_e [<-] /=; rewrite live_e count_e addn1.
- rewrite addn0 => live_e count_e /IH [-> ->].
  by rewrite live_e count_e.
- by move=> live_e count_e [<-] /=; rewrite live_e count_e addn1.
Qed.

(** The same for [solve] up to the loop. *)
Lemma entry_obs (b : block) arg dim e s :
  anderson_block b ->
  is_live b (heap (final_state (entry arg dim e s)))
  = is_live b (heap (start arg dim s))
  /\ finish_count (final_state (entry arg dim e s))
     = (finish_count s
        + (if entry arg dim e s is Val false _ then 0
           else if in_state e is Converged then 2 else 1))%N.
Proof.
move=> ab; rewrite entry_initial; case st: (in_state e).
- rewrite initial_converged // final_state_Val finalize_live // 2!heap_log.
  rewrite finalize_live // heap_renew work_heap.
  rewrite finalize_finish_count 2!finish_count_log finalize_finish_count.
  rewrite renew_finish_count work_finish_count start_finish_count.
  by rewrite /= !addn0 addn2.
- rewrite initial_not_converged ?st //; case: (in_step_end e);
    rewrite [negb _]/= final_state_Val.
    rewrite heap_next heap_log heap_renew work_heap.
    rewrite next_finish_count finish_count_log.
    by rewrite renew_finish_count work_finish_count start_finish_count /= !addn0.
  rewrite finalize_live // 2!heap_log heap_renew work_heap.
  rewrite finalize_finish_count 2!finish_count_log.
  by rewrite renew_finish_count work_finish_count start_finish_count /= !addn0 addn1.
- rewrite initial_above_max // final_state_Throw finalize_live // heap_renew work_heap.
  rewrite finalize_finish_count renew_finish_count work_finish_count.
  by rewrite start_finish_count addn1.
- rewrite initial_error // final_state_Throw finalize_live // heap_renew work_heap.
  rewrite finalize_finish_count renew_finish_count work_finish_count.
  by rewrite start_finish_count addn1.
- rewrite initial_other // final_state_Throw finalize_live // heap_renew work_heap.
  rewrite finalize_finish_count renew_finish_count work_finish_count.
  by rewrite start_finish_count addn1.
Qed.

(** *** The solution vector and the iteration counter on the way out *)

Lemma sln_log (ev : event) s : sln_vector (log ev s) = sln_vector s.
Proof. by []. Qed.

Lemma it_log (ev : event) s : it (log ev s) = it s.
Proof. by []. Qed.

Lemma finalize_sln s : sln_vector (finalize_solving s) = sln_vector s.
Proof. by have [[_ -> _ _ _] _] := anderson_viewP cfg (finalize_view s). Qed.

Lemma work_sln x s :
  sln_vector (work x s) = sln_vector (accept_iterate ludcmp lubksb cfg x s).
Proof.
have view_eq := accept_view_congr ludcmp lubksb cfg x (sls_view cfg s).
by have [[_ sln_eq _ _ _] _] := anderson_viewP cfg view_eq.
Qed.

Lemma sls_it s : it (solve_linear_system cfg s) = it s.
Proof. by rewrite /solve_linear_system; case: ifP. Qed.

Lemma work_it x s : it (work x s) = it s.
Proof.
rewrite /step_work /accept_iterate.
have [_ [it_eq _ _ _]] :=
  outside_historyP
    (hpv_outside ludcmp lubksb cfg (calculate_error x (solve_linear_system cfg s))).
by rewrite [it _]/= it_eq [it _]/= sls_it.
Qed.

(** *** Whole runs *)

Lemma solve_obs (b : block) arg dim first script s r :
  anderson_block b ->
  solve ludcmp lubksb uninit cfg arg dim first script s = Some r ->
  is_live b (heap (final_state r)) = is_live b (heap (start arg dim s))
  /\ finish_count (final_state r)
     = (finish_count s + (if in_state first is Converged then 2 else 1))%N.
Proof.
move=> ab; rewrite /solve.
have [live_e count_e] := entry_obs arg dim first s ab.
have not_conv :
    (if entry arg dim first s is Val true _ then false else true) ->
    (if in_state first is Converged then 2 else 1) = 1%N.
  by case st: (in_state first) => //; rewrite entry_converged.
case ent: (entry arg dim first s) live_e count_e not_conv => [[] s'|x s'] /=.
- by move=> live_e count_e _ [<-] /=.
- rewrite addn0 => live_e count_e -> // /(main_loop_obs ab) [-> ->].
  by rewrite live_e count_e addn1.
- by move=> live_e count_e _ [<-] /=.
Qed.

(** *** The history during a run *)

Lemma init_body_view arg dim s :
  size (initial_iterate arg dim) = dim ->
  dimension (init_solving_body uninit arg dim s) = dim
  /\ sln_vector (init_solving_body uninit arg dim s) = initial_iterate arg dim.
Proof.
move=> sz_x0; rewrite /init_solving_body.
by case: arg sz_x0 => [v|] sz_x0; case: ifP => _ /=;
  rewrite memcpy_full ?size_nseq.
Qed.

Lemma history_iota s :
  previous_vectors s = iota 0 (size (rows s)) -> history s = rows s.
Proof. by move=> pv_eq; rewrite /history pv_eq -/(mkseq _ _) mkseq_nth. Qed.

Hypothesis on : anderson_is_on cfg.

Lemma k_gt0 : (0 < k)%N.
Proof. by have [_ /ltnW] := capacity_ge2 num_ok. Qed.

Lemma start_wf arg dim s :
  size (initial_iterate arg dim) = dim ->
  [/\ wf (start arg dim s), dimension (start arg dim s) = dim,
      vec_in_memory (start arg dim s) = 1%N
    & stored (start arg dim s) = [:: initial_iterate arg dim]].
Proof.
move=> sz_x0; have [dim_b sln_b] := init_body_view s sz_x0.
have [dim_a sln_a _ _ _] :=
  init_anderson_frame uninit cfg (init_solving_body uninit arg dim s).
have [|pv_a rows_a _ _ _] :=
  init_anderson_on uninit on k_gt0 (s := init_solving_body uninit arg dim s).
  by rewrite dim_b sln_b.
have sz_rows : size (rows (init_anderson uninit cfg (init_solving_body uninit arg dim s)))
               = k.
  by rewrite rows_a /= size_nseq prednK // k_gt0.
have hist : history (start arg dim s)
            = initial_iterate arg dim :: nseq k.-1 (nseq dim uninit).
  rewrite /start_state /history /= -/(history _) history_iota ?sz_rows //.
  by rewrite rows_a sln_b dim_b.
split=> //.
- apply/and5P; rewrite /start_state /=; split.
  + by rewrite sz_rows.
  + by rewrite pv_a.
  + rewrite rows_a dim_a /= sln_b dim_b sz_x0 eqxx /=.
    by apply/allP => r; rewrite mem_nseq => /andP [_ /eqP ->]; rewrite size_nseq.
  + by rewrite sln_a dim_a sln_b dim_b sz_x0.
  + exact: k_gt0.
- by rewrite /start_state /= dim_a.
by rewrite /stored hist /start_state /= take0.
Qed.

Lemma sls_wf s : wf (solve_linear_system cfg s) = wf s.
Proof. by have [_ [_ _ _ ->]] := anderson_viewP cfg (sls_view cfg s). Qed.

Lemma work_view x s :
  anderson_view (work x s)
  = anderson_view (accept_iterate ludcmp lubksb cfg x (solve_linear_system cfg s)).
Proof. by []. Qed.

Lemma continue_view e s :
  continuing e ->
  anderson_view (final_state (body e s))
  = anderson_view
      (accept_iterate ludcmp lubksb cfg (in_new_sln e)
         (solve_linear_system cfg (log OnStepBegin s))).
Proof. by move=> cont_e; rewrite body_continue. Qed.

Lemma entry_view arg dim e s :
  initial_continuing e ->
  anderson_view (final_state (entry arg dim e s))
  = anderson_view
      (accept_iterate ludcmp lubksb cfg (in_new_sln e)
         (solve_linear_system cfg (start arg dim s))).
Proof. by move=> cont_e; rewrite entry_continue. Qed.

(** One accepted iterate, seen from a state with the same history part. *)
Lemma accept_from s s0 x (l : seq (seq R)) :
  anderson_view s0 = anderson_view s ->
  wf s -> size x = dimension s -> stored s = lastn k l ->
  let s' := accept_iterate ludcmp lubksb cfg x s0 in
  [/\ wf s', dimension s' = dimension s & stored s' = lastn k (rcons l x)].
Proof.
move=> view_eq wf_s sz_x st_s.
have [[dim0 _ _ _ _] [vim0 _ st0 wf0]] := anderson_viewP cfg view_eq.
have wf_s0 : wf s0 by rewrite wf0.
have [] := accept_spec ludcmp lubksb on k_gt0 wf_s0 (v := x); first by rewrite dim0.
move=> wf_a st_a vim_a dim_a; split=> //; first by rewrite dim_a.
by rewrite st_a vim0 st0 -(size_stored wf_s) st_s lastn_step // k_gt0.
Qed.



Lemma lastn_small (T : Type) (l : seq T) : (size l <= k)%N -> lastn k l = l.
Proof. by rewrite /lastn -subn_eq0 => /eqP ->; rewrite drop0. Qed.

Lemma push_sln s : sln_vector (push_vector cfg s) = sln_vector s.
Proof. by rewrite /push_vector; case: ifP. Qed.



Lemma work_matrix_solve x s :
  count is_matrix_solve (trace (work x s)) = (count is_matrix_solve (trace s)).+1.
Proof.
rewrite /step_work /= -cats1 count_cat /= addn0 /accept_iterate.
have [_ [_ _ _ ->]] :=
  outside_historyP
    (hpv_outside ludcmp lubksb cfg (calculate_error x (solve_linear_system cfg s))).
by rewrite addn0 [trace _]/= sls_matrix_solve.
Qed.

Lemma start_matrix_solve arg dim s :
  count is_matrix_solve (trace (start arg dim s)) = count is_matrix_solve (trace s).
Proof.
rewrite /start_state /=.
have [_ _ _ _ ->] := init_anderson_frame uninit cfg (init_solving_body uninit arg dim s).
rewrite /init_solving_body; case: arg => [v|]; case: ifP => _ /=;
  by rewrite -!cats1 !count_cat /= !addn0.
Qed.

Lemma run_matrix_solve steps s :
  all (@continuing R) steps ->
  count is_matrix_solve (trace (run steps s))
  = (count is_matrix_solve (trace s) + size steps)%N.
Proof.
elim: steps s => [|e steps IH] s /=; first by rewrite addn0.
case/andP => cont_e cont_steps; rewrite -/(run steps _) IH // body_continue //.
rewrite final_state_Val [trace _]/= -cats1 count_cat /= addn0 work_matrix_solve.
by rewrite addn0 [trace _]/= -cats1 count_cat /= !addn0 addSn addnS.
Qed.

Lemma entry_matrix_solve arg dim e s :
  initial_continuing e ->
  count is_matrix_solve (trace (final_state (entry arg dim e s)))
  = (count is_matrix_solve (trace s)).+1.
Proof.
move=> cont_e; rewrite entry_continue // final_state_Val.
rewrite [trace _]/= -cats1 count_cat /= addn0 work_matrix_solve.
by rewrite addn0 start_matrix_solve.
Qed.

End RunLemmas.

(** ** Algebra of the dense system *)

Section KernelFacts.

Variable R : comRingType.
Variable ludcmp : seq (seq R) -> nat -> seq (seq R) * seq nat * int.
Variable lubksb : seq (seq R) -> nat -> seq nat -> seq R -> seq R.
Variable pvec : nat -> nat -> R.
Variable dim : nat.

Lemma mat_entryC (n i j : nat) : mat_entry pvec dim n i j = mat_entry pvec dim n j i.
Proof. by rewrite !mat_entryE; apply: eq_bigr => c _; rewrite mulrC. Qed.

Lemma nth_setup_mat (n i j : nat) :
  nth 0 (nth [::] (setup_mat pvec dim n) i) j
  = if (i < n)%N && (j < n)%N then mat_entry pvec dim n i j else 0.
Proof.
rewrite /setup_mat; case: (ltnP i n) => [lt_i|le_i] /=; last first.
  by rewrite [nth [::] _ i]nth_default ?size_mkseq // nth_nil.
rewrite nth_mkseq //; case: (ltnP j n) => [lt_j|le_j]; first by rewrite nth_mkseq.
by rewrite nth_default // size_mkseq.
Qed.

Lemma nth_setup_rhs (n i : nat) :
  nth 0 (setup_rhs pvec dim n) i = if (i < n)%N then rhs_entry pvec dim n i else 0.
Proof.
rewrite /setup_rhs; case: (ltnP i n) => [lt_i|le_i]; first by rewrite nth_mkseq.
by rewrite nth_default // size_mkseq.
Qed.

Lemma setup_mat_sym (n i j : nat) :
  nth 0 (nth [::] (setup_mat pvec dim n) i) j
  = nth 0 (nth [::] (setup_mat pvec dim n) j) i.
Proof. by rewrite !nth_setup_mat andbC mat_entryC. Qed.

Lemma zero_row (n i : nat) :
  (forall c, (c < dim)%N -> residual pvec i c = residual pvec n c) ->
  rhs_entry pvec dim n i = 0 /\ forall j, mat_entry pvec dim n i j = 0.
Proof.
move=> same; split=> [|j]; rewrite ?rhs_entryE ?mat_entryE big_nat_cond big1 // => c;
  by rewrite andbT => /andP [_ lt_c]; rewrite same // subrr ?mulr0 ?mul0r.
Qed.

End KernelFacts.

(** ** The history over whole runs *)

Section WindowLemmas.

Variable R : comRingType.
Variable ludcmp : seq (seq R) -> nat -> seq (seq R) * seq nat * int.
Variable lubksb : seq (seq R) -> nat -> seq nat -> seq R -> seq R.

Lemma residual_ext (p p' : nat -> nat -> R) (k dim i c : nat) :
  (forall j c, (j < k)%N -> (c < dim)%N -> p j c = p' j c) ->
  (i.+1 < k)%N -> (c < dim)%N -> residual p i c = residual p' i c.
Proof. by move=> eq_p lt_i lt_c; rewrite /residual !eq_p // ltnW. Qed.

Lemma calculate_anderson_coeffs_ext (p p' : nat -> nat -> R) (dim k : nat) (c0 : seq R) :
  (forall j c, (j < k)%N -> (c < dim)%N -> p j c = p' j c) ->
  calculate_anderson_coeffs ludcmp lubksb p dim k c0
  = calculate_anderson_coeffs ludcmp lubksb p' dim k c0.
Proof.
move=> eq_p; rewrite /calculate_anderson_coeffs; case: eqP => // _.
case: k eq_p => [|[|k]] // eq_p; rewrite subn2 /=.
have res i c : (i <= k)%N -> (c < dim)%N -> residual p i c = residual p' i c.
  by move=> le_i lt_c; apply: (residual_ext eq_p).
have -> : setup_mat p dim k = setup_mat p' dim k.
  apply/eq_in_map => i; rewrite mem_iota add0n => /andP [_ lt_i].
  apply/eq_in_map => j; rewrite mem_iota add0n => /andP [_ lt_j].
  rewrite !mat_entryE; apply: eq_big_nat => c /andP [_ lt_c].
  by rewrite !res // ltnW.
have -> // : setup_rhs p dim k = setup_rhs p' dim k.
apply/eq_in_map => i; rewrite mem_iota add0n => /andP [_ lt_i].
rewrite !rhs_entryE; apply: eq_big_nat => c /andP [_ lt_c].
by rewrite !res // ltnW.
Qed.

Lemma calculate_anderson_coeffs_fresh (p : nat -> nat -> R) (dim k : nat)
    (c0 c0' : seq R) :
  (2 <= k)%N -> size c0 = k.-1 -> size c0' = k.-1 ->
  calculate_anderson_coeffs ludcmp lubksb p dim k c0
  = calculate_anderson_coeffs ludcmp lubksb p dim k c0'
  /\ size (calculate_anderson_coeffs ludcmp lubksb p dim k c0) = k.-1.
Proof.
case: k => [|[|[|k]]] // _ /=; rewrite /calculate_anderson_coeffs /=.
  by case: c0 c0' => [|a [|]] // [|b [|]].
rewrite subn2 /= !store_coeffsE => sz_c0 sz_c0'.
rewrite !drop_oversize ?sz_c0 ?sz_c0' //; split=> //.
by rewrite size_cat size_mkseq /= addn1.
Qed.

Lemma mixed_entry_ext (p p' : nat -> nat -> R) (k : nat) (beta : R) (cs : seq R)
    (i : nat) :
  (forall j, (j < k)%N -> p j i = p' j i) ->
  mixed_entry p k beta cs i = mixed_entry p' k beta cs i.
Proof.
move=> eq_p; rewrite !mixed_entryE; apply: eq_big_nat => j /andP [j_gt0 lt_j].
by rewrite !eq_p // (leq_ltn_trans (leq_pred j)).
Qed.

End WindowLemmas.

Section WindowRuns.

Variable R : comRingType.
Variable ludcmp : seq (seq R) -> nat -> seq (seq R) * seq nat * int.
Variable lubksb : seq (seq R) -> nat -> seq nat -> seq R -> seq R.
Variable uninit : R.
Variable cfg : config R.

Implicit Type s : state R.

Local Notation k := (capacity cfg).
Local Notation accept := (accept_iterate ludcmp lubksb cfg).
Local Notation wf := (wf_history cfg).
Local Notation hpv := (handle_previous_vectors ludcmp lubksb cfg).

Lemma push_coeffs s : anderson_coeffs (push_vector cfg s) = anderson_coeffs s.
Proof. by rewrite /push_vector; case: ifP. Qed.

Lemma stored_full s : wf s -> (k <= vec_in_memory s)%N -> stored s = history s.
Proof.
by move=> wf_s le_v; rewrite /stored take_oversize // size_history (wf_size_pv wf_s).
Qed.

Lemma size_lastn (T : Type) (n : nat) (l : seq T) : size (lastn n l) = minn n (size l).
Proof.
rewrite /lastn size_drop; case: (leqP n (size l)) => [le_n|lt_n].
  by rewrite subKn.
by move/ltnW: lt_n; rewrite -subn_eq0 => /eqP ->; rewrite subn0.
Qed.

Hypothesis num_ok : 2 <= num_last_vectors_used cfg.
Hypothesis on : anderson_is_on cfg.

Lemma accept_closed s x :
  wf s -> size x = dimension s -> size (anderson_coeffs s) = k.-1 ->
  let s' := accept x s in
  let h := stored s' in
  [/\ size (anderson_coeffs s') = k.-1,
      (vec_in_memory s' < k)%N -> sln_vector s' = x
    & (k <= vec_in_memory s')%N ->
      [/\ history s' = h,
          anderson_coeffs s'
          = calculate_anderson_coeffs ludcmp lubksb (component h) (dimension s) k
              (nseq k.-1 0)
        & sln_vector s'
          = mkseq (mixed_entry (component h) k (anderson_beta cfg) (anderson_coeffs s'))
              (dimension s)]].
Proof.
move=> wf_s sz_x sz_c /=.
have [_ k_ge2] := capacity_ge2 num_ok.
have k_pos : (0 < k)%N by apply: ltnW.
have wf_x := wf_set_sln wf_s sz_x.
have acceptE : accept x s = hpv (set_sln_vector x s).
  by rewrite /accept_iterate calculate_error_full // (wf_size_sln wf_s).
have hpvE : hpv (set_sln_vector x s)
            = mix_if_full ludcmp lubksb cfg (push_vector cfg (set_sln_vector x s)).
  by rewrite /handle_previous_vectors on.
have wf_p : wf (push_vector cfg (set_sln_vector x s)).
  case: (ltnP (vec_in_memory (set_sln_vector x s)) k) => [lt_v|le_v].
    by have [] := push_not_full wf_x lt_v.
  by have [] := push_full wf_x k_pos le_v.
have [pv_m rows_m vim_m] :=
  mix_history ludcmp lubksb cfg (push_vector cfg (set_sln_vector x s)).
have hist_m : history (accept x s) = history (push_vector cfg (set_sln_vector x s)).
  by rewrite acceptE hpvE /history pv_m rows_m.
have vim_a : vec_in_memory (accept x s)
             = vec_in_memory (push_vector cfg (set_sln_vector x s)).
  by rewrite acceptE hpvE vim_m.
have st_m : stored (accept x s) = stored (push_vector cfg (set_sln_vector x s)).
  by rewrite /stored hist_m vim_a.
have sz_cp : size (anderson_coeffs (push_vector cfg (set_sln_vector x s))) = k.-1.
  by rewrite push_coeffs.
rewrite vim_a.
case: (ltnP (vec_in_memory (push_vector cfg (set_sln_vector x s))) k) => [lt_v|le_v].
  have same : accept x s = push_vector cfg (set_sln_vector x s).
    by rewrite acceptE hpvE mix_not_full.
  by split=> //; rewrite same ?push_sln.
have [coeffs_eq sln_eq read_eq dim_eq] := hpv_full ludcmp lubksb on le_v.
have st_h : stored (accept x s) = history (push_vector cfg (set_sln_vector x s)).
  by rewrite st_m stored_full.
have readE j c : (j < k)%N ->
    read_pv (push_vector cfg (set_sln_vector x s)) j c
    = component (stored (accept x s)) j c.
  by move=> lt_j; rewrite read_pv_history ?st_h // (wf_size_pv wf_p).
have coeffsE :
    anderson_coeffs (accept x s)
    = calculate_anderson_coeffs ludcmp lubksb (component (stored (accept x s)))
        (dimension s) k (nseq k.-1 0).
  rewrite acceptE coeffs_eq -acceptE.
  rewrite (@calculate_anderson_coeffs_ext _ ludcmp lubksb _
             (component (stored (accept x s)))).
    by move=> j c lt_j _; apply: readE.
  by have [-> _] := calculate_anderson_coeffs_fresh ludcmp lubksb
                      (component (stored (accept x s))) (dimension s) k_ge2 sz_cp
                      (size_nseq k.-1 0).
split=> // [|_]; first by rewrite coeffsE; have [_ ->] :=
    calculate_anderson_coeffs_fresh ludcmp lubksb
      (component (stored (accept x s))) (dimension s) k_ge2 (size_nseq k.-1 (0 : R))
      (size_nseq k.-1 0).
split=> //; first by rewrite hist_m st_h.
rewrite {1}acceptE sln_eq -acceptE mix_vectorsE /= drop_oversize ?sz_x // cats0.
by apply: eq_mkseq => i; apply: mixed_entry_ext => j lt_j; apply: readE.
Qed.

Lemma accept_from_closed s s0 x (l : seq (seq R)) :
  anderson_view s0 = anderson_view s ->
  wf s -> size x = dimension s -> stored s = lastn k l ->
  size (anderson_coeffs s) = k.-1 ->
  let s' := accept x s0 in
  let h := lastn k (rcons l x) in
  [/\ wf s', dimension s' = dimension s, stored s' = h
    & size (anderson_coeffs s') = k.-1]
  /\ (((size l).+1 < k)%N -> sln_vector s' = x)
     /\ ((k <= (size l).+1)%N ->
         [/\ history s' = h,
             anderson_coeffs s'
             = calculate_anderson_coeffs ludcmp lubksb (component h) (dimension s) k
                 (nseq k.-1 0)
           & sln_vector s'
             = mkseq (mixed_entry (component h) k (anderson_beta cfg)
                        (anderson_coeffs s'))
                 (dimension s)]).
Proof.
move=> view_eq wf_s sz_x st_s sz_c /=.
have [[dim0 _ _ _ co0] [_ _ _ wf0]] := anderson_viewP cfg view_eq.
have [wf_a dim_a st_a] := accept_from ludcmp lubksb num_ok on view_eq wf_s sz_x st_s.
have wf_s0 : wf s0 by rewrite wf0.
have sz_x0 : size x = dimension s0 by rewrite dim0.
have sz_c0 : size (anderson_coeffs s0) = k.-1 by rewrite co0.
have [sz_ca raw mixed] := accept_closed wf_s0 sz_x0 sz_c0.
have vim_a : vec_in_memory (accept x s0) = minn k (size l).+1.
  by rewrite -(size_stored wf_a) st_a size_lastn size_rcons.
split; first by split.
split=> [lt_k|le_k].
  by apply: raw; rewrite vim_a gtn_min lt_k orbT.
by move: mixed; rewrite vim_a leq_min leqnn le_k st_a dim0; apply.
Qed.

End WindowRuns.

Section WindowSolve.

Variable R : comRingType.
Variable ludcmp : seq (seq R) -> nat -> seq (seq R) * seq nat * int.
Variable lubksb : seq (seq R) -> nat -> seq nat -> seq R -> seq R.
Variable uninit : R.
Variable cfg : config R.

Implicit Type s : state R.

Local Notation k := (capacity cfg).
Local Notation accept := (accept_iterate ludcmp lubksb cfg).
Local Notation wf := (wf_history cfg).
Local Notation entry := (solve_entry ludcmp lubksb uninit cfg).
Local Notation run := (run_steps ludcmp lubksb cfg).
Local Notation start := (start_state uninit cfg).

Hypothesis num_ok : 2 <= num_last_vectors_used cfg.
Hypothesis base_ok : base_isOkay cfg.
Hypothesis on : anderson_is_on cfg.

Lemma start_coeffs arg dim s :
  size (initial_iterate arg dim) = dim ->
  anderson_coeffs (start arg dim s) = nseq k.-1 uninit.
Proof.
move=> sz_x0; have [dim_b sln_b] := init_body_view uninit s sz_x0.
have [|_ _ co_a _ _] :=
  init_anderson_on uninit on (k_gt0 num_ok) (s := init_solving_body uninit arg dim s).
  by rewrite dim_b sln_b.
by rewrite /start_state /= co_a.
Qed.

Lemma run_closed arg dim first steps s0 :
  size (initial_iterate arg dim) = dim ->
  initial_continuing first -> all (@continuing R) steps ->
  all (fun e => size (in_new_sln e) == dim) (first :: steps) ->
  let x0 := initial_iterate arg dim in
  let xs := [seq in_new_sln e | e <- first :: steps] in
  let h := lastn k (x0 :: xs) in
  let s := run steps (final_state (entry arg dim first s0)) in
  [/\ wf s, dimension s = dim, stored s = h & size (anderson_coeffs s) = k.-1]
  /\ (((size xs).+1 < k)%N -> sln_vector s = last x0 xs)
     /\ ((k <= (size xs).+1)%N ->
         [/\ history s = h,
             anderson_coeffs s
             = calculate_anderson_coeffs ludcmp lubksb (component h) dim k (nseq k.-1 0)
           & sln_vector s
             = mkseq (mixed_entry (component h) k (anderson_beta cfg)
                        (anderson_coeffs s))
                 dim]).
Proof.
move=> sz_x0 cont_first cont_steps /= /andP [/eqP sz_first sz_steps].
have k_pos := k_gt0 num_ok.
have [wf_0 dim_0 vim_0 st_0] := start_wf uninit num_ok on s0 sz_x0.
have co_0 := start_coeffs s0 sz_x0.
elim/last_ind: steps cont_steps sz_steps => [|steps e IH] /=.
  move=> _ _.
  have view_0 : anderson_view (solve_linear_system cfg (start arg dim s0))
                = anderson_view (start arg dim s0) by rewrite sls_view.
  have st_0' : stored (start arg dim s0) = lastn k [:: initial_iterate arg dim].
    by rewrite lastn_small.
  have [] := accept_from_closed ludcmp lubksb num_ok on (x := in_new_sln first)
               view_0 wf_0 _ st_0'; rewrite ?dim_0 ?co_0 ?size_nseq //.
  have [[-> -> _ _ ->] [_ -> -> ->]] :=
    anderson_viewP cfg (entry_view ludcmp lubksb uninit num_ok base_ok arg dim s0 cont_first).
  by [].
rewrite !all_rcons => /andP [cont_e cont_steps] /andP [/eqP sz_e sz_steps].
have [[wf_r dim_r st_r sz_r] _] := IH cont_steps sz_steps.
rewrite /run_steps -cats1 foldl_cat /= -/(run steps _).
set s_r := run steps _ in wf_r dim_r st_r sz_r *.
have view_b : anderson_view (solve_linear_system cfg (log OnStepBegin s_r))
              = anderson_view s_r by rewrite sls_view.
have [] := accept_from_closed ludcmp lubksb num_ok on (x := in_new_sln e)
             view_b wf_r _ st_r sz_r; first by rewrite dim_r.
have [[-> -> _ _ ->] [_ -> -> ->]] :=
  anderson_viewP cfg (@continue_view _ ludcmp lubksb cfg e s_r cont_e).
by rewrite dim_r map_cat cats1 size_rcons last_rcons /=.
Qed.

End WindowSolve.

(** ** The vectors that every run maintains, with or without acceleration *)

Section VectorLemmas.

Variable R : comRingType.
Variable ludcmp : seq (seq R) -> nat -> seq (seq R) * seq nat * int.
Variable lubksb : seq (seq R) -> nat -> seq nat -> seq R -> seq R.
Variable uninit : R.
Variable cfg : config R.

Implicit Type s : state R.

Local Notation k := (capacity cfg).
Local Notation accept := (accept_iterate ludcmp lubksb cfg).
Local Notation hpv := (handle_previous_vectors ludcmp lubksb cfg).
Local Notation work := (step_work ludcmp lubksb cfg).
Local Notation entry := (solve_entry ludcmp lubksb uninit cfg).
Local Notation run := (run_steps ludcmp lubksb cfg).
Local Notation start := (start_state uninit cfg).

Lemma hpv_dimension s : dimension (hpv s) = dimension s.
Proof. by have [[-> _ _ _] _] := outside_historyP (hpv_outside ludcmp lubksb cfg s). Qed.

Lemma hpv_coeff_vec s : coeff_vec (hpv s) = coeff_vec s.
Proof. by have [[_ -> _ _] _] := outside_historyP (hpv_outside ludcmp lubksb cfg s). Qed.

Lemma sls_dimension s : dimension (solve_linear_system cfg s) = dimension s.
Proof. by rewrite /solve_linear_system; case: ifP. Qed.

Lemma sls_coeff_vec s : coeff_vec (solve_linear_system cfg s) = coeff_vec s.
Proof. by rewrite /solve_linear_system; case: ifP. Qed.

Lemma sls_sln s : sln_vector (solve_linear_system cfg s) = sln_vector s.
Proof. by rewrite /solve_linear_system; case: ifP. Qed.

Lemma work_dimension x s : dimension (work x s) = dimension s.
Proof. by rewrite /step_work /= /accept_iterate hpv_dimension /= sls_dimension. Qed.

Lemma work_coeff_vec x s : coeff_vec (work x s) = coeff_vec s.
Proof. by rewrite /step_work /= /accept_iterate hpv_coeff_vec /= sls_coeff_vec. Qed.

(** The solution vector keeps its length through [handle_previous_vectors]. *)
Lemma hpv_size_sln s :
  size (sln_vector s) = dimension s -> size (sln_vector (hpv s)) = dimension s.
Proof.
move=> sz_s; rewrite /handle_previous_vectors; case: ifP => // _.
have [[dim_p _ _ _] _] := outside_historyP (push_outside cfg s).
rewrite /mix_if_full; case: ifP => _; last by rewrite push_sln.
rewrite [sln_vector _]/= mix_vectorsE size_cat size_mkseq size_drop.
by rewrite push_sln [dimension _]/= dim_p sz_s subnn addn0.
Qed.

Lemma work_size_sln x s :
  size (sln_vector s) = dimension s -> size x = dimension s ->
  size (sln_vector (work x s)) = dimension s.
Proof.
move=> sz_s sz_x; rewrite /step_work /= /accept_iterate.
rewrite hpv_size_sln /= ?sls_dimension // memcpy_full ?sls_sln ?sls_dimension //.
Qed.

Lemma work_off x s :
  anderson_is_on cfg = false ->
  size (sln_vector s) = dimension s -> size x = dimension s ->
  sln_vector (work x s) = x /\ anderson_view (work x s) = anderson_view (set_sln_vector x s).
Proof.
move=> off sz_s sz_x.
have acceptE : accept x (solve_linear_system cfg s)
               = set_sln_vector x (solve_linear_system cfg s).
  rewrite /accept_iterate /handle_previous_vectors off.
  by rewrite calculate_error_full ?sls_sln ?sls_dimension.
split; first by rewrite work_sln /accept_iterate /handle_previous_vectors off
                  calculate_error_full.
rewrite work_view acceptE /anderson_view /=.
by have [[-> _ -> -> ->] [-> _ _ _]] := anderson_viewP cfg (sls_view cfg s).
Qed.

End VectorLemmas.

Section VectorRuns.

Variable R : comRingType.
Variable ludcmp : seq (seq R) -> nat -> seq (seq R) * seq nat * int.
Variable lubksb : seq (seq R) -> nat -> seq nat -> seq R -> seq R.
Variable uninit : R.
Variable cfg : config R.

Implicit Type s : state R.

Local Notation k := (capacity cfg).
Local Notation accept := (accept_iterate ludcmp lubksb cfg).
Local Notation work := (step_work ludcmp lubksb cfg).
Local Notation entry := (solve_entry ludcmp lubksb uninit cfg).
Local Notation run := (run_steps ludcmp lubksb cfg).
Local Notation start := (start_state uninit cfg).

Lemma start_vectors arg dim s :
  size (initial_iterate arg dim) = dim ->
  [/\ dimension (start arg dim s) = dim,
      sln_vector (start arg dim s) = initial_iterate arg dim,
      coeff_vec (start arg dim s) = initial_iterate arg dim
    & it (start arg dim s) = 1%N].
Proof.
move=> sz_x0; have [dim_b sln_b] := init_body_view uninit s sz_x0.
have [dim_a sln_a cv_a _ _] :=
  init_anderson_frame uninit cfg (init_solving_body uninit arg dim s).
rewrite /start_state /= dim_a sln_a cv_a dim_b sln_b; split=> //.
by rewrite /init_solving_body; case: (arg) => [v|]; case: ifP.
Qed.

Lemma start_off arg dim s :
  anderson_is_on cfg = false ->
  [/\ previous_vectors (start arg dim s) = previous_vectors s,
      rows (start arg dim s) = rows s
    & anderson_coeffs (start arg dim s) = anderson_coeffs s].
Proof.
move=> off; rewrite /start_state /= init_anderson_off // /init_solving_body.
by case: (arg) => [v|]; case: ifP.
Qed.

Hypothesis num_ok : 2 <= num_last_vectors_used cfg.
Hypothesis base_ok : base_isOkay cfg.

Lemma run_vectors arg dim first steps s0 :
  size (initial_iterate arg dim) = dim ->
  initial_continuing first -> all (@continuing R) steps ->
  all (fun e => size (in_new_sln e) == dim) (first :: steps) ->
  let s := run steps (final_state (entry arg dim first s0)) in
  [/\ dimension s = dim, size (sln_vector s) = dim, coeff_vec s = sln_vector s
    & it s = (size steps).+2].
Proof.
move=> sz_x0 cont_first cont_steps /= /andP [/eqP sz_first sz_steps].
have [dim_0 sln_0 cv_0 it_0] := start_vectors s0 sz_x0.
elim/last_ind: steps cont_steps sz_steps => [|steps e IH] /=.
  move=> _ _; rewrite entry_continue // final_state_Val.
  have dim_w := work_dimension ludcmp lubksb cfg (in_new_sln first) (start arg dim s0).
  have sz_w : size (sln_vector (work (in_new_sln first) (start arg dim s0))) = dim.
    by rewrite work_size_sln ?dim_0 ?sln_0.
  rewrite /next_iteration /renew_coeff_vec /= dim_w dim_0 work_it // it_0.
  by split=> //; rewrite memcpy_full // work_coeff_vec cv_0.
rewrite !all_rcons size_rcons => /andP [cont_e cont_steps] /andP [/eqP sz_e sz_steps].
have [dim_r sz_r cv_r it_r] := IH cont_steps sz_steps.
rewrite /run_steps -cats1 foldl_cat /= -/(run steps _).
set s_r := run steps _ in dim_r sz_r cv_r it_r *.
rewrite body_continue // final_state_Val.
have dim_w := work_dimension ludcmp lubksb cfg (in_new_sln e) (log OnStepBegin s_r).
have sz_w : size (sln_vector (work (in_new_sln e) (log OnStepBegin s_r))) = dim.
  by rewrite work_size_sln /= ?dim_r.
rewrite /next_iteration /renew_coeff_vec /= dim_w /= dim_r work_it /= it_r.
by split=> //; rewrite memcpy_full // work_coeff_vec /= cv_r.
Qed.

(** Without acceleration every pass takes over the vector of the linear
    solver as it is and leaves the acceleration buffers alone. *)
Lemma run_plain arg dim first steps s0 :
  anderson_is_on cfg = false ->
  size (initial_iterate arg dim) = dim ->
  initial_continuing first -> all (@continuing R) steps ->
  all (fun e => size (in_new_sln e) == dim) (first :: steps) ->
  let s := run steps (final_state (entry arg dim first s0)) in
  [/\ sln_vector s = in_new_sln (last first steps),
      previous_vectors s = previous_vectors s0, rows s = rows s0
    & anderson_coeffs s = anderson_coeffs s0].
Proof.
move=> off sz_x0 cont_first cont_steps sz_all /=.
have [pv_0 rows_0 co_0] := start_off arg dim s0 off.
have [dim_0 sln_0 _ _] := start_vectors s0 sz_x0.
elim/last_ind: steps cont_steps sz_all => [|steps e IH] /=.
  move=> _ /andP [/eqP sz_first _]; rewrite entry_continue // final_state_Val.
  have [|| sln_w view_w] :=
    work_off ludcmp lubksb (x := in_new_sln first) (s := start arg dim s0) off;
    rewrite ?dim_0 ?sln_0 //.
  rewrite /next_iteration /renew_coeff_vec /= sln_w.
  by have [[_ _ -> -> ->] _] := anderson_viewP cfg view_w.
rewrite !all_rcons last_rcons.
move=> /andP [cont_e cont_steps] /andP [sz_first /andP [/eqP sz_e sz_rest]].
have sz_steps : all (fun e => size (in_new_sln e) == dim) (first :: steps).
  by rewrite /= sz_first.
have [sln_r pv_r rows_r co_r] := IH cont_steps sz_steps.
have [dim_r sz_r _ _] := run_vectors s0 sz_x0 cont_first cont_steps sz_steps.
rewrite /run_steps -cats1 foldl_cat /= -/(run steps _).
set s_r := run steps _ in dim_r sz_r sln_r pv_r rows_r co_r *.
rewrite body_continue // final_state_Val.
have [|| sln_w view_w] :=
  work_off ludcmp lubksb (x := in_new_sln e) (s := log OnStepBegin s_r) off;
  rewrite /= ?dim_r //.
rewrite /next_iteration /renew_coeff_vec /= sln_w.
by have [[_ _ -> -> ->] _] := anderson_viewP cfg view_w.
Qed.

End VectorRuns.

(** ** Acceleration switched off *)

Section PlainLemmas.

Variable R : comRingType.
Variables ludcmp ludcmp' : seq (seq R) -> nat -> seq (seq R) * seq nat * int.
Variables lubksb lubksb' : seq (seq R) -> nat -> seq nat -> seq R -> seq R.
Variable uninit : R.
Variables cfg cfg' : config R.

Implicit Type s : state R.

Hypothesis off : anderson_is_on cfg = false.
Hypothesis off' : anderson_is_on cfg' = false.
Hypothesis same_jacobian : constant_jacobian cfg' = constant_jacobian cfg.

Lemma body_off e s :
  loop_body ludcmp' lubksb' cfg' e s = loop_body ludcmp lubksb cfg e s.
Proof.
rewrite /loop_body /bind /exec /handle_previous_vectors off off'.
by rewrite /solve_linear_system same_jacobian.
Qed.

Lemma main_loop_off script s :
  main_loop ludcmp' lubksb' cfg' script s = main_loop ludcmp lubksb cfg script s.
Proof.
elim: script s => [|e script IH] s //=; rewrite body_off.
by case: (loop_body ludcmp lubksb cfg e s) => [[] s'|x s'].
Qed.

Hypothesis num_ok : 2 <= num_last_vectors_used cfg.
Hypothesis num_ok' : 2 <= num_last_vectors_used cfg'.
Hypothesis same_base : base_isOkay cfg' = base_isOkay cfg.

Lemma entry_off arg dim e s :
  solve_entry ludcmp' lubksb' uninit cfg' arg dim e s
  = solve_entry ludcmp lubksb uninit cfg arg dim e s.
Proof.
rewrite /solve_entry /init_solving /check /bind !isOkay_ge2 // same_base.
case: (base_isOkay cfg) => //.
rewrite /exec /ret /do_initial_step_return_finished /bind /exec.
rewrite /init_anderson off off' /handle_previous_vectors off off'.
by rewrite /solve_linear_system same_jacobian.
Qed.

Lemma solve_off arg dim first script s :
  solve ludcmp' lubksb' uninit cfg' arg dim first script s
  = solve ludcmp lubksb uninit cfg arg dim first script s.
Proof.
rewrite /solve entry_off.
case: (solve_entry ludcmp lubksb uninit cfg arg dim first s) => [[] s'|x s'] //.
exact: main_loop_off.
Qed.

End PlainLemmas.

(** ** The event log, the counters and the heap over whole runs *)

Section TraceLemmas.

Variable R : comRingType.
Variable ludcmp : seq (seq R) -> nat -> seq (seq R) * seq nat * int.
Variable lubksb : seq (seq R) -> nat -> seq nat -> seq R -> seq R.
Variable uninit : R.
Variable cfg : config R.

Implicit Type s : state R.
Implicit Type e : step_input R.

Local Notation hpv := (handle_previous_vectors ludcmp lubksb cfg).
Local Notation body := (loop_body ludcmp lubksb cfg).
Local Notation initial := (do_initial_step_return_finished ludcmp lubksb cfg).
Local Notation work := (step_work ludcmp lubksb cfg).
Local Notation start := (start_state uninit cfg).
Local Notation entry := (solve_entry ludcmp lubksb uninit cfg).
Local Notation run := (run_steps ludcmp lubksb cfg).
Local Notation reuse s := (jacobian_reusable s && constant_jacobian cfg).

Lemma trace_log (ev : event) s : trace (log ev s) = trace s ++ [:: ev].
Proof. by rewrite /= cats1. Qed.

Lemma trace_finalize s : trace (finalize_solving s) = trace s ++ finalize_events.
Proof.
by rewrite /finalize_solving /deinit_solving /=; case: ifP => _ /=;
  rewrite -!cats1 -!catA.
Qed.

Lemma trace_sls s :
  trace (solve_linear_system cfg s) = trace s ++ linear_solve_events (reuse s).
Proof.
by rewrite /solve_linear_system /linear_solve_events; case: ifP => _ /=;
  rewrite -!cats1 -!catA.
Qed.

Lemma trace_hpv s : trace (hpv s) = trace s.
Proof. by have [_ [_ _ _ ->]] := outside_historyP (hpv_outside ludcmp lubksb cfg s). Qed.

Lemma trace_calculate_error x s : trace (calculate_error x s) = trace s.
Proof. by []. Qed.

Lemma jr_calculate_error x s :
  jacobian_reusable (calculate_error x s) = jacobian_reusable s.
Proof. by []. Qed.

Lemma jr_log (ev : event) s : jacobian_reusable (log ev s) = jacobian_reusable s.
Proof. by []. Qed.

Lemma trace_work x s :
  trace (work x s) = trace s ++ linear_solve_events (reuse s) ++ [:: StepInfo].
Proof.
by rewrite /step_work trace_log /accept_iterate trace_hpv trace_calculate_error
  trace_sls catA.
Qed.

Lemma jr_hpv s : jacobian_reusable (hpv s) = jacobian_reusable s.
Proof. by have [[_ _ _ ->] _] := outside_historyP (hpv_outside ludcmp lubksb cfg s). Qed.

Lemma jr_sls s : jacobian_reusable (solve_linear_system cfg s).
Proof.
rewrite /solve_linear_system; case: ifP => [/andP [jr _]|_] //=.
Qed.

Lemma jr_work x s : jacobian_reusable (work x s).
Proof. by rewrite /step_work jr_log /accept_iterate jr_hpv jr_calculate_error jr_sls. Qed.

Lemma jr_finalize s : jacobian_reusable (finalize_solving s) = jacobian_reusable s.
Proof. by rewrite /finalize_solving /deinit_solving /=; case: ifP. Qed.

Lemma it_finalize s : it (finalize_solving s) = it s.
Proof. by rewrite /finalize_solving /deinit_solving /=; case: ifP. Qed.

Lemma trace_start arg dim s :
  trace (start arg dim s) = trace s ++ [:: Tick; OnInitialization].
Proof.
rewrite /start_state /=.
have [_ _ _ _ ->] := init_anderson_frame uninit cfg (init_solving_body uninit arg dim s).
by rewrite /init_solving_body; case: (arg) => [v|]; case: ifP => _ /=;
  rewrite -!cats1 -!catA.
Qed.

Lemma jr_start arg dim s : jacobian_reusable (start arg dim s) = jacobian_reusable s.
Proof.
rewrite /start_state /= /init_anderson; case: ifP => _; last first.
  by rewrite /init_solving_body; case: (arg) => [v|]; case: ifP.
rewrite init_rows_loop /=.
by rewrite /init_solving_body; case: (arg) => [v|]; case: ifP.
Qed.

(** One pass through the loop body: what it logs, and what it leaves in the
    counters, in the reuse flag and on the heap. *)
Lemma trace_renew s : trace (renew_coeff_vec s) = trace s.
Proof. by []. Qed.

Lemma trace_next s : trace (next_iteration s) = trace s.
Proof. by []. Qed.

Lemma body_trace e s :
  trace (final_state (body e s)) = trace s ++ pass_events (reuse s) e.
Proof.
rewrite /pass_events; case begin_e: (in_step_begin e); last first.
  by rewrite body_begin_abort // final_state_Val trace_finalize 2!trace_log -!catA.
rewrite /verdict_events; case st: (in_state e).
- rewrite body_converged // final_state_Val trace_log trace_finalize trace_work.
  by rewrite trace_log jr_log -!catA.
- case end_e: (in_step_end e).
    rewrite body_continue ?final_state_Val /continuing ?begin_e ?st ?end_e //.
    by rewrite trace_renew trace_next trace_log trace_work trace_log jr_log -!catA.
  rewrite body_end_abort ?st // final_state_Val trace_finalize 2!trace_log trace_work.
  by rewrite trace_log jr_log -!catA.
- rewrite body_above_max // final_state_Throw trace_finalize trace_work trace_log.
  by rewrite jr_log -!catA.
- rewrite body_error // final_state_Throw trace_finalize trace_work trace_log.
  by rewrite jr_log -!catA.
- rewrite body_other // final_state_Throw trace_finalize trace_work trace_log.
  by rewrite jr_log -!catA.
Qed.

Lemma delete_log (ev : event) s : delete_coeff_vec (log ev s) = delete_coeff_vec s.
Proof. by []. Qed.

Lemma it_start arg dim s : it (start arg dim s) = 1%N.
Proof. by []. Qed.

Lemma body_state e s :
  let f := final_state (body e s) in
  [/\ jacobian_reusable f = in_step_begin e || jacobian_reusable s,
      it f = (if continuing e then (it s).+1 else it s),
      continuing e = false -> num_iters f = it s,
      heap f = (if continuing e || ~~ delete_coeff_vec s then heap s
                else release BlkCoeffVec (heap s))
    & delete_coeff_vec f = continuing e && delete_coeff_vec s].
Proof.
rewrite /continuing; case begin_e: (in_step_begin e) => /=; last first.
  rewrite body_begin_abort // final_state_Val jr_finalize it_finalize.
  rewrite finalize_num_iters finalize_heap finalize_delete 2!jr_log 2!it_log.
  by rewrite 2!heap_log 2!delete_log; split=> //; case: (delete_coeff_vec s).
case st: (in_state e) => /=.
- rewrite body_converged // final_state_Val jr_log jr_finalize jr_work.
  rewrite it_log it_finalize work_it it_log heap_log finalize_heap work_heap heap_log.
  rewrite work_delete delete_log.
  have -> : num_iters (log InfoDone (finalize_solving (work (in_new_sln e) (log OnStepBegin s))))
            = it s by rewrite /= finalize_num_iters work_it.
  by split=> //; rewrite ?finalize_delete //; case: (delete_coeff_vec s).
- case end_e: (in_step_end e).
    rewrite body_continue ?final_state_Val /continuing ?begin_e ?st ?end_e //.
    rewrite /renew_coeff_vec /next_iteration /= jr_work work_it work_heap work_delete.
    by split.
  rewrite body_end_abort ?st // final_state_Val jr_finalize 2!jr_log jr_work.
  rewrite it_finalize 2!it_log work_it it_log finalize_num_iters 2!it_log work_it it_log.
  rewrite finalize_heap finalize_delete 2!heap_log work_heap heap_log 2!delete_log.
  by rewrite work_delete delete_log; split=> //; case: (delete_coeff_vec s).
- rewrite body_above_max // final_state_Throw jr_finalize jr_work.
  rewrite it_finalize work_it it_log finalize_num_iters work_it it_log.
  rewrite finalize_heap finalize_delete work_heap heap_log work_delete delete_log.
  by split=> //; case: (delete_coeff_vec s).
- rewrite body_error // final_state_Throw jr_finalize jr_work.
  rewrite it_finalize work_it it_log finalize_num_iters work_it it_log.
  rewrite finalize_heap finalize_delete work_heap heap_log work_delete delete_log.
  by split=> //; case: (delete_coeff_vec s).
- rewrite body_other // final_state_Throw jr_finalize jr_work.
  rewrite it_finalize work_it it_log finalize_num_iters work_it it_log.
  rewrite finalize_heap finalize_delete work_heap heap_log work_delete delete_log.
  by split=> //; case: (delete_coeff_vec s).
Qed.

End TraceLemmas.

Section SolveLemmas.

Variable R : comRingType.
Variable ludcmp : seq (seq R) -> nat -> seq (seq R) * seq nat * int.
Variable lubksb : seq (seq R) -> nat -> seq nat -> seq R -> seq R.
Variable uninit : R.
Variable cfg : config R.

Implicit Type s : state R.
Implicit Type e : step_input R.

Local Notation body := (loop_body ludcmp lubksb cfg).
Local Notation initial := (do_initial_step_return_finished ludcmp lubksb cfg).
Local Notation work := (step_work ludcmp lubksb cfg).
Local Notation start := (start_state uninit cfg).
Local Notation entry := (solve_entry ludcmp lubksb uninit cfg).
Local Notation run := (run_steps ludcmp lubksb cfg).
Local Notation reuse s := (jacobian_reusable s && constant_jacobian cfg).

Hypothesis num_ok : 2 <= num_last_vectors_used cfg.
Hypothesis base_ok : base_isOkay cfg.

(** [solve] up to the loop, in each of its outcomes. *)
Lemma entry_cases arg dim e s :
  let w := renew_coeff_vec (work (in_new_sln e) (start arg dim s)) in
  entry arg dim e s
  = match in_state e with
    | NotConverged =>
        if in_step_end e then Val false (next_iteration (log OnInitialStepEnd w))
        else Val true (finalize_solving (log InfoAborted (log OnInitialStepEnd w)))
    | Converged =>
        Val true
          (finalize_solving (log InfoAborted (log InfoDone (finalize_solving w))))
    | AboveMaxIterations =>
        Throw bool (NonlinearException AboveMaxIterations) (finalize_solving w)
    | Error => Throw bool UnknownException (finalize_solving w)
    | OtherState => Throw bool UnknownConvergenceState (finalize_solving w)
    end.
Proof.
rewrite /= entry_initial //; case st: (in_state e).
- by rewrite initial_converged.
- by rewrite initial_not_converged ?st //; case: (in_step_end e).
- by rewrite initial_above_max.
- by rewrite initial_error.
- by rewrite initial_other.
Qed.

Lemma entry_trace arg dim e s :
  trace (final_state (entry arg dim e s))
  = trace s ++ [:: Tick; OnInitialization] ++ initial_events (reuse s) e.
Proof.
rewrite entry_cases /initial_events /verdict_events.
have trace_w : trace (renew_coeff_vec (work (in_new_sln e) (start arg dim s)))
               = trace s ++ [:: Tick; OnInitialization]
                 ++ linear_solve_events (reuse s) ++ [:: StepInfo].
  by rewrite trace_renew trace_work trace_start jr_start -!catA.
case: (in_state e); rewrite ?final_state_Val ?final_state_Throw.
- by rewrite trace_finalize 2!trace_log trace_finalize trace_w -!catA /=.
- case: (in_step_end e); rewrite final_state_Val.
    by rewrite trace_next trace_log trace_w -!catA /= ?cats0.
  by rewrite trace_finalize 2!trace_log trace_w -!catA /= ?cats0.
- by rewrite trace_finalize trace_w -!catA /= ?cats0.
- by rewrite trace_finalize trace_w -!catA /= ?cats0.
- by rewrite trace_finalize trace_w -!catA /= ?cats0.
Qed.

Lemma entry_state arg dim e s :
  let f := final_state (entry arg dim e s) in
  [/\ jacobian_reusable f,
      it f = (if initial_continuing e then 2 else 1)%N,
      initial_continuing e = false -> num_iters f = 1%N,
      heap f = (if initial_continuing e || ~~ delete_coeff_vec (start arg dim s)
                then heap (start arg dim s)
                else release BlkCoeffVec (heap (start arg dim s)))
    & delete_coeff_vec f = initial_continuing e && delete_coeff_vec (start arg dim s)].
Proof.
cbv zeta; rewrite entry_cases /initial_continuing.
set w := renew_coeff_vec _.
have jr_w : jacobian_reusable w by rewrite /w /renew_coeff_vec /= jr_work.
have it_w : it w = 1%N by rewrite /w /renew_coeff_vec /= work_it.
have heap_w : heap w = heap (start arg dim s) by rewrite /w heap_renew work_heap.
have del_w : delete_coeff_vec w = delete_coeff_vec (start arg dim s).
  by rewrite /w /renew_coeff_vec /= work_delete.
rewrite /not_converged.
move: heap_w del_w.
move: (heap (start arg dim s)) (delete_coeff_vec (start arg dim s)) => h d heap_w del_w.
case: (in_state e); rewrite ?andTb ?andFb ?orFb ?final_state_Val ?final_state_Throw.
- rewrite jr_finalize 2!jr_log jr_finalize jr_w it_finalize 2!it_log it_finalize it_w.
  rewrite finalize_num_iters 2!it_log it_finalize it_w finalize_delete.
  rewrite finalize_heap 2!delete_log finalize_delete 2!heap_log finalize_heap.
  by rewrite heap_w del_w; split=> //; case: (d).
- case: (in_step_end e); rewrite final_state_Val.
    by rewrite /next_iteration /= jr_w it_w heap_w del_w.
  rewrite jr_finalize 2!jr_log jr_w it_finalize 2!it_log it_w.
  rewrite finalize_num_iters 2!it_log it_w finalize_delete finalize_heap.
  by rewrite 2!delete_log 2!heap_log heap_w del_w; split=> //; case: (d).
- rewrite jr_finalize jr_w it_finalize it_w finalize_num_iters it_w finalize_delete.
  by rewrite finalize_heap heap_w del_w; split=> //; case: (d).
- rewrite jr_finalize jr_w it_finalize it_w finalize_num_iters it_w finalize_delete.
  by rewrite finalize_heap heap_w del_w; split=> //; case: (d).
- rewrite jr_finalize jr_w it_finalize it_w finalize_num_iters it_w finalize_delete.
  by rewrite finalize_heap heap_w del_w; split=> //; case: (d).
Qed.

(** Which answers make the loop go round again. *)
Lemma body_goes_on e s :
  (if body e s is Val false _ then true else false) = continuing e.
Proof. by case: e => -[] x [] []. Qed.

Lemma entry_goes_on arg dim e s :
  (if entry arg dim e s is Val false _ then true else false) = initial_continuing e.
Proof.
by rewrite entry_cases /initial_continuing; case: (in_state e) => //=; case: ifP.
Qed.

Lemma main_loop_ends script s :
  isSome (main_loop ludcmp lubksb cfg script s) = ~~ all (@continuing R) script.
Proof.
elim: script s => [|e script IH] s //=.
by have := body_goes_on e s; case: (body e s) => [[] s'|x s'] /= <-.
Qed.

Lemma solve_ends arg dim first script s :
  isSome (solve ludcmp lubksb uninit cfg arg dim first script s)
  = ~~ (initial_continuing first && all (@continuing R) script).
Proof.
rewrite /solve; have := entry_goes_on arg dim first s.
case: (entry arg dim first s) => [[] s'|x s'] /= <- //.
exact: main_loop_ends.
Qed.

(** *** The heap *)

Lemma main_loop_heap script s r :
  main_loop ludcmp lubksb cfg script s = Some r ->
  heap (final_state r)
  = (if delete_coeff_vec s then release BlkCoeffVec (heap s) else heap s)
  /\ delete_coeff_vec (final_state r) = false.
Proof.
elim: script s => [|e script IH] s //=.
have [_ _ _ heap_e del_e] := body_state ludcmp lubksb cfg e s.
move: heap_e del_e; have := body_goes_on e s.
case: (body e s) => [[] s'|x s'] /= <- /= heap_e del_e.
- by case=> <- /=; rewrite heap_e del_e; case: (delete_coeff_vec s).
- by move/IH; rewrite heap_e del_e.
- by case=> <- /=; rewrite heap_e del_e; case: (delete_coeff_vec s).
Qed.

Lemma solve_heap arg dim first script s r :
  solve ludcmp lubksb uninit cfg arg dim first script s = Some r ->
  heap (final_state r)
  = (if delete_coeff_vec (start arg dim s) then release BlkCoeffVec (heap (start arg dim s))
     else heap (start arg dim s))
  /\ delete_coeff_vec (final_state r) = false.
Proof.
rewrite /solve.
have [_ _ _ heap_e del_e] := entry_state arg dim first s.
move: heap_e del_e; have := entry_goes_on arg dim first s.
move: (heap (start arg dim s)) (delete_coeff_vec (start arg dim s)) => h d.
case: (entry arg dim first s) => [[] s'|x s'] /= <- /= heap_e del_e.
- by case=> <- /=; rewrite heap_e del_e; case: (d).
- by move/main_loop_heap; rewrite heap_e del_e.
- by case=> <- /=; rewrite heap_e del_e; case: (d).
Qed.

End SolveLemmas.

(** ** The heap *)

Section HeapLemmas.

Lemma block_eqb_refl (b : block) : block_eqb b b.
Proof. by case: b => //= i. Qed.

Lemma release_not_live (b : block) (h : seq block) : ~~ is_live b h -> release b h = h.
Proof.
by elim: h => [|a h IH] //=; rewrite negb_or => /andP [/negbTE -> /IH ->].
Qed.

Lemma release_cat (b : block) (l t : seq block) :
  ~~ is_live b l -> release b (l ++ t) = l ++ release b t.
Proof.
by elim: l => [|a l IH] //=; rewrite negb_or => /andP [/negbTE -> /IH ->].
Qed.

Lemma release_head (b : block) (t : seq block) : release b (b :: t) = t.
Proof. by rewrite /= block_eqb_refl. Qed.

Lemma live_rows (b : block) (l : seq nat) :
  is_live b (rev [seq BlkRow i | i <- l]) = has (fun i => block_eqb b (BlkRow i)) l.
Proof. by rewrite /is_live has_rev has_map. Qed.

(** Releasing the rows [0 .. m-1] one after the other removes exactly the
    rows that were allocated last. *)
Lemma release_rows (p t : seq block) (m : nat) :
  (forall i, (i < m)%N -> ~~ is_live (BlkRow i) p) ->
  foldl (fun h i => release (BlkRow i) h) (p ++ rev [seq BlkRow i | i <- iota 0 m] ++ t)
    (iota 0 m)
  = p ++ t.
Proof.
elim: m p => [|m IH] p free //.
rewrite -addn1 iotaD map_cat rev_cat foldl_cat /= add0n.
have -> : p ++ BlkRow m :: rev [seq BlkRow i | i <- iota 0 m] ++ t
          = rcons p (BlkRow m) ++ rev [seq BlkRow i | i <- iota 0 m] ++ t.
  by rewrite cat_rcons.
rewrite IH; last by rewrite cat_rcons release_cat ?free // release_head.
move=> i lt_i; have lt_i' : (i < m.+1)%N by rewrite ltnS ltnW.
by rewrite /is_live has_rcons negb_or -/(is_live _ _) free //= andbT neq_ltn lt_i.
Qed.

End HeapLemmas.

Section HeapOfSolve.

Variable R : comRingType.
Variable ludcmp : seq (seq R) -> nat -> seq (seq R) * seq nat * int.
Variable lubksb : seq (seq R) -> nat -> seq nat -> seq R -> seq R.
Variable uninit : R.
Variable cfg : config R.

Implicit Type s : state R.

Local Notation k := (capacity cfg).
Local Notation start := (start_state uninit cfg).

Lemma dealloc_loop_heap (l : seq nat) s :
  heap (foldl (fun s i => dealloc (BlkRow i) s) s l)
  = foldl (fun h i => release (BlkRow i) h) (heap s) l.
Proof. by elim: l s => [|i l IH] s //=; rewrite IH. Qed.

Lemma deinit_init_heap s :
  heap (deinit_anderson cfg (init_anderson uninit cfg s)) = heap s.
Proof.
rewrite /deinit_anderson; case on: (anderson_is_on cfg); last first.
  by rewrite init_anderson_off.
rewrite /for_loop subn0 /= dealloc_loop_heap init_anderson_heap on.
by rewrite -[BlkCoeffs :: _]/([:: BlkCoeffs] ++ _) release_rows.
Qed.

Lemma init_body_heap arg dim s :
  heap (init_solving_body uninit arg dim s)
  = (if arg is None then [:: BlkCoeffVec] else [::])
    ++ BlkSlnVector :: release BlkSlnVector (heap s)
  /\ delete_coeff_vec (init_solving_body uninit arg dim s) = ~~ isSome arg.
Proof.
rewrite /init_solving_body; case: arg => [v|]; case: ifP => [//|/negbT live] /=;
  by rewrite release_not_live.
Qed.

Lemma start_heap arg dim s :
  heap (start arg dim s)
  = (if anderson_is_on cfg
     then BlkCoeffs :: rev [seq BlkRow i | i <- iota 0 k] ++ [:: BlkRowTable]
     else [::])
    ++ (if arg is None then [:: BlkCoeffVec] else [::])
    ++ BlkSlnVector :: release BlkSlnVector (heap s)
  /\ delete_coeff_vec (start arg dim s) = ~~ isSome arg.
Proof.
have [heap_b del_b] := init_body_heap arg dim s.
have [_ _ _ del_a _] := init_anderson_frame uninit cfg (init_solving_body uninit arg dim s).
rewrite /start_state /= del_a del_b init_anderson_heap heap_b; split=> //.
by case: ifP => // _; rewrite /= -!catA.
Qed.

End HeapOfSolve.

(** ** Where a run ends, and what it has counted by then *)

Section EndLemmas.

Variable R : comRingType.
Variable ludcmp : seq (seq R) -> nat -> seq (seq R) * seq nat * int.
Variable lubksb : seq (seq R) -> nat -> seq nat -> seq R -> seq R.
Variable uninit : R.
Variable cfg : config R.

Implicit Type s : state R.
Implicit Type e : step_input R.

Local Notation body := (loop_body ludcmp lubksb cfg).
Local Notation start := (start_state uninit cfg).
Local Notation entry := (solve_entry ludcmp lubksb uninit cfg).
Local Notation run := (run_steps ludcmp lubksb cfg).

Lemma final_ending (r : res R bool) : final_state (ending r) = final_state r.
Proof. by case: r. Qed.

Lemma count_pass_events (r : bool) e :
  [/\ count is_matrix_solve (pass_events r e) = in_step_begin e,
      count is_assemble (pass_events r e) = in_step_begin e && ~~ r
    & count is_assemble_residual (pass_events r e) = in_step_begin e && r].
Proof. by case: e => -[] x [] []; case: r. Qed.

Lemma count_initial_events (r : bool) e :
  [/\ count is_matrix_solve (initial_events r e) = 1%N,
      count is_assemble (initial_events r e) = ~~ r
    & count is_assemble_residual (initial_events r e) = r].
Proof. by case: e => b x [] []; case: r. Qed.

Lemma run_it steps s :
  all (@continuing R) steps -> it (run steps s) = (it s + size steps)%N.
Proof.
elim: steps s => [|e steps IH] s /=; first by rewrite addn0.
case/andP => cont_e cont_steps; rewrite -/(run steps _) IH //.
have [_ -> _ _ _] := body_state ludcmp lubksb cfg e s.
by rewrite cont_e addSnnS.
Qed.

Lemma main_loop_cons e script s :
  main_loop ludcmp lubksb cfg (e :: script) s
  = match body e s with
    | Val true s' => Some (Val tt s')
    | Val false s' => main_loop ludcmp lubksb cfg script s'
    | Throw x s' => Some (Throw unit x s')
    end.
Proof. by []. Qed.

Hypothesis num_ok : 2 <= num_last_vectors_used cfg.
Hypothesis base_ok : base_isOkay cfg.

Lemma stop_in_loop arg dim first steps e rest s0 :
  initial_continuing first -> all (@continuing R) steps -> ~~ continuing e ->
  solve ludcmp lubksb uninit cfg arg dim first (steps ++ e :: rest) s0
  = Some (ending (body e (run steps (final_state (entry arg dim first s0))))).
Proof.
move=> cont_first cont_steps /negbTE stop.
rewrite /solve entry_continue // main_loop_continue // final_state_Val main_loop_cons.
set s_b := run steps _.
by have := body_goes_on ludcmp lubksb cfg e s_b; rewrite stop;
  case: (body e s_b) => [[] s'|x s'].
Qed.

Lemma stop_at_once arg dim first script s0 :
  ~~ initial_continuing first ->
  solve ludcmp lubksb uninit cfg arg dim first script s0
  = Some (ending (entry arg dim first s0)).
Proof.
move=> /negbTE stop; rewrite /solve.
by have := entry_goes_on ludcmp lubksb uninit num_ok base_ok arg dim first s0;
  rewrite stop; case: (entry arg dim first s0) => [[] s'|x s'].
Qed.

(** *** Assemblies *)

Lemma main_loop_assembles script s r :
  jacobian_reusable s -> main_loop ludcmp lubksb cfg script s = Some r ->
  jacobian_reusable (final_state r)
  /\ exists m,
       [/\ count is_matrix_solve (trace (final_state r))
           = (count is_matrix_solve (trace s) + m)%N,
           count is_assemble (trace (final_state r))
           = (count is_assemble (trace s) + (if constant_jacobian cfg then 0 else m))%N
         & count is_assemble_residual (trace (final_state r))
           = (count is_assemble_residual (trace s)
              + (if constant_jacobian cfg then m else 0))%N].
Proof.
elim: script s => [|e script IH] s //= jr_s.
have [jr_e _ _ _ _] := body_state ludcmp lubksb cfg e s.
have tr_e := body_trace ludcmp lubksb cfg e s.
have [ms_e as_e ar_e] := count_pass_events (jacobian_reusable s && constant_jacobian cfg) e.
have counts :
    [/\ count is_matrix_solve (trace (final_state (body e s)))
        = (count is_matrix_solve (trace s) + in_step_begin e)%N,
        count is_assemble (trace (final_state (body e s)))
        = (count is_assemble (trace s)
           + (if constant_jacobian cfg then 0 else in_step_begin e))%N
      & count is_assemble_residual (trace (final_state (body e s)))
        = (count is_assemble_residual (trace s)
           + (if constant_jacobian cfg then in_step_begin e : nat else 0))%N].
  rewrite tr_e (count_cat is_matrix_solve (trace s)) (count_cat is_assemble (trace s))
    (count_cat is_assemble_residual (trace s)) ms_e as_e ar_e jr_s /=.
  by split=> //; case: (constant_jacobian cfg); rewrite ?andbT ?andbF.
have jr_f : jacobian_reusable (final_state (body e s)) by rewrite jr_e jr_s orbT.
move: counts jr_f; case: (body e s) => [[] s'|x s'] /= [ms as_ ar] jr_f.
- by case=> <-; split=> //; exists (in_step_begin e : nat).
- move/(IH _ jr_f) => [jr_r [m [ms_r as_r ar_r]]]; split=> //.
  exists (in_step_begin e + m)%N; rewrite ms_r as_r ar_r ms as_ ar.
  by split; rewrite -?addnA //; case: (constant_jacobian cfg).
- by case=> <-; split=> //; exists (in_step_begin e : nat).
Qed.

Lemma solve_assembles arg dim first script s0 r :
  solve ludcmp lubksb uninit cfg arg dim first script s0 = Some r ->
  jacobian_reusable (final_state r)
  /\ exists m,
       [/\ count is_matrix_solve (trace (final_state r))
           = (count is_matrix_solve (trace s0) + m.+1)%N,
           count is_assemble (trace (final_state r))
           = (count is_assemble (trace s0)
              + (if constant_jacobian cfg then ~~ jacobian_reusable s0 : nat else m.+1))%N
         & count is_assemble_residual (trace (final_state r))
           = (count is_assemble_residual (trace s0)
              + (if constant_jacobian cfg then m + jacobian_reusable s0 else 0))%N].
Proof.
rewrite /solve.
have [jr_e _ _ _ _] := entry_state ludcmp lubksb uninit num_ok base_ok arg dim first s0.
have tr_e := entry_trace ludcmp lubksb uninit num_ok base_ok arg dim first s0.
have [ms_e as_e ar_e] :=
  count_initial_events (jacobian_reusable s0 && constant_jacobian cfg) first.
have counts :
    [/\ count is_matrix_solve (trace (final_state (entry arg dim first s0)))
        = (count is_matrix_solve (trace s0) + 1)%N,
        count is_assemble (trace (final_state (entry arg dim first s0)))
        = (count is_assemble (trace s0)
           + ~~ (jacobian_reusable s0 && constant_jacobian cfg))%N
      & count is_assemble_residual (trace (final_state (entry arg dim first s0)))
        = (count is_assemble_residual (trace s0)
           + (jacobian_reusable s0 && constant_jacobian cfg))%N].
  by rewrite tr_e (count_cat _ (trace s0)) (count_cat _ [:: Tick; OnInitialization])
       (count_cat is_assemble (trace s0)) (count_cat is_assemble [:: Tick; OnInitialization])
       (count_cat is_assemble_residual (trace s0))
       (count_cat is_assemble_residual [:: Tick; OnInitialization])
       ms_e as_e ar_e /= !add0n.
move: counts jr_e; case: (entry arg dim first s0) => [[] s'|x s'] /= [ms as_ ar] jr_e.
- case=> <-; split=> //; exists 0%N; rewrite ms as_ ar /=.
  by split=> //; case: (constant_jacobian cfg); rewrite ?andbT ?andbF.
- move/(main_loop_assembles jr_e) => [jr_r [m [ms_r as_r ar_r]]]; split=> //.
  exists m; rewrite ms_r as_r ar_r ms as_ ar.
  split; rewrite -?addnA ?add1n //; case: (constant_jacobian cfg);
    by rewrite ?andbT ?andbF ?addn0 // [(m + _)%N]addnC.
- case=> <-; split=> //; exists 0%N; rewrite ms as_ ar /=.
  by split=> //; case: (constant_jacobian cfg); rewrite ?andbT ?andbF.
Qed.

End EndLemmas.


Section ProtocolLemmas.

Variable R : comRingType.
Variable ludcmp : seq (seq R) -> nat -> seq (seq R) * seq nat * int.
Variable lubksb : seq (seq R) -> nat -> seq nat -> seq R -> seq R.
Variable cfg : config R.

Implicit Type s : state R.

Local Notation run := (run_steps ludcmp lubksb cfg).

Lemma run_trace steps s :
  jacobian_reusable s -> all (@continuing R) steps ->
  jacobian_reusable (run steps s)
  /\ trace (run steps s)
     = trace s ++ flatten [seq pass_events (constant_jacobian cfg) e | e <- steps].
Proof.
elim: steps s => [|e steps IH] s jr_s /=; first by rewrite cats0.
case/andP => cont_e cont_steps; rewrite -/(run steps _).
have [jr_e _ _ _ _] := body_state ludcmp lubksb cfg e s.
have jr_f : jacobian_reusable (final_state (loop_body ludcmp lubksb cfg e s)).
  by rewrite jr_e jr_s orbT.
have [jr_r ->] := IH _ jr_f cont_steps.
by rewrite body_trace jr_s -catA.
Qed.

End ProtocolLemmas.

Section ScratchLemmas.

Variable R : comRingType.
Variable ludcmp : seq (seq R) -> nat -> seq (seq R) * seq nat * int.
Variable lubksb : seq (seq R) -> nat -> seq nat -> seq R -> seq R.
Variable uninit : R.
Variable cfg : config R.

Implicit Type s : state R.

Local Notation k := (capacity cfg).
Local Notation wf := (wf_history cfg).
Local Notation entry := (solve_entry ludcmp lubksb uninit cfg).
Local Notation run := (run_steps ludcmp lubksb cfg).
Local Notation run_scratch := (run_steps_scratch ludcmp lubksb cfg).

Lemma run_steps_scratch_rcons steps e s (m : seq scratch) :
  run_scratch (rcons steps e) s m
  = loop_body_scratch cfg e (run steps s) (run_scratch steps s m).
Proof.
rewrite /run_steps_scratch /run_steps -cats1 foldl_cat /=.
congr (loop_body_scratch cfg e _ _).
by elim: steps s m => [|e' steps IH] s m //=; rewrite IH.
Qed.

Lemma calculate_anderson_coeffs_scratchE (n : nat) (m : seq scratch) :
  calculate_anderson_coeffs_scratch n m = if n == 2%N then m else ScratchPerm :: m.
Proof. by rewrite /calculate_anderson_coeffs_scratch; case: ifP. Qed.

Lemma push_full_after s :
  (k <= vec_in_memory (push_vector cfg s))%N = (k <= (vec_in_memory s).+1)%N.
Proof.
rewrite /push_vector; case: ltnP => [lt_v|le_v] //=.
by rewrite le_v (leqW le_v).
Qed.

Lemma step_work_scratchE (x : seq R) s (m : seq scratch) :
  anderson_is_on cfg ->
  step_work_scratch cfg x s m
  = if (k <= (vec_in_memory s).+1)%N
    then (if k == 2%N then m else ScratchPerm :: m) else m.
Proof.
move=> on; rewrite /step_work_scratch /handle_previous_vectors_scratch on.
rewrite push_full_after calculate_anderson_coeffs_scratchE.
by rewrite /calculate_error /solve_linear_system; case: (_ && _).
Qed.

Hypothesis num_ok : 2 <= num_last_vectors_used cfg.
Hypothesis base_ok : base_isOkay cfg.
Hypothesis on : anderson_is_on cfg.

Lemma run_vec_in_memory arg dim first steps s0 :
  size (initial_iterate arg dim) = dim ->
  initial_continuing first -> all (@continuing R) steps ->
  all (fun e => size (in_new_sln e) == dim) (first :: steps) ->
  vec_in_memory (run steps (final_state (entry arg dim first s0)))
  = minn k (size steps).+2.
Proof.
move=> sz_x0 cont_first cont_steps sz_all.
have [[wf_r _ st_r _] _] :=
  run_closed ludcmp lubksb uninit num_ok base_ok on s0 sz_x0 cont_first cont_steps sz_all.
by rewrite -(size_stored wf_r) st_r size_lastn /= size_map.
Qed.

Lemma run_scratch_closed arg dim first steps s0 (m : seq scratch) :
  size (initial_iterate arg dim) = dim ->
  initial_continuing first -> all (@continuing R) steps ->
  all (fun e => size (in_new_sln e) == dim) (first :: steps) ->
  run_scratch steps (final_state (entry arg dim first s0))
    (solve_entry_scratch uninit cfg arg dim first s0 m)
  = nseq (if k == 2%N then 0 else (size steps).+3 - k)%N ScratchPerm ++ m.
Proof.
move=> sz_x0 cont_first cont_steps sz_all.
have [_ k_ge2] := capacity_ge2 num_ok.
elim/last_ind: steps cont_steps sz_all => [|steps e IH] cont_steps sz_all.
  rewrite /run_steps_scratch /= /solve_entry_scratch solve_start_ok //.
  have [_ _ vim_0 _] := start_wf uninit num_ok on s0 sz_x0.
  rewrite step_work_scratchE // vim_0.
  case: eqP => [->|/eqP ne2] //=.
  have -> : (k <= 2)%N = false by apply/negbTE; rewrite -ltnNge ltn_neqAle eq_sym ne2.
  by have /eqP -> : (3 - k == 0)%N by rewrite subn_eq0 ltn_neqAle eq_sym ne2.
move: cont_steps sz_all; rewrite all_rcons /= all_rcons.
move=> /andP [cont_e cont_steps] /and3P [sz_first sz_e sz_steps].
have sz_all : all (fun e => size (in_new_sln e) == dim) (first :: steps).
  by rewrite /= sz_first.
rewrite run_steps_scratch_rcons IH // /loop_body_scratch.
have /and3P [-> _ _] := cont_e; rewrite /= step_work_scratchE //.
have -> : vec_in_memory (log OnStepBegin (run steps (final_state (entry arg dim first s0))))
          = minn k (size steps).+2.
  by rewrite -(run_vec_in_memory s0 sz_x0 cont_first cont_steps sz_all).
rewrite size_rcons.
have -> : (k <= (minn k (size steps).+2).+1)%N = (k <= (size steps).+3)%N.
  by case: (ltnP (size steps).+2 k) => [lt_k|le_k] //; rewrite leqnSn (leqW le_k).
case: eqP => [_|_]; first by rewrite if_same.
case: (leqP k (size steps).+3) => [le_k|lt_k].
  by rewrite (subSn le_k).
have /eqP -> : ((size steps).+3 - k == 0)%N by rewrite subn_eq0 ltnW.
by have /eqP -> : ((size steps).+4 - k == 0)%N by rewrite subn_eq0.
Qed.

End ScratchLemmas.

Section AbortLemmas.

Variable R : comRingType.
Variable ludcmp : seq (seq R) -> nat -> seq (seq R) * seq nat * int.
Variable lubksb : seq (seq R) -> nat -> seq nat -> seq R -> seq R.
Variable cfg : config R.

Local Notation run := (run_steps ludcmp lubksb cfg).

Lemma hook_abort_stops (e : step_input R) : hook_abort e -> ~~ continuing e.
Proof. by case: e => -[] x [] []. Qed.

Lemma run_heap steps s :
  all (@continuing R) steps ->
  heap (run steps s) = heap s /\ delete_coeff_vec (run steps s) = delete_coeff_vec s.
Proof.
elim: steps s => [|e steps IH] s //= /andP [cont_e cont_steps].
have [_ _ _ heap_e del_e] := body_state ludcmp lubksb cfg e s.
have [-> ->] := IH (final_state (loop_body ludcmp lubksb cfg e s)) cont_steps.
by rewrite heap_e del_e cont_e.
Qed.

End AbortLemmas.

Section ScratchOfSolve.

Variable R : comRingType.
Variable ludcmp : seq (seq R) -> nat -> seq (seq R) * seq nat * int.
Variable lubksb : seq (seq R) -> nat -> seq nat -> seq R -> seq R.
Variable uninit : R.
Variable cfg : config R.

Implicit Type s : state R.

Local Notation k := (capacity cfg).
Local Notation body := (loop_body ludcmp lubksb cfg).
Local Notation entry := (solve_entry ludcmp lubksb uninit cfg).
Local Notation start := (start_state uninit cfg).
Local Notation loop_scratch := (main_loop_scratch ludcmp lubksb cfg).
Local Notation solves s := (count is_matrix_solve (trace s)).

(** The permutation arrays left behind by [a] calls of
    [handle_previous_vectors] since the start of [solve]. *)
Local Notation leaked a :=
  (if anderson_is_on cfg && (k != 2%N) then (a.+2 - k)%N else 0%N).

Lemma push_vec_in_memory s :
  vec_in_memory (push_vector cfg s)
  = if (vec_in_memory s < k)%N then (vec_in_memory s).+1 else vec_in_memory s.
Proof. by rewrite /push_vector; case: ifP. Qed.

Lemma accept_vec_in_memory (x : seq R) s :
  vec_in_memory (accept_iterate ludcmp lubksb cfg x s)
  = if anderson_is_on cfg
    then (if (vec_in_memory s < k)%N then (vec_in_memory s).+1 else vec_in_memory s)
    else vec_in_memory s.
Proof.
rewrite /accept_iterate /handle_previous_vectors; case: ifP => // _.
by rewrite /mix_if_full; case: ifP => _; rewrite push_vec_in_memory.
Qed.

Lemma step_scratch (x : seq R) s (m : seq scratch) (a : nat) :
  (2 <= k)%N -> vec_in_memory s = minn k a.+1 ->
  step_work_scratch cfg x s (nseq (leaked a) ScratchPerm ++ m)
  = nseq (leaked a.+1) ScratchPerm ++ m.
Proof.
move=> k_ge2 vim_s; case on: (anderson_is_on cfg); last first.
  by rewrite /step_work_scratch /handle_previous_vectors_scratch on.
rewrite step_work_scratchE // vim_s /=.
have -> : (k <= (minn k a.+1).+1)%N = (k <= a.+2)%N.
  by case: (ltnP a.+1 k) => [lt_k|le_k] //; rewrite leqnSn (leqW le_k).
case: eqP => [_|_] /=; first by rewrite if_same.
case: (leqP k a.+2) => [le_k|lt_k]; first by rewrite (subSn le_k).
have /eqP -> : (a.+2 - k == 0)%N by rewrite subn_eq0 ltnW.
by have /eqP -> : (a.+3 - k == 0)%N by rewrite subn_eq0.
Qed.

Lemma body_scratch e s (m : seq scratch) (a : nat) :
  (2 <= k)%N -> vec_in_memory s = minn k a.+1 ->
  loop_body_scratch cfg e s (nseq (leaked a) ScratchPerm ++ m)
  = nseq (leaked (a + in_step_begin e)) ScratchPerm ++ m.
Proof.
move=> k_ge2 vim_s; rewrite /loop_body_scratch.
case: (in_step_begin e) => /=; last by rewrite addn0.
by rewrite addn1; apply: step_scratch.
Qed.

Lemma body_vec_in_memory e s (a : nat) :
  anderson_is_on cfg -> continuing e -> vec_in_memory s = minn k a.+1 ->
  vec_in_memory (final_state (body e s)) = minn k a.+2.
Proof.
move=> on cont_e vim_s.
have [_ [-> _ _ _]] := anderson_viewP cfg (continue_view ludcmp lubksb cfg s cont_e).
rewrite accept_vec_in_memory on.
have -> : vec_in_memory (solve_linear_system cfg (log OnStepBegin s)) = vec_in_memory s.
  by have [_ [-> _ _ _]] := anderson_viewP cfg (sls_view cfg (log OnStepBegin s)).
rewrite vim_s; case: (ltnP a.+1 k) => [lt_k|le_k].
  by rewrite lt_k (minn_idPr lt_k).
by rewrite ltnn (minn_idPl (leqW le_k)).
Qed.

Lemma main_loop_scratch_count script s r (m : seq scratch) (a : nat) :
  (2 <= k)%N -> (anderson_is_on cfg -> vec_in_memory s = minn k a.+1) ->
  main_loop ludcmp lubksb cfg script s = Some r ->
  exists c,
    solves (final_state r) = (solves s + c)%N
    /\ loop_scratch script s (nseq (leaked a) ScratchPerm ++ m)
       = nseq (leaked (a + c)) ScratchPerm ++ m.
Proof.
move=> k_ge2; elim: script s a => [|e script IH] s a vim_s //.
rewrite main_loop_cons.
have trace_e := body_trace ludcmp lubksb cfg e s.
have [count_e _ _] := count_pass_events (jacobian_reusable s && constant_jacobian cfg) e.
have scratch_e : loop_body_scratch cfg e s (nseq (leaked a) ScratchPerm ++ m)
                 = nseq (leaked (a + in_step_begin e)) ScratchPerm ++ m.
  case on: (anderson_is_on cfg); last first.
    rewrite /loop_body_scratch /step_work_scratch /handle_previous_vectors_scratch on.
    by rewrite if_same.
  by move: (body_scratch e m k_ge2 (vim_s on)); rewrite on.
have ends : (if body e s is Val false _ then false else true) ->
            Some (ending (body e s)) = Some r ->
            exists c,
              solves (final_state r) = (solves s + c)%N
              /\ loop_body_scratch cfg e s (nseq (leaked a) ScratchPerm ++ m)
                 = nseq (leaked (a + c)) ScratchPerm ++ m.
  move=> _ [<-]; exists (in_step_begin e : nat); split=> //.
  by rewrite final_ending trace_e count_cat count_e.
have := body_goes_on ludcmp lubksb cfg e s.
rewrite /=; case body_e: (body e s) trace_e ends => [[] s'|x s'] /= trace_e ends.
- by move=> _; apply: ends.
- move=> cont_e; case/(IH s' (a + in_step_begin e)%N) => [on|c [count_r scratch_r]].
    have /and3P [-> _ _] := esym cont_e; rewrite addn1.
    have := body_vec_in_memory on (esym cont_e) (vim_s on).
    by rewrite body_e.
  exists (in_step_begin e + c)%N; split.
    by rewrite count_r trace_e count_cat count_e addnA.
  by rewrite scratch_e scratch_r addnA.
- by move=> _; apply: ends.
Qed.

Hypothesis num_ok : 2 <= num_last_vectors_used cfg.
Hypothesis base_ok : base_isOkay cfg.

Lemma entry_scratch arg dim first s0 (m : seq scratch) :
  solve_entry_scratch uninit cfg arg dim first s0 m = nseq (leaked 1) ScratchPerm ++ m.
Proof.
have [_ k_ge2] := capacity_ge2 num_ok.
rewrite /solve_entry_scratch solve_start_ok //.
have vim_0 : vec_in_memory (start arg dim s0) = minn k 1 by rewrite (minn_idPr (ltnW k_ge2)).
have := step_scratch (in_new_sln first) m k_ge2 vim_0.
have -> : (2 - k = 0)%N by apply/eqP; rewrite subn_eq0.
by rewrite if_same.
Qed.

Lemma solve_scratch_count arg dim first script s0 r (m : seq scratch) :
  solve ludcmp lubksb uninit cfg arg dim first script s0 = Some r ->
  solve_scratch ludcmp lubksb uninit cfg arg dim first script s0 m
  = nseq (leaked (solves (final_state r) - solves s0)) ScratchPerm ++ m.
Proof.
have [_ k_ge2] := capacity_ge2 num_ok.
rewrite /solve /solve_scratch entry_scratch.
have trace_e := entry_trace ludcmp lubksb uninit num_ok base_ok arg dim first s0.
have [count_e _ _] :=
  count_initial_events (jacobian_reusable s0 && constant_jacobian cfg) first.
have count_entry : solves (final_state (solve_entry ludcmp lubksb uninit cfg arg dim first s0))
                   = (solves s0).+1.
  by rewrite trace_e 2!count_cat count_e /= !add0n addn1.
have ends x :
    Some x = Some r ->
    final_state x = final_state (solve_entry ludcmp lubksb uninit cfg arg dim first s0) ->
    nseq (leaked 1) ScratchPerm ++ m
    = nseq (leaked (solves (final_state r) - solves s0)) ScratchPerm ++ m.
  move=> [<-] ->; rewrite count_entry.
  by have -> : ((solves s0).+1 - solves s0 = 1)%N by rewrite subSn // subnn.
have := entry_goes_on ludcmp lubksb uninit num_ok base_ok arg dim first s0.
case entry_e: (solve_entry _ _ _ _ _ _ _ _) count_entry ends => [[] s'|x s'] /=.
- by move=> _ ends _ run_r; apply: (ends (Val tt s') run_r).
- move=> count_entry _ cont_first.
  case/(main_loop_scratch_count m (a := 1) k_ge2) => [on|c [count_r ->]].
    have view_e := entry_view ludcmp lubksb uninit num_ok base_ok arg dim s0
                     (esym cont_first).
    move: view_e; rewrite entry_e /= => view_e.
    have [_ [-> _ _ _]] := anderson_viewP cfg view_e.
    rewrite accept_vec_in_memory on.
    have -> : vec_in_memory (solve_linear_system cfg (start arg dim s0)) = 1%N.
      by have [_ [-> _ _ _]] := anderson_viewP cfg (sls_view cfg (start arg dim s0)).
    by rewrite k_ge2 (minn_idPr k_ge2).
  rewrite count_r count_entry.
  have -> // : ((solves s0).+1 + c - solves s0 = 1 + c)%N.
  by rewrite addSn subSn ?leq_addr // addKn add1n.
- by move=> _ ends _ run_r; apply: (ends (Throw unit x s') run_r).
Qed.

End ScratchOfSolve.

(** ** The dense helper solves what it is given *)

Section ForLoops.

Lemma for_loop_recr (S : Type) (lo hi : nat) (body : nat -> S -> S) (s0 : S) :
  (lo <= hi)%N -> for_loop lo hi.+1 body s0 = body hi (for_loop lo hi body s0).
Proof.
by move=> le_lo; rewrite /for_loop subSn // -addn1 iotaD foldl_cat /= subnKC.
Qed.

Lemma for_loop_ge (S : Type) (lo hi : nat) (body : nat -> S -> S) (s0 : S) :
  (hi <= lo)%N -> for_loop lo hi body s0 = s0.
Proof. by rewrite /for_loop -subn_eq0 => /eqP ->. Qed.

(** A loop that passes its invariant on. *)
Lemma for_loop_ind (S : Type) (P : nat -> S -> Prop) (lo hi : nat)
    (body : nat -> S -> S) (s0 : S) :
  (lo <= hi)%N -> P lo s0 ->
  (forall i s, (lo <= i < hi)%N -> P i s -> P i.+1 (body i s)) ->
  P hi (for_loop lo hi body s0).
Proof.
move=> le_lo P0 step; elim: hi le_lo step => [|hi IH].
  by rewrite leqn0 => /eqP lo0 _; rewrite for_loop_ge ?lo0 // -lo0.
rewrite leq_eqVlt => /predU1P [<- _|]; first by rewrite for_loop0.
rewrite ltnS => le_lo step; rewrite for_loop_recr //.
apply: (step); first by rewrite le_lo ltnSn.
by apply: IH => // i s /andP [le_i lt_i]; apply: step; rewrite le_i ltnW.
Qed.

Lemma for_loop_sub (V : zmodType) (lo hi : nat) (f : nat -> V) (a : V) :
  for_loop lo hi (fun i acc => acc - f i) a = a - \sum_(lo <= i < hi) f i.
Proof.
rewrite /for_loop /index_iota.
elim: (iota _ _) a => [|i l IH] a /=; first by rewrite big_nil subr0.
by rewrite IH big_cons opprD addrA.
Qed.

Lemma range_empty (lo hi c : nat) : (hi <= lo)%N -> (lo <= c < hi)%N = false.
Proof.
move=> le_hi; apply/negbTE/negP => /andP [le_c lt_c].
by have := leq_trans lt_c (leq_trans le_hi le_c); rewrite ltnn.
Qed.

Lemma range_recr (lo hi c : nat) :
  (lo <= hi)%N -> (lo <= c < hi.+1)%N = (c == hi) || (lo <= c < hi)%N.
Proof.
move=> le_lo; rewrite ltnS [(c <= hi)%N]leq_eqVlt andb_orr.
by case: (c =P hi) => [->|_] /=; rewrite ?le_lo ?andbF.
Qed.

End ForLoops.

Section DenseEntries.

Variable F : numFieldType.
Variable n : nat.

Implicit Types (a : seq (seq F)) (b : seq F).

Local Notation entry := (@DenseMatrixOperations.entry F).
Local Notation swap := DenseMatrixOperations.swap.
Local Notation eliminate := (@DenseMatrixOperations.eliminate F).
Local Notation pivot_row := (@DenseMatrixOperations.pivot_row F).

Lemma nth_swap (T : Type) (x0 : T) (v : seq T) (i p r : nat) :
  nth x0 (swap x0 v i p) r = nth x0 v (exchange i p r).
Proof.
rewrite /DenseMatrixOperations.swap /exchange nth_set_nth /= nth_set_nth /=.
by case: (r == p); case: (r == i).
Qed.

Lemma entry_swap a (i p r c : nat) :
  entry (swap [::] a i p) r c = entry a (exchange i p r) c.
Proof. by rewrite /DenseMatrixOperations.entry nth_swap. Qed.

Lemma exchangeK (i p : nat) : involutive (exchange i p).
Proof.
move=> r; rewrite /exchange.
case: (r =P p) => [->|/eqP ne_p]; first by rewrite eqxx; case: eqP.
case: (r =P i) => [->|/eqP ne_i]; first by rewrite eqxx.
by rewrite (negbTE ne_p) (negbTE ne_i).
Qed.

Lemma exchange_lt (i p r : nat) :
  (i < n)%N -> (p < n)%N -> (r < n)%N -> (exchange i p r < n)%N.
Proof. by move=> lt_i lt_p lt_r; rewrite /exchange; case: ifP => // _; case: ifP. Qed.

Lemma exchange_below (i p r : nat) :
  (r < i)%N -> (i <= p)%N -> exchange i p r = r.
Proof.
move=> lt_r le_i; rewrite /exchange.
by rewrite !ltn_eqF // (leq_trans lt_r).
Qed.

Lemma exchange_ge (i p r : nat) :
  (i <= r)%N -> (i <= p)%N -> (i <= exchange i p r)%N.
Proof. by move=> le_r le_p; rewrite /exchange; case: ifP => // _; case: ifP. Qed.

Lemma nth_row_loop (m : F) (f : nat -> F) (lo hi c : nat) (row : seq F) :
  nth 0 (for_loop lo hi (fun c row => set_nth 0 row c (nth 0 row c - m * f c)) row) c
  = if (lo <= c < hi)%N then nth 0 row c - m * f c else nth 0 row c.
Proof.
case: (leqP lo hi) => [le_lo|/ltnW le_hi]; last by rewrite for_loop_ge // range_empty.
elim: hi c le_lo => [|hi IH] c.
  by rewrite leqn0 => /eqP ->; rewrite for_loop0 andbF.
rewrite leq_eqVlt => /predU1P [->|]; first by rewrite for_loop0 range_empty.
rewrite ltnS => le_lo; rewrite for_loop_recr // nth_set_nth /= range_recr //.
by case: (c =P hi) => [->|_] /=; rewrite IH // ltnn andbF.
Qed.

Lemma entry_eliminate a (j i r c : nat) :
  i != j ->
  entry (eliminate a n j i) r c
  = if r == i then eliminated n a j i c else entry a r c.
Proof.
move=> ne_i; rewrite /DenseMatrixOperations.eliminate /DenseMatrixOperations.entry.
rewrite nth_set_nth /=; case: eqP => // _.
rewrite nth_row_loop nth_set_nth /= /eliminated /DenseMatrixOperations.entry.
case: (c =P j) => [->|/eqP ne_c]; first by rewrite ltnn.
by [].
Qed.

(** The elimination loop of one pass. *)
Lemma entry_eliminate_loop a (j hi r c : nat) :
  entry (for_loop j.+1 hi (fun i a => eliminate a n j i) a) r c
  = if (j < r < hi)%N then eliminated n a j r c else entry a r c.
Proof.
case: (leqP j.+1 hi) => [le_lo|/ltnW le_hi]; last by rewrite for_loop_ge // range_empty.
elim: hi r c le_lo => [//|hi IH] r c.
rewrite leq_eqVlt => /predU1P [<-|]; first by rewrite for_loop0 range_empty.
rewrite ltnS => lt_j; have ne_hi : hi != j by rewrite gtn_eqF.
rewrite for_loop_recr // entry_eliminate //.
rewrite range_recr //; case: (r =P hi) => [->|_] /=; last by rewrite IH.
by rewrite /eliminated !IH // !ltnn !andbF.
Qed.

Lemma pivot_row_range a (j : nat) :
  (j <= pivot_row a n j)%N /\ ((j < n)%N -> (pivot_row a n j < n)%N).
Proof.
rewrite /DenseMatrixOperations.pivot_row.
case: (leqP j.+1 n) => [lt_j|le_n]; last by rewrite for_loop_ge ?(ltnW le_n).
set pick := fun _ _ => _.
have /andP [le_p lt_p] : (j <= for_loop j.+1 n pick j < n)%N.
  apply: (@for_loop_ind nat (fun hi p => (j <= p < hi)%N)) => //.
    by rewrite leqnn ltnSn.
  move=> i p /andP [lt_i _] /andP [le_p lt_p]; rewrite /pick; case: ifP => _.
    by rewrite (ltnW lt_i) ltnSn.
  by rewrite le_p ltnS (ltnW lt_p).
by [].
Qed.

Lemma entry_lu_pass a (j r c : nat) :
  let a1 := swap [::] a j (pivot_row a n j) in
  entry (lu_pass n j a) r c
  = if (j < r < n)%N then eliminated n a1 j r c else entry a1 r c.
Proof. exact: entry_eliminate_loop. Qed.

End DenseEntries.

Section DenseFactors.

Variable F : numFieldType.
Variable n : nat.

Implicit Types (a m : seq (seq F)) (b : seq F).

Local Notation entry := (@DenseMatrixOperations.entry F).
Local Notation swap := DenseMatrixOperations.swap.
Local Notation pivot_row := (@DenseMatrixOperations.pivot_row F).

Lemma entry_lu_pass_above m (t r c : nat) :
  (r <= t)%N ->
  entry (lu_pass n t m) r c = entry (swap [::] m t (pivot_row m n t)) r c.
Proof. by move=> le_r; rewrite entry_lu_pass ltnNge le_r. Qed.

Lemma entry_lu_pass_done m (t r c : nat) :
  (r < t)%N -> entry (lu_pass n t m) r c = entry m r c.
Proof.
move=> lt_r; rewrite entry_lu_pass_above ?(ltnW lt_r) // entry_swap.
by have [le_p _] := pivot_row_range n m t; rewrite exchange_below.
Qed.

Lemma factored_swap a m (sigma : nat -> nat) (t : nat) :
  (t < n)%N -> factored n a sigma t m ->
  let p := pivot_row m n t in
  factored n a (fun r => sigma (exchange t p r)) t (swap [::] m t p).
Proof.
move=> lt_t inv p r c lt_r lt_c.
have [le_p /(_ lt_t) lt_p] := pivot_row_range n m t.
rewrite inv ?exchange_lt //.
have min_eq : minn (exchange t p r) t = minn r t.
  case: (ltnP r t) => [lt_rt|le_tr].
    by rewrite exchange_below // (minn_idPl (ltnW lt_rt)).
  by rewrite (minn_idPr (exchange_ge le_tr le_p)).
rewrite min_eq entry_swap; congr (_ + _).
apply: eq_big_nat => u /andP [_ lt_u].
have lt_ut : (u < t)%N by rewrite (leq_trans lt_u) // geq_minr.
by rewrite !entry_swap (exchange_below lt_ut).
Qed.

Lemma factored_pass a m (sigma : nat -> nat) (t : nat) :
  (t < n)%N -> factored n a sigma t m ->
  entry (lu_pass n t m) t t != 0 ->
  factored n a (fun r => sigma (exchange t (pivot_row m n t) r)) t.+1 (lu_pass n t m).
Proof.
move=> lt_t inv pivot r c lt_r lt_c.
set m1 := swap [::] m t (pivot_row m n t).
have := factored_swap lt_t inv lt_r lt_c; rewrite -/m1 /= => ->.
have pivot1 : entry m1 t t != 0 by rewrite -(entry_lu_pass_above _ _ (leqnn t)).
case le_r: (r <= t)%N; last have lt_tr : (t < r)%N by rewrite ltnNge le_r.
  rewrite (minn_idPl le_r) (minn_idPl (leqW le_r)) entry_lu_pass_above //.
  congr (_ + _); apply: eq_big_nat => u /andP [_ lt_u].
  by rewrite !entry_lu_pass_above // ltnW // (leq_trans lt_u).
rewrite (minn_idPr (ltnW lt_tr)) (minn_idPr lt_tr) big_nat_recr //= -addrA.
congr (_ + _).
  apply: eq_big_nat => u /andP [_ lt_u].
  rewrite (entry_lu_pass_above _ _ (ltnW lt_u)) entry_lu_pass lt_tr lt_r /=.
  by rewrite /eliminated (ltn_eqF lt_u) ltnNge (ltnW lt_u).
rewrite (entry_lu_pass_above _ _ (leqnn t)) !entry_lu_pass lt_tr lt_r /= -/m1.
rewrite /eliminated eqxx lt_c andbT.
case: (ltngtP t c) => [lt_tc|gt_tc|eq_tc].
- by rewrite addrC subrK.
- by rewrite addr0.
- by rewrite -eq_tc addr0 divfK.
Qed.

Lemma lu_afterS a (t : nat) : lu_after n t.+1 a = lu_pass n t (lu_after n t a).
Proof. exact: for_loopSr. Qed.

Lemma entry_lu_after_done a (t s r c : nat) :
  (r < t)%N -> (t <= s)%N ->
  entry (lu_after n s a) r c = entry (lu_after n t a) r c.
Proof.
move=> lt_r; elim: s => [|s IH]; first by rewrite leqn0 => /eqP t0; rewrite t0 in lt_r.
rewrite leq_eqVlt => /predU1P [->|] //; rewrite ltnS => le_t.
by rewrite lu_afterS entry_lu_pass_done ?IH // (leq_trans lt_r).
Qed.

Lemma factored_after a (t : nat) :
  (t <= n)%N -> no_zero_pivot (lu_after n n a) n ->
  factored n a (origin (pivots n a) t) t (lu_after n t a).
Proof.
move=> le_t /allP pivot; elim: t le_t => [|t IH] lt_t.
  by move=> r c _ _; rewrite minn0 big_geq //= add0r.
rewrite lu_afterS; apply: (factored_pass lt_t (IH (ltnW lt_t))).
rewrite -lu_afterS -(entry_lu_after_done a _ (ltnSn t) lt_t).
by apply: pivot; rewrite mem_iota.
Qed.

End DenseFactors.

Section DenseSolve.

Variable F : numFieldType.
Variable n : nat.

Implicit Types (a lu : seq (seq F)) (b y : seq F).

Local Notation entry := (@DenseMatrixOperations.entry F).
Local Notation swap := DenseMatrixOperations.swap.
Local Notation ludcmp := (@DenseMatrixOperations.ludcmp F).
Local Notation lubksb := (@DenseMatrixOperations.lubksb F).

Lemma ludcmp_after a :
  (ludcmp a n).1 = (lu_after n n a, mkseq (pivots n a) n).
Proof.
rewrite /DenseMatrixOperations.ludcmp.
set pass := fun _ _ => _.
have [d -> //] : exists d, for_loop 0 n pass (a, [::], 1)
                           = (lu_after n n a, mkseq (pivots n a) n, d).
have steps t : exists d, for_loop 0 t pass (a, [::], 1)
                         = (lu_after n t a, mkseq (pivots n a) t, d).
  elim: t => [|t [d IH]]; first by exists 1; rewrite /lu_after !for_loop0.
  by rewrite for_loopSr IH /pass mkseqS lu_afterS; eexists; congr (_, _, _).
exact: steps.
Qed.

(** The exchanges that [lubksb] makes first. *)
Lemma nth_exchanged (piv : nat -> nat) b (t r : nat) :
  (t <= n)%N ->
  nth 0 (for_loop 0 t (fun i b => swap 0 b i (nth 0%N (mkseq piv n) i)) b) r
  = nth 0 b (origin piv t r).
Proof.
elim: t r => [|t IH] r lt_t; first by rewrite for_loop0.
by rewrite for_loopSr nth_swap IH ?(ltnW lt_t) // nth_mkseq.
Qed.

(** Forward substitution. *)
Lemma forward_spec lu b (t : nat) :
  let y :=
    for_loop 0 t
      (fun i b =>
         set_nth 0 b i
           (for_loop 0 i (fun j sum => sum - entry lu i j * nth 0 b j) (nth 0 b i)))
      b in
  (forall r, (r < t)%N ->
     nth 0 y r = nth 0 b r - \sum_(0 <= j < r) entry lu r j * nth 0 y j)
  /\ (forall r, (t <= r)%N -> nth 0 y r = nth 0 b r).
Proof.
elim: t => [|t [IH_lt IH_ge]] /=; first by rewrite for_loop0.
rewrite for_loopSr; set y := for_loop 0 t _ b in IH_lt IH_ge *.
rewrite for_loop_sub.
have same r : (r <= t)%N ->
    \sum_(0 <= j < r)
       entry lu r j * nth 0 (set_nth 0 y t (nth 0 y t - \sum_(0 <= j < t) entry lu t j * nth 0 y j)) j
    = \sum_(0 <= j < r) entry lu r j * nth 0 y j.
  move=> le_r; apply: eq_big_nat => j /andP [_ lt_j].
  by rewrite nth_set_nth /= ltn_eqF // (leq_trans lt_j).
split=> r; rewrite nth_set_nth /=.
  rewrite ltnS leq_eqVlt => /predU1P [->|lt_r].
    by rewrite eqxx same // IH_ge.
  by rewrite ltn_eqF // same ?(ltnW lt_r) // IH_lt.
by move=> lt_r; rewrite gtn_eqF // IH_ge // ltnW.
Qed.

(** Back substitution. *)
Lemma backward_spec lu y (t : nat) :
  (t <= n)%N ->
  let x :=
    for_loop 0 t
      (fun t b =>
         let i := (n - t.+1)%N in
         set_nth 0 b i
           (for_loop i.+1 n (fun j sum => sum - entry lu i j * nth 0 b j) (nth 0 b i)
            / entry lu i i))
      y in
  (forall r, (n - t <= r < n)%N ->
     nth 0 x r
     = (nth 0 y r - \sum_(r.+1 <= j < n) entry lu r j * nth 0 x j) / entry lu r r)
  /\ (forall r, (r < n - t)%N -> nth 0 x r = nth 0 y r).
Proof.
elim: t => [_|t IH lt_t] /=.
  by rewrite for_loop0 subn0; split=> // r /andP [le_r]; rewrite ltnNge le_r.
have [IH_in IH_out] := IH (ltnW lt_t).
rewrite for_loopSr; set x := for_loop 0 t _ y in IH_in IH_out *.
rewrite for_loop_sub; set i := (n - t.+1)%N; set v := (_ / _).
have i_next : i.+1 = (n - t)%N by rewrite /i subnSK.
have same r : (i <= r)%N ->
    \sum_(r.+1 <= j < n) entry lu r j * nth 0 (set_nth 0 x i v) j
    = \sum_(r.+1 <= j < n) entry lu r j * nth 0 x j.
  move=> le_r; apply: eq_big_nat => j /andP [lt_j _].
  by rewrite nth_set_nth /= gtn_eqF // (leq_ltn_trans le_r).
split=> r; rewrite nth_set_nth /=.
  case/andP; rewrite leq_eqVlt => /predU1P [<-|lt_r] lt_rn.
    by rewrite eqxx same // /v IH_out // -i_next.
  rewrite gtn_eqF // same ?(ltnW lt_r) // IH_in // lt_rn andbT.
  by rewrite -i_next.
by move=> lt_r; rewrite ltn_eqF // IH_out // -i_next ltnW.
Qed.

End DenseSolve.

Section DenseCorrect.

Variable F : numFieldType.
Variable n : nat.

Implicit Types (a lu : seq (seq F)) (b x y : seq F).

Local Notation entry := (@DenseMatrixOperations.entry F).
Local Notation ludcmp := (@DenseMatrixOperations.ludcmp F).
Local Notation lubksb := (@DenseMatrixOperations.lubksb F).

Lemma origin_destination (piv : nat -> nat) (t i : nat) :
  origin piv t (destination piv t i) = i.
Proof. by elim: t => [|t IH] //=; rewrite exchangeK. Qed.

Lemma destination_lt a (t i : nat) :
  (t <= n)%N -> (i < n)%N -> (destination (pivots n a) t i < n)%N.
Proof.
move=> le_t lt_i; elim: t le_t => [|t IH] lt_t //=.
apply: exchange_lt => //; last exact: IH (ltnW lt_t).
by have [_ ->] := pivot_row_range n (lu_after n t a) t.
Qed.

Lemma sum_from (V : zmodType) (f : nat -> V) (r : nat) :
  (r <= n)%N ->
  \sum_(0 <= c < n) (if (r <= c)%N then f c else 0) = \sum_(r <= c < n) f c.
Proof.
move=> le_r; rewrite (big_cat_nat (leq0n r) le_r) /=.
rewrite big_nat_cond big1 ?add0r.
  by move=> c /andP [/andP [_ lt_c] _]; rewrite leqNgt lt_c.
by apply: eq_big_nat => c /andP [-> _].
Qed.

Lemma origin_lt a (t r : nat) :
  (t <= n)%N -> (r < n)%N -> (origin (pivots n a) t r < n)%N.
Proof.
elim: t r => [|t IH] r lt_t lt_r //=; apply: IH; first exact: ltnW.
apply: exchange_lt => //.
by have [_ ->] := pivot_row_range n (lu_after n t a) t.
Qed.

(** A row of the matrix times a vector, through the factors. *)
Lemma factored_product a lu (sigma : nat -> nat) (x : seq F) (r : nat) :
  factored n a sigma n lu -> (r < n)%N ->
  \sum_(0 <= c < n) entry a (sigma r) c * nth 0 x c
  = \sum_(0 <= u < r) entry lu r u * (\sum_(u <= c < n) entry lu u c * nth 0 x c)
    + \sum_(r <= c < n) entry lu r c * nth 0 x c.
Proof.
move=> inv lt_r.
rewrite (eq_big_nat _ _
           (F2 := fun c =>
              \sum_(0 <= u < r)
                 entry lu r u * ((if (u <= c)%N then entry lu u c else 0) * nth 0 x c)
              + (if (r <= c)%N then entry lu r c * nth 0 x c else 0))).
  move=> c /andP [_ lt_c]; rewrite inv // (minn_idPl (ltnW lt_r)) mulrDl mulr_suml.
  congr (_ + _); last by case: ifP => _ //; rewrite mul0r.
  by apply: eq_big_nat => u _; case: ifP => _; rewrite ?mul0r ?mulr0 ?mulrA.
rewrite big_split /= exchange_big_nat /= sum_from ?(ltnW lt_r) //; congr (_ + _).
apply: eq_big_nat => u /andP [_ lt_u]; rewrite -mulr_sumr; congr (_ * _).
rewrite -[RHS]sum_from ?(ltnW (ltn_trans lt_u lt_r)) //.
by apply: eq_big_nat => c _; case: ifP => _ //; rewrite mul0r.
Qed.

(** [ludcmp] followed by [lubksb] solves the system whenever no pivot is
    zero, and the system has no other solution then. *)
Lemma lu_solve_solves a b :
  no_zero_pivot (ludcmp a n).1.1 n ->
  forall i, (i < n)%N ->
    \sum_(0 <= c < n) entry a i c * nth 0 (lu_solve ludcmp lubksb a n b) c
    = nth 0 b i.
Proof.
move=> pivot i lt_i; have lu_eq := ludcmp_after n a.
rewrite /lu_solve; case: (ludcmp a n) lu_eq pivot => [[lu indx] d] /= [-> ->] pivot.
rewrite /DenseMatrixOperations.lubksb; cbv zeta.
set b1 := for_loop 0 n _ b; set y := for_loop 0 n _ b1; set x := for_loop 0 n _ y.
have b1E r : nth 0 b1 r = nth 0 b (origin (pivots n a) n r) by apply: nth_exchanged.
have [yE _] := forward_spec (lu_after n n a) b1 n; rewrite -/y in yE.
have [] := backward_spec (lu_after n n a) y (leqnn n); rewrite -/x subnn => xE _.
have inv := factored_after (leqnn n) pivot.
have upper r : (r < n)%N ->
    \sum_(r <= c < n) entry (lu_after n n a) r c * nth 0 x c = nth 0 y r.
  move=> lt_r; rewrite (big_ltn lt_r) xE ?lt_r // mulrC divfK ?subrK //.
  by move/allP: pivot; apply; rewrite mem_iota.
set r := destination (pivots n a) n i.
have lt_r : (r < n)%N by apply: destination_lt.
have <- : origin (pivots n a) n r = i by apply: origin_destination.
rewrite -b1E (factored_product x inv lt_r) upper //.
rewrite (eq_big_nat _ _ (F2 := fun u => entry (lu_after n n a) r u * nth 0 y u)).
  by move=> u /andP [_ lt_u]; rewrite upper ?(ltn_trans lt_u).
by rewrite yE // addrC subrK.
Qed.

Lemma lu_solve_unique a b (x' : seq F) :
  no_zero_pivot (ludcmp a n).1.1 n ->
  (forall i, (i < n)%N -> \sum_(0 <= c < n) entry a i c * nth 0 x' c = nth 0 b i) ->
  forall c, (c < n)%N -> nth 0 x' c = nth 0 (lu_solve ludcmp lubksb a n b) c.
Proof.
move=> pivot sol; have lu_eq := ludcmp_after n a.
rewrite /lu_solve; case: (ludcmp a n) lu_eq pivot => [[lu indx] d] /= [-> ->] pivot.
rewrite /DenseMatrixOperations.lubksb; cbv zeta.
set b1 := for_loop 0 n _ b; set y := for_loop 0 n _ b1; set x := for_loop 0 n _ y.
have b1E r : nth 0 b1 r = nth 0 b (origin (pivots n a) n r) by apply: nth_exchanged.
have [yE _] := forward_spec (lu_after n n a) b1 n; rewrite -/y in yE.
have [] := backward_spec (lu_after n n a) y (leqnn n); rewrite -/x subnn => xE _.
have inv := factored_after (leqnn n) pivot.
pose y' r := \sum_(r <= c < n) entry (lu_after n n a) r c * nth 0 x' c.
have y'E r : (r < n)%N ->
    y' r = nth 0 b1 r - \sum_(0 <= u < r) entry (lu_after n n a) r u * y' u.
  move=> lt_r; rewrite b1E -sol ?origin_lt // (factored_product x' inv lt_r).
  by rewrite /y' [X in X - _]addrC addrK.
have same_y r : (r < n)%N -> y' r = nth 0 y r.
  elim/ltn_ind: r => r IH lt_r; rewrite y'E // yE //; congr (_ - _).
  apply: eq_big_nat => u /andP [_ lt_u].
  by rewrite IH // (ltn_trans lt_u).
have down t : (t <= n)%N -> forall c, (n - t <= c < n)%N -> nth 0 x' c = nth 0 x c.
  elim: t => [_ c|t IH lt_t c]; first by rewrite subn0 => /andP [le_c]; rewrite ltnNge le_c.
  case/andP=> le_c lt_c; rewrite xE ?lt_c // -same_y // /y' (big_ltn lt_c).
  have -> : \sum_(c.+1 <= j < n) entry (lu_after n n a) c j * nth 0 x j
            = \sum_(c.+1 <= j < n) entry (lu_after n n a) c j * nth 0 x' j.
    apply: eq_big_nat => j /andP [lt_j lt_jn]; rewrite (IH (ltnW lt_t)) // lt_jn andbT.
    by rewrite -(subnSK lt_t); apply: leq_trans lt_j.
  rewrite addrK mulrC mulKf //.
  by move/allP: pivot; apply; rewrite mem_iota.
by move=> c lt_c; apply: (down n (leqnn n)); rewrite subnn.
Qed.

End DenseCorrect.

(** ** The kernel over bare operations *)

Section MachineLemmas.

Variable T : Type.
Variable ops : Machine.scalar T.
Variable ludcmp : seq (seq T) -> nat -> seq (seq T) * seq nat * int.
Variable lubksb : seq (seq T) -> nat -> seq nat -> seq T -> seq T.
Variable pvec : nat -> nat -> T.
Variable dim : nat.

Local Notation zero := (Machine.zero ops).

Lemma machine_store_coeffsE (n : nat) (rhs c0 : seq T) :
  Machine.store_coeffs ops n rhs c0
  = mkseq (nth zero rhs) n
    ++ Machine.sub ops (Machine.one ops) (Machine.running_sum ops n rhs)
       :: drop n.+1 c0.
Proof.
by rewrite /Machine.store_coeffs for_loop_pair for_loop_fill set_nth_fill.
Qed.

Lemma for_loop_ext (S : Type) (lo hi : nat) (f g : nat -> S -> S) (s0 : S) :
  (forall i s, (lo <= i < hi)%N -> f i s = g i s) ->
  for_loop lo hi f s0 = for_loop lo hi g s0.
Proof.
move=> same; rewrite /for_loop.
have: all (fun i => lo <= i < hi)%N (iota lo (hi - lo)).
  apply/allP => i; rewrite mem_iota => /andP [le_i lt_i]; rewrite le_i /=.
  case: (leqP lo hi) => [le_lo|/ltnW]; first by move: lt_i; rewrite subnKC.
  by rewrite -subn_eq0 => /eqP sub0; move: lt_i; rewrite sub0 addn0 ltnNge le_i.
elim: (iota _ _) s0 => [|i l IH] s0 //= /andP [in_i in_l].
by rewrite same // IH.
Qed.

Lemma machine_coefficients (k : nat) (c0 : seq T) :
  (2 <= k)%N -> size c0 = k.-1 ->
  let n := (k - 2)%N in
  let x :=
    Machine.lu_solve ludcmp lubksb (Machine.setup_mat ops pvec dim n) n
      (Machine.setup_rhs ops pvec dim n) in
  let cs := Machine.calculate_anderson_coeffs ops ludcmp lubksb pvec dim k c0 in
  [/\ size cs = k.-1,
      forall i, (i < n)%N -> nth zero cs i = nth zero x i,
      nth zero cs n
      = (if k == 2%N then Machine.one ops
         else Machine.sub ops (Machine.one ops) (Machine.running_sum ops n x))
    & Machine.running_sum ops k.-1 cs
      = Machine.add ops (Machine.running_sum ops n x) (nth zero cs n)].
Proof.
case: k => [|[|k]] // _ sz_c0 /=; rewrite /Machine.calculate_anderson_coeffs.
have first_n (cs : seq T) (x : seq T) :
    (forall i, (i < k)%N -> nth zero cs i = nth zero x i) ->
    Machine.running_sum ops k.+1 cs
    = Machine.add ops (Machine.running_sum ops k x) (nth zero cs k).
  move=> same; rewrite /Machine.running_sum for_loopSr; congr (Machine.add ops _ _).
  by apply: for_loop_ext => i s /andP [_ lt_i]; rewrite same.
rewrite subn2 /=; case: k sz_c0 first_n => [|k] sz_c0 first_n /=.
  split; [by rewrite size_set_nth sz_c0 | by [] | by rewrite nth_set_nth |].
  exact: first_n.
rewrite machine_store_coeffsE.
have same i : (i < k.+1)%N ->
    nth zero (mkseq (nth zero (Machine.lu_solve ludcmp lubksb
                                 (Machine.setup_mat ops pvec dim k.+1) k.+1
                                 (Machine.setup_rhs ops pvec dim k.+1))) k.+1
              ++ Machine.sub ops (Machine.one ops)
                   (Machine.running_sum ops k.+1
                      (Machine.lu_solve ludcmp lubksb
                         (Machine.setup_mat ops pvec dim k.+1) k.+1
                         (Machine.setup_rhs ops pvec dim k.+1)))
                 :: drop k.+2 c0) i
    = nth zero (Machine.lu_solve ludcmp lubksb (Machine.setup_mat ops pvec dim k.+1) k.+1
                  (Machine.setup_rhs ops pvec dim k.+1)) i.
  by move=> lt_i; rewrite nth_fill lt_i.
split.
- by rewrite size_cat size_mkseq /= size_drop sz_c0 subnn addn1.
- exact: same.
- by rewrite nth_fill ltnn subnn.
- exact: first_n.
Qed.

End MachineLemmas.

(** Over a ring the two readings of [calculate_anderson_coeffs] are one. *)
Lemma calculate_anderson_coeffs_machine (R : comRingType)
    (ludcmp : seq (seq R) -> nat -> seq (seq R) * seq nat * int)
    (lubksb : seq (seq R) -> nat -> seq nat -> seq R -> seq R)
    (pvec : nat -> nat -> R) (dim k : nat) (c0 : seq R) :
  calculate_anderson_coeffs ludcmp lubksb pvec dim k c0
  = Machine.calculate_anderson_coeffs (Machine.exact R) ludcmp lubksb pvec dim k c0.
Proof. by []. Qed.

(** Over an ordered field the dense helper of [Machine] is the one of
    [DenseMatrixOperations]. *)
Lemma dense_helper_machine (F : numFieldType) :
  @DenseMatrixOperations.ludcmp F
  = Machine.ludcmp (Machine.exact F) (Machine.exact_pivoting F)
  /\ @DenseMatrixOperations.lubksb F
     = Machine.lubksb (Machine.exact F) (Machine.exact_pivoting F).
Proof. by []. Qed.

(** * The claims *)

(** ** Mixing coefficients and the mixed vector *)

(** C1, as the code has it.  With a capacity [k >= 2], the coefficients
    that [calculate_anderson_coeffs] stores are the [n = k - 2] values that
    the dense solve leaves in [rhs], followed by [1.0] minus their sum
    taken from the left (for [k = 2]: the single coefficient [1.0]), so
    that the coefficients, summed from the left, give that sum plus [1.0]
    minus that sum; this holds whatever the arithmetic of [Scalar] does,
    with its rounding.  In exact arithmetic the [k - 1] coefficients that
    [handle_previous_vectors] stores once the history is full are these,
    and they sum to 1. *)
Theorem mixing_coefficients_complement_to_one
    (T : Type) (ops : Machine.scalar T)
    (ludcmp_T : seq (seq T) -> nat -> seq (seq T) * seq nat * int)
    (lubksb_T : seq (seq T) -> nat -> seq nat -> seq T -> seq T)
    (pvec : nat -> nat -> T) (dim k : nat) (c0 : seq T)
    (R : comRingType)
    (ludcmp : seq (seq R) -> nat -> seq (seq R) * seq nat * int)
    (lubksb : seq (seq R) -> nat -> seq nat -> seq R -> seq R)
    (cfg : config R) (s : state R) :
  (2 <= k)%N -> size c0 = k.-1 ->
  anderson_is_on cfg -> (2 <= capacity cfg)%N ->
  (capacity cfg <= vec_in_memory (push_vector cfg s))%N ->
  (let n := (k - 2)%N in
   let x :=
     Machine.lu_solve ludcmp_T lubksb_T (Machine.setup_mat ops pvec dim n) n
       (Machine.setup_rhs ops pvec dim n) in
   let cs := Machine.calculate_anderson_coeffs ops ludcmp_T lubksb_T pvec dim k c0 in
   [/\ size cs = k.-1,
       forall i, (i < n)%N -> nth (Machine.zero ops) cs i = nth (Machine.zero ops) x i,
       nth (Machine.zero ops) cs n
       = (if k == 2%N then Machine.one ops
          else Machine.sub ops (Machine.one ops) (Machine.running_sum ops n x))
     & Machine.running_sum ops k.-1 cs
       = Machine.add ops (Machine.running_sum ops n x) (nth (Machine.zero ops) cs n)])
  /\ (let s' := handle_previous_vectors ludcmp lubksb cfg s in
      let n := (capacity cfg - 2)%N in
      let x :=
        lu_solve ludcmp lubksb (setup_mat (read_pv s') (dimension s') n) n
          (setup_rhs (read_pv s') (dimension s') n) in
      [/\ forall i, (i < n)%N -> nth 0 (anderson_coeffs s') i = nth 0 x i,
          nth 0 (anderson_coeffs s') n = 1 - \sum_(0 <= i < n) nth 0 x i
        & \sum_(0 <= i < (capacity cfg).-1) nth 0 (anderson_coeffs s') i = 1]).
Proof.
move=> k_ge2 sz_c0 on cap_ge2 full; split; first exact: machine_coefficients.
exact: hpv_coeffs.
Qed.

Lemma mixing_coefficients_complement_to_one_witness :
  (let x :=
     Machine.lu_solve Binary64.ludcmp Binary64.lubksb
       (Machine.setup_mat Machine.binary64 Binary64.bends 1 1) 1
       (Machine.setup_rhs Machine.binary64 Binary64.bends 1 1) in
   let cs := Binary64.coefficients Binary64.bends in
   [/\ size cs = 2%N,
       forall i, (i < 1)%N -> nth PrimFloat.zero cs i = nth PrimFloat.zero x i,
       nth PrimFloat.zero cs 1
       = PrimFloat.sub PrimFloat.one (Machine.running_sum Machine.binary64 1 x)
     & Machine.running_sum Machine.binary64 2 cs
       = PrimFloat.add (Machine.running_sum Machine.binary64 1 x)
           (nth PrimFloat.zero cs 1)])
  /\ (let s' := handle_previous_vectors Demo.ludcmp Demo.lubksb Demo.cfg3
                  (Demo.at_second Demo.cfg3) in
      let n := (capacity Demo.cfg3 - 2)%N in
      let x :=
        lu_solve Demo.ludcmp Demo.lubksb (setup_mat (read_pv s') (dimension s') n) n
          (setup_rhs (read_pv s') (dimension s') n) in
      [/\ forall i, (i < n)%N -> nth 0 (anderson_coeffs s') i = nth 0 x i,
          nth 0 (anderson_coeffs s') n = 1 - \sum_(0 <= i < n) nth 0 x i
        & \sum_(0 <= i < (capacity Demo.cfg3).-1) nth 0 (anderson_coeffs s') i = 1]).
Proof.
have k_ge2 : (2 <= 3)%N by [].
have sz_c0 : size [:: PrimFloat.zero; PrimFloat.zero] = 3.-1 by [].
have on : anderson_is_on Demo.cfg3 by vm_compute.
have cap_ge2 : (2 <= capacity Demo.cfg3)%N by vm_compute.
have full : (capacity Demo.cfg3
             <= vec_in_memory (push_vector Demo.cfg3 (Demo.at_second Demo.cfg3)))%N.
  by vm_compute.
exact: (mixing_coefficients_complement_to_one Machine.binary64 Binary64.ludcmp
          Binary64.lubksb Binary64.bends 1 Demo.ludcmp Demo.lubksb k_ge2 sz_c0 on
          cap_ge2 full).
Defined.

(** C1 as stated fails in [double]: with the history [0], [7], [11] the
    dense system is [9 x = -12]; the coefficients stored are the doubles
    next to [-4/3] and to [1 + 4/3], and their sum is not 1. *)
Lemma coefficient_sum_in_double_counterexample :
  let cs := Binary64.coefficients Binary64.bends in
  [/\ Machine.setup_mat Machine.binary64 Binary64.bends 1 1 = [:: [:: 9%float]],
      Machine.setup_rhs Machine.binary64 Binary64.bends 1 1 = [:: (-12)%float],
      cs = [:: (-1.3333333333333333)%float; 2.333333333333333%float]
    & PrimFloat.eqb (Machine.running_sum Machine.binary64 2 cs) PrimFloat.one = false].
Proof. by split; vm_compute. Qed.

(** C2.  With acceleration on, once the history holds [k] vectors, component
    [i] of the solution vector is replaced by the sum over [j = 1 .. k-1] of
    [coeff_(j-1) * history[j][i]
     - (1 - damping) * coeff_(j-1) * (history[j][i] - history[j-1][i])]:
    the damping factor multiplies the difference of consecutive history
    entries only. *)
Theorem mixed_vector_formula (R : comRingType)
    (ludcmp : seq (seq R) -> nat -> seq (seq R) * seq nat * int)
    (lubksb : seq (seq R) -> nat -> seq nat -> seq R -> seq R)
    (cfg : config R) (s : state R) (i : nat) :
  anderson_is_on cfg ->
  (capacity cfg <= vec_in_memory (push_vector cfg s))%N ->
  (i < dimension s)%N ->
  let s' := handle_previous_vectors ludcmp lubksb cfg s in
  nth 0 (sln_vector s') i
  = \sum_(1 <= j < capacity cfg)
       (nth 0 (anderson_coeffs s') j.-1 * read_pv s' j i
        - (1 - anderson_beta cfg) * nth 0 (anderson_coeffs s') j.-1
          * (read_pv s' j i - read_pv s' j.-1 i)).
Proof. exact: hpv_mixed. Qed.

Lemma mixed_vector_formula_witness :
  let s' := handle_previous_vectors Demo.ludcmp Demo.lubksb Demo.cfg2_damped
              (Demo.at_second Demo.cfg2_damped) in
  nth 0 (sln_vector s') 1
  = \sum_(1 <= j < capacity Demo.cfg2_damped)
       (nth 0 (anderson_coeffs s') j.-1 * read_pv s' j 1
        - (1 - anderson_beta Demo.cfg2_damped) * nth 0 (anderson_coeffs s') j.-1
          * (read_pv s' j 1 - read_pv s' j.-1 1)).
Proof.
have on : anderson_is_on Demo.cfg2_damped by vm_compute.
have full : (capacity Demo.cfg2_damped
             <= vec_in_memory
                  (push_vector Demo.cfg2_damped (Demo.at_second Demo.cfg2_damped)))%N.
  by vm_compute.
have lt_i : (1 < dimension (Demo.at_second Demo.cfg2_damped))%N by vm_compute.
exact: (mixed_vector_formula Demo.ludcmp Demo.lubksb on full lt_i).
Defined.

(** C3, as the code has it.  With acceleration on and a capacity [k >= 3],
    once the history is full, the arrays handed to the dense helper are
    the [n]-by-[n] matrix with entry [(i,j)] the sum over the components of
    [(r_n - r_i) * (r_n - r_j)] and the right-hand side with entry [i] the
    sum of [r_n * (r_n - r_i)], where [n = k - 2] and
    [r_i = history[i+1] - history[i]], and the first [n] coefficients are
    what LU decomposition with partial pivoting leaves in [rhs].  In exact
    arithmetic, whenever the decomposition meets no zero pivot, they solve
    the system with the entries above, and nothing else does. *)
Theorem coefficients_solve_dense_system (F : numFieldType)
    (cfg : config F) (s : state F) :
  anderson_is_on cfg -> (3 <= capacity cfg)%N ->
  (capacity cfg <= vec_in_memory (push_vector cfg s))%N ->
  let ludcmp := @DenseMatrixOperations.ludcmp F in
  let lubksb := @DenseMatrixOperations.lubksb F in
  let s' := handle_previous_vectors ludcmp lubksb cfg s in
  let n := (capacity cfg - 2)%N in
  let h := read_pv s' in
  let mat := setup_mat h (dimension s') n in
  let rhs := setup_rhs h (dimension s') n in
  let x := lu_solve ludcmp lubksb mat n rhs in
  [/\ forall i j, (i < n)%N -> (j < n)%N ->
        nth 0 (nth [::] mat i) j
        = \sum_(0 <= c < dimension s')
             ((h n.+1 c - h n c) - (h i.+1 c - h i c))
             * ((h n.+1 c - h n c) - (h j.+1 c - h j c)),
      forall i, (i < n)%N ->
        nth 0 rhs i
        = \sum_(0 <= c < dimension s')
             (h n.+1 c - h n c) * ((h n.+1 c - h n c) - (h i.+1 c - h i c)),
      forall i, (i < n)%N -> nth 0 (anderson_coeffs s') i = nth 0 x i
    & no_zero_pivot (ludcmp mat n).1.1 n ->
      (forall i, (i < n)%N ->
         \sum_(0 <= j < n)
            spec_matrix h (dimension s') n i j * nth 0 (anderson_coeffs s') j
         = spec_rhs h (dimension s') n i)
      /\ (forall y : seq F,
            (forall i, (i < n)%N ->
               \sum_(0 <= j < n) spec_matrix h (dimension s') n i j * nth 0 y j
               = spec_rhs h (dimension s') n i) ->
            forall j, (j < n)%N -> nth 0 y j = nth 0 (anderson_coeffs s') j)].
Proof.
move=> on k_ge3 full /=.
have k_ge2 : (2 <= capacity cfg)%N by apply: ltnW.
have [coeffs_x _ _] :=
  hpv_coeffs (@DenseMatrixOperations.ludcmp F) (@DenseMatrixOperations.lubksb F)
    on k_ge2 full.
split=> // [i j lt_i lt_j|i lt_i|pivot].
- by rewrite setup_matE.
- by rewrite setup_rhsE.
split=> [i lt_i|y sol j lt_j].
  rewrite -setup_rhsE // -(lu_solve_solves _ pivot lt_i).
  apply: eq_big_nat => j /andP [_ lt_j].
  by rewrite coeffs_x // /DenseMatrixOperations.entry setup_matE.
rewrite coeffs_x //; apply: (lu_solve_unique pivot) => // i lt_i.
rewrite setup_rhsE // -sol //; apply: eq_big_nat => c /andP [_ lt_c].
by rewrite /DenseMatrixOperations.entry setup_matE.
Qed.

Lemma coefficients_solve_dense_system_witness :
  let s' := handle_previous_vectors Demo.ludcmp Demo.lubksb Demo.cfg4
              (Demo.at_third Demo.cfg4) in
  let n := (capacity Demo.cfg4 - 2)%N in
  let h := read_pv s' in
  let mat := setup_mat h (dimension s') n in
  let rhs := setup_rhs h (dimension s') n in
  let x := lu_solve Demo.ludcmp Demo.lubksb mat n rhs in
  [/\ forall i j, (i < n)%N -> (j < n)%N ->
        nth 0 (nth [::] mat i) j
        = \sum_(0 <= c < dimension s')
             ((h n.+1 c - h n c) - (h i.+1 c - h i c))
             * ((h n.+1 c - h n c) - (h j.+1 c - h j c)),
      forall i, (i < n)%N ->
        nth 0 rhs i
        = \sum_(0 <= c < dimension s')
             (h n.+1 c - h n c) * ((h n.+1 c - h n c) - (h i.+1 c - h i c)),
      forall i, (i < n)%N -> nth 0 (anderson_coeffs s') i = nth 0 x i,
      forall i, (i < n)%N ->
        \sum_(0 <= j < n)
           spec_matrix h (dimension s') n i j * nth 0 (anderson_coeffs s') j
        = spec_rhs h (dimension s') n i
    & forall y : seq rat,
        (forall i, (i < n)%N ->
           \sum_(0 <= j < n) spec_matrix h (dimension s') n i j * nth 0 y j
           = spec_rhs h (dimension s') n i) ->
        forall j, (j < n)%N -> nth 0 y j = nth 0 (anderson_coeffs s') j].
Proof.
have on : anderson_is_on Demo.cfg4 by vm_compute.
have k_ge3 : (3 <= capacity Demo.cfg4)%N by vm_compute.
have full : (capacity Demo.cfg4
             <= vec_in_memory (push_vector Demo.cfg4 (Demo.at_third Demo.cfg4)))%N.
  by vm_compute.
have [entries rhs_entries coeffs solved] :=
  coefficients_solve_dense_system on k_ge3 full.
have pivot :
  no_zero_pivot
    (DenseMatrixOperations.ludcmp
       (setup_mat
          (read_pv (handle_previous_vectors Demo.ludcmp Demo.lubksb Demo.cfg4
                      (Demo.at_third Demo.cfg4)))
          (dimension (handle_previous_vectors Demo.ludcmp Demo.lubksb Demo.cfg4
                        (Demo.at_third Demo.cfg4)))
          (capacity Demo.cfg4 - 2))
       (capacity Demo.cfg4 - 2)).1.1 (capacity Demo.cfg4 - 2).
  by vm_compute.
have [sol uniq] := solved pivot.
by split; [exact: entries | exact: rhs_entries | exact: coeffs | exact: sol | exact: uniq].
Defined.

(** C3 as stated fails when the system is singular.  With a history that
    advances by equal steps the matrix is [0] and the right-hand side [0]:
    in exact arithmetic every value solves the system, so that it has no
    solution of its own, and the helper as modelled returns 0; in [double]
    the helper as modelled returns [0/0], which is not a number and solves
    nothing. *)
Lemma singular_system_counterexample :
  let mat := setup_mat Cases.ramp 2 1 in
  let rhs := setup_rhs Cases.ramp 2 1 in
  let mat64 := Machine.setup_mat Machine.binary64 Binary64.ramp 1 1 in
  let rhs64 := Machine.setup_rhs Machine.binary64 Binary64.ramp 1 1 in
  let x64 := Machine.lu_solve Binary64.ludcmp Binary64.lubksb mat64 1 rhs64 in
  [/\ mat = [:: [:: 0]] /\ rhs = [:: 0],
      lu_solve Demo.ludcmp Demo.lubksb mat 1 rhs = [:: 0],
      solves_system mat 1 [:: 0] rhs /\ solves_system mat 1 [:: 5%:Q] rhs,
      mat64 = [:: [:: 0%float]] /\ rhs64 = [:: 0%float]
    & PrimFloat.eqb (Machine.row_product Machine.binary64 mat64 1 x64 0)
        (nth PrimFloat.zero rhs64 0)
      = false].
Proof.
split; [split; apply/eqP | apply/eqP | split | split | ]; by vm_compute.
Qed.


(** ** The history *)

(** C4, as the code has it.  With capacity 2 and acceleration on,
    [handle_previous_vectors] stores the single coefficient 1 whatever the
    dense helpers are (they are not consulted), the history then holds the
    previous newest vector and the raw iterate, and component [i] of the
    mixed vector is [newest - (1 - damping) * (newest - previous)]; it is
    the raw iterate when the damping factor is 1, its default. *)
Theorem capacity_two_mixing (R : comRingType)
    (ludcmp : seq (seq R) -> nat -> seq (seq R) * seq nat * int)
    (lubksb : seq (seq R) -> nat -> seq nat -> seq R -> seq R)
    (cfg : config R) (s : state R) :
  anderson_is_on cfg -> capacity cfg = 2%N -> wf_history cfg s ->
  (0 < vec_in_memory s)%N ->
  let s' := handle_previous_vectors ludcmp lubksb cfg s in
  let newest := sln_vector s in
  let previous := last [::] (stored s) in
  [/\ forall ludcmp' lubksb', handle_previous_vectors ludcmp' lubksb' cfg s = s',
      nth 0 (anderson_coeffs s') 0 = 1,
      history s' = [:: previous; newest],
      forall i, (i < dimension s)%N ->
        nth 0 (sln_vector s') i
        = nth 0 newest i - (1 - anderson_beta cfg) * (nth 0 newest i - nth 0 previous i)
    & anderson_beta cfg = 1 -> sln_vector s' = newest].
Proof.
move=> on k2 wf_s vim_gt0 /=.
have k_pos : (0 < capacity cfg)%N by rewrite k2.
have sz_st := size_stored wf_s.
have [wf_p st_p vim_p] :
    [/\ wf_history cfg (push_vector cfg s),
        stored (push_vector cfg s) = [:: last [::] (stored s); sln_vector s]
      & vec_in_memory (push_vector cfg s) = 2%N].
  case: (ltnP (vec_in_memory s) (capacity cfg)) => [lt_v|le_v].
    have [wf_p _ vim_p st_p] := push_not_full wf_s lt_v.
    have vim1 : vec_in_memory s = 1%N.
      by move: lt_v vim_gt0; rewrite k2; case: (vec_in_memory s) => [|[|]].
    split=> //; last by rewrite vim_p vim1.
    by rewrite st_p; move: sz_st; rewrite vim1; case: (stored s) => [|a [|]].
  have [wf_p _ vim_p st_p] := push_full wf_s k_pos le_v.
  have vim2 : vec_in_memory s = 2%N.
    by apply/eqP; rewrite eqn_leq -{1}k2 wf_vec_in_memory // -k2 le_v.
  split=> //; last by rewrite vim_p vim2.
  by rewrite st_p; move: sz_st; rewrite vim2; case: (stored s) => [|a [|b [|]]].
have hist_p : history (push_vector cfg s) = [:: last [::] (stored s); sln_vector s].
  by rewrite -st_p /stored vim_p take_oversize // size_history (wf_size_pv wf_p) k2.
have full : (capacity cfg <= vec_in_memory (push_vector cfg s))%N by rewrite vim_p k2.
have [coeffs_eq sln_eq read_eq dim_eq] := hpv_full ludcmp lubksb on full.
have hpvE : handle_previous_vectors ludcmp lubksb cfg s
            = mix_if_full ludcmp lubksb cfg (push_vector cfg s).
  by rewrite /handle_previous_vectors on.
have [pv_m rows_m vim_m] := mix_history ludcmp lubksb cfg (push_vector cfg s).
have hist : history (handle_previous_vectors ludcmp lubksb cfg s)
            = [:: last [::] (stored s); sln_vector s].
  by rewrite hpvE /history pv_m rows_m -/(history _).
have c0 : nth 0 (anderson_coeffs (handle_previous_vectors ludcmp lubksb cfg s)) 0 = 1.
  by rewrite coeffs_eq /calculate_anderson_coeffs k2 /= nth_set_nth.
have mixed i : (i < dimension s)%N ->
    nth 0 (sln_vector (handle_previous_vectors ludcmp lubksb cfg s)) i
    = nth 0 (sln_vector s) i
      - (1 - anderson_beta cfg)
        * (nth 0 (sln_vector s) i - nth 0 (last [::] (stored s)) i).
  move=> lt_i; rewrite (hpv_mixed ludcmp lubksb on full lt_i) k2 big_nat1 /=.
  rewrite c0 mul1r mulr1 !read_pv_history ?hist //.
  - by rewrite hpvE pv_m (wf_size_pv wf_p) k2.
  - by rewrite hpvE pv_m (wf_size_pv wf_p) k2.
split=> // [ludcmp' lubksb'|beta1].
  by rewrite /handle_previous_vectors /mix_if_full /calculate_anderson_coeffs k2.
have sz_mixed :
    size (sln_vector (handle_previous_vectors ludcmp lubksb cfg s)) = dimension s.
  rewrite sln_eq mix_vectorsE size_cat size_mkseq size_drop.
  by rewrite (wf_size_sln wf_s) subnn addn0.
apply: (@eq_from_nth _ 0) => [|i]; first by rewrite sz_mixed (wf_size_sln wf_s).
by rewrite sz_mixed => lt_i; rewrite mixed // beta1 subrr mul0r subr0.
Qed.

Lemma capacity_two_mixing_witness :
  let s := Demo.at_first Demo.cfg2 in
  let s' := handle_previous_vectors Demo.ludcmp Demo.lubksb Demo.cfg2 s in
  let newest := sln_vector s in
  let previous := last [::] (stored s) in
  [/\ forall ludcmp' lubksb',
        handle_previous_vectors ludcmp' lubksb' Demo.cfg2 s = s',
      nth 0 (anderson_coeffs s') 0 = 1,
      history s' = [:: previous; newest],
      forall i, (i < dimension s)%N ->
        nth 0 (sln_vector s') i
        = nth 0 newest i
          - (1 - anderson_beta Demo.cfg2) * (nth 0 newest i - nth 0 previous i)
    & sln_vector s' = newest].
Proof.
have on : anderson_is_on Demo.cfg2 by vm_compute.
have k2 : capacity Demo.cfg2 = 2%N by vm_compute.
have wf_s : wf_history Demo.cfg2 (Demo.at_first Demo.cfg2) by vm_compute.
have vim_gt0 : (0 < vec_in_memory (Demo.at_first Demo.cfg2))%N by vm_compute.
have beta1 : anderson_beta Demo.cfg2 = 1 by [].
have [indep coeff hist mixed raw] :=
  capacity_two_mixing Demo.ludcmp Demo.lubksb on k2 wf_s vim_gt0.
split; [exact: indep | exact: coeff | exact: hist | exact: mixed | exact: raw beta1].
Defined.

(** C4 as stated fails when the damping factor is not 1: with capacity 2
    and damping 1/2 the mixed vector differs from the newest history entry,
    which is the raw iterate. *)
Lemma capacity_two_counterexample :
  let cfg := Demo.cfg2_damped in
  let s := Demo.at_first cfg in
  let s' := handle_previous_vectors Demo.ludcmp Demo.lubksb cfg s in
  [/\ anderson_is_on cfg, capacity cfg = 2%N, wf_history cfg s,
      last [::] (history s') = sln_vector s
    & sln_vector s' <> last [::] (history s')].
Proof.
by split; [vm_compute | vm_compute | vm_compute | apply/eqP; vm_compute
           | apply/eqP; vm_compute].
Qed.

(** C5.  A push onto a full history of capacity [k] drops entry 0, moves the
    other [k - 1] entries down by one place in their order and stores the
    new vector at the last index; and when [solve] starts from [v1] and then
    takes over [k] further vectors, the history holds exactly these [k]
    vectors, in order. *)
Theorem push_on_full_history (R : comRingType)
    (ludcmp : seq (seq R) -> nat -> seq (seq R) * seq nat * int)
    (lubksb : seq (seq R) -> nat -> seq nat -> seq R -> seq R)
    (uninit : R) (cfg : config R) :
  (forall s : state R,
     wf_history cfg s -> (0 < capacity cfg)%N ->
     (capacity cfg <= vec_in_memory s)%N ->
     history (push_vector cfg s) = rcons (behead (history s)) (sln_vector s))
  /\ (forall (dim : nat) (v1 : seq R) (vs : seq (seq R)) (s0 : state R),
        2 <= num_last_vectors_used cfg -> anderson_is_on cfg ->
        all (fun v => size v == dim) (v1 :: vs) -> size vs = capacity cfg ->
        history
          (foldl (fun s v => accept_iterate ludcmp lubksb cfg v s)
             (start_state uninit cfg (Some v1) dim s0) vs)
        = vs).
Proof.
split=> [s wf_s k_pos full|dim v1 vs s0 num_ok on /= /andP [/eqP sz_v1 sz_vs] sz_k].
  by have [] := push_full wf_s k_pos full.
have k_pos := k_gt0 num_ok.
have [wf_0 dim_0 vim_0 st_0] := start_wf uninit num_ok on s0 (arg := Some v1) sz_v1.
have [|wf_n dim_n st_n] := accept_seq ludcmp lubksb on k_pos wf_0 (vs := vs).
  by rewrite dim_0.
have st_vs : stored (foldl (fun s v => accept_iterate ludcmp lubksb cfg v s)
                       (start_state uninit cfg (Some v1) dim s0) vs) = vs.
  by rewrite st_n st_0 /lastn /= sz_k subSn // subnn drop1.
rewrite -[RHS]st_vs /stored -(size_stored wf_n) st_vs sz_k take_oversize //.
by rewrite size_history (wf_size_pv wf_n).
Qed.

Lemma push_on_full_history_witness :
  history (push_vector Demo.cfg3 (Demo.at_third Demo.cfg3))
  = rcons (behead (history (Demo.at_third Demo.cfg3)))
      (sln_vector (Demo.at_third Demo.cfg3))
  /\ history
       (foldl (fun s v => accept_iterate Demo.ludcmp Demo.lubksb Demo.cfg3 v s)
          (start_state Demo.junk Demo.cfg3 (Some Demo.guess) 2 (new_solver rat))
          [:: in_new_sln Demo.first; in_new_sln Demo.second; in_new_sln Demo.third])
     = [:: in_new_sln Demo.first; in_new_sln Demo.second; in_new_sln Demo.third].
Proof.
have [one_push sequence] :=
  push_on_full_history Demo.ludcmp Demo.lubksb Demo.junk Demo.cfg3.
by split; [apply: one_push | apply: sequence]; vm_compute.
Defined.



(** ** Termination paths of [solve] *)

(** C6, as the code has it.  Whenever [solve] ends, [on_finish()] has been
    called once, except when the initial step already converges: then
    [handle_convergence_state_return_finished] finalizes and [solve]
    finalizes again, so the hook runs twice. *)
Theorem on_finish_calls_of_solve (R : comRingType)
    (ludcmp : seq (seq R) -> nat -> seq (seq R) * seq nat * int)
    (lubksb : seq (seq R) -> nat -> seq nat -> seq R -> seq R)
    (uninit : R) (cfg : config R) (arg : option (seq R)) (dim : nat)
    (first : step_input R) (script : seq (step_input R)) (s0 : state R)
    (r : res R unit) :
  2 <= num_last_vectors_used cfg -> base_isOkay cfg ->
  solve ludcmp lubksb uninit cfg arg dim first script s0 = Some r ->
  finish_count (final_state r)
  = (finish_count s0 + (if in_state first is Converged then 2 else 1))%N.
Proof.
move=> num_ok base_ok run_r.
by have [] := solve_obs num_ok base_ok (b := BlkCoeffs) isT run_r.
Qed.

Lemma on_finish_calls_of_solve_witness :
  finish_count (final_state (Demo.outcome Demo.cfg3 Demo.converged [::]))
  = (finish_count (new_solver rat) + 2)%N.
Proof.
have num_ok : 2 <= num_last_vectors_used Demo.cfg3 by vm_compute.
have base_ok : base_isOkay Demo.cfg3 by vm_compute.
have run_r : solve Demo.ludcmp Demo.lubksb Demo.junk Demo.cfg3 (Some Demo.guess) 2
               Demo.converged [::] (new_solver rat)
             = Some (Demo.outcome Demo.cfg3 Demo.converged [::]).
  by vm_compute.
exact: (on_finish_calls_of_solve num_ok base_ok run_r).
Defined.

(** The fatal states end [solve] with an exception, whatever answers would
    follow. *)
Lemma fatal_states_raise (R : comRingType)
    (ludcmp : seq (seq R) -> nat -> seq (seq R) * seq nat * int)
    (lubksb : seq (seq R) -> nat -> seq nat -> seq R -> seq R)
    (uninit : R) (cfg : config R) (arg : option (seq R)) (dim : nat)
    (first e : step_input R) (steps rest : seq (step_input R)) (s0 : state R) :
  2 <= num_last_vectors_used cfg -> base_isOkay cfg ->
  initial_continuing first -> all (@continuing R) steps -> in_step_begin e ->
  let run := solve ludcmp lubksb uninit cfg arg dim first (steps ++ e :: rest) s0 in
  (in_state e = AboveMaxIterations ->
   exists s', run = Some (Throw unit (NonlinearException AboveMaxIterations) s'))
  /\ (in_state e = Error -> exists s', run = Some (Throw unit UnknownException s')).
Proof.
move=> num_ok base_ok cont_first cont_steps begin_ok /=.
rewrite /solve entry_continue // main_loop_continue //=.
by split=> st; [rewrite body_above_max | rewrite body_error] => //; eexists.
Qed.

(** C7.  With a capacity below 2, [solve] throws the configuration exception
    out of its validity check and leaves the object as it was: no event, so
    no iteration and no linear solve, has happened.  With a capacity of at
    least 2 the test on the capacity lets the object through: [isOkay]
    answers what the base class answers, and [check()] passes when that is
    [true]. *)
Theorem bad_capacity_fails_fast (R : comRingType)
    (ludcmp : seq (seq R) -> nat -> seq (seq R) * seq nat * int)
    (lubksb : seq (seq R) -> nat -> seq nat -> seq R -> seq R)
    (uninit : R) (cfg : config R) :
  (num_last_vectors_used cfg <= 1 ->
   forall arg dim first script s0,
     solve ludcmp lubksb uninit cfg arg dim first script s0
     = Some (Throw unit BadNumLastVectors s0))
  /\ (2 <= num_last_vectors_used cfg ->
      forall s : state R,
        isOkay cfg s = Val (base_isOkay cfg) s
        /\ (base_isOkay cfg -> check cfg s = Val tt s)).
Proof.
split=> [bad arg dim first script s0|num_ok s].
  by rewrite /solve /solve_entry /init_solving /bind check_bad.
by split=> [|base_ok]; [apply: isOkay_ge2 | apply: check_ok].
Qed.

Lemma bad_capacity_fails_fast_witness :
  solve Demo.ludcmp Demo.lubksb Demo.junk Demo.cfg_bad (Some Demo.guess) 2
    Demo.first [:: Demo.second] (new_solver rat)
  = Some (Throw unit BadNumLastVectors (new_solver rat))
  /\ check Demo.cfg3 (new_solver rat) = Val tt (new_solver rat).
Proof.
have bad : num_last_vectors_used Demo.cfg_bad <= 1 by vm_compute.
have num_ok : 2 <= num_last_vectors_used Demo.cfg3 by vm_compute.
have base_ok : base_isOkay Demo.cfg3 by vm_compute.
split.
  have [fails _] :=
    bad_capacity_fails_fast Demo.ludcmp Demo.lubksb Demo.junk Demo.cfg_bad.
  exact: fails.
have [_ passes] := bad_capacity_fails_fast Demo.ludcmp Demo.lubksb Demo.junk Demo.cfg3.
by have [_] := passes num_ok (new_solver rat); apply.
Defined.

(** C8.  When [on_step_begin()] or [on_step_end()] answers [false], [solve]
    returns without an exception, and the finalize sequence has run: after
    the message that the run was aborted the clock is stopped, the
    iteration count is recorded, the duration is reported and
    [on_finish()] is called, once; the zero vector that [solve] has made
    for a [NULL] argument is freed, and nothing else.  The solution vector
    is the one the last completed pass accepted (abort at the beginning of
    a pass) or the one this pass accepted (abort at its end). *)
Theorem hook_abort_returns_normally (R : comRingType)
    (ludcmp : seq (seq R) -> nat -> seq (seq R) * seq nat * int)
    (lubksb : seq (seq R) -> nat -> seq nat -> seq R -> seq R)
    (uninit : R) (cfg : config R) (arg : option (seq R)) (dim : nat)
    (first e : step_input R) (steps rest : seq (step_input R)) (s0 : state R) :
  2 <= num_last_vectors_used cfg -> base_isOkay cfg ->
  initial_continuing first -> all (@continuing R) steps -> hook_abort e ->
  let s_before :=
    run_steps ludcmp lubksb cfg steps
      (final_state (solve_entry ludcmp lubksb uninit cfg arg dim first s0)) in
  exists s',
    [/\ solve ludcmp lubksb uninit cfg arg dim first (steps ++ e :: rest) s0
        = Some (Val tt s'),
        finish_count s' = (finish_count s0).+1,
        num_iters s' = it s_before
      & sln_vector s'
        = if in_step_begin e
          then sln_vector (accept_iterate ludcmp lubksb cfg (in_new_sln e) s_before)
          else sln_vector s_before]
    /\ [/\ trace s'
           = trace s_before
             ++ OnStepBegin
                :: (if in_step_begin e
                    then linear_solve_events (constant_jacobian cfg)
                         ++ [:: StepInfo; OnStepEnd]
                    else [::])
             ++ [:: InfoAborted; Tick; InfoDuration; OnFinish],
           delete_coeff_vec s' = false,
           heap s'
           = (if arg is None then release BlkCoeffVec (heap s_before)
              else heap s_before)
         & arg = None -> is_live BlkCoeffVec (heap s_before)].
Proof.
move=> num_ok base_ok cont_first cont_steps abort /=.
set s_e := final_state (solve_entry ludcmp lubksb uninit cfg arg dim first s0).
set s_before := run_steps _ _ _ _ _.
have stop := hook_abort_stops abort.
have [jr_e _ _ heap_e del_e] :=
  entry_state ludcmp lubksb uninit num_ok base_ok arg dim first s0.
have [jr_b _] := run_trace ludcmp lubksb cfg jr_e cont_steps.
have [heap_b del_b] := run_heap ludcmp lubksb cfg s_e cont_steps.
have [heap_s del_s] := start_heap uninit cfg arg dim s0.
have del_before : delete_coeff_vec s_before = ~~ isSome arg.
  by rewrite /s_before del_b del_e cont_first del_s.
have heap_before : heap s_before = heap (start_state uninit cfg arg dim s0).
  by rewrite /s_before heap_b heap_e cont_first.
have count_before : finish_count s_before = finish_count s0.
  rewrite /s_before run_finish_count //.
  have [_ ->] := entry_obs ludcmp lubksb uninit num_ok base_ok arg dim first s0
                   (b := BlkCoeffs) isT.
  by rewrite entry_continue // addn0.
have [_ _ _ heap_f del_f] := body_state ludcmp lubksb cfg e s_before.
have trace_f := body_trace ludcmp lubksb cfg e s_before.
have run_eq : solve ludcmp lubksb uninit cfg arg dim first (steps ++ e :: rest) s0
              = Some (ending (loop_body ludcmp lubksb cfg e s_before)).
  by rewrite stop_in_loop.
have heap_x : heap (final_state (loop_body ludcmp lubksb cfg e s_before))
              = (if arg is None then release BlkCoeffVec (heap s_before)
                 else heap s_before).
  by rewrite heap_f (negbTE stop) del_before; case: (arg).
have del_x : delete_coeff_vec (final_state (loop_body ludcmp lubksb cfg e s_before))
             = false.
  by rewrite del_f (negbTE stop).
have live_x : arg = None -> is_live BlkCoeffVec (heap s_before).
  move=> arg_none; rewrite heap_before heap_s arg_none.
  by rewrite /is_live !has_cat /= orbT.
have trace_x : trace (final_state (loop_body ludcmp lubksb cfg e s_before))
               = trace s_before
                 ++ OnStepBegin
                    :: (if in_step_begin e
                        then linear_solve_events (constant_jacobian cfg)
                             ++ [:: StepInfo; OnStepEnd]
                        else [::])
                 ++ [:: InfoAborted; Tick; InfoDuration; OnFinish].
  rewrite trace_f jr_b /pass_events; congr (_ ++ _).
  move: abort; rewrite /hook_abort; case: (in_step_begin e) => //=.
  by case: (in_state e) => //= /negbTE ->; rewrite -catA.
move: heap_x del_x trace_x run_eq.
move: abort; rewrite /hook_abort; case begin_e: (in_step_begin e).
  case/andP=> not_conv /negbTE end_e; rewrite body_end_abort // final_state_Val.
  move=> heap_x del_x trace_x ->; eexists; split; last first.
    by split; [exact: trace_x | exact: del_x | exact: heap_x | exact: live_x].
  split; first by [].
  - rewrite finalize_finish_count 2!finish_count_log work_finish_count.
    by rewrite finish_count_log /= !addn0 count_before.
  - by rewrite finalize_num_iters 2!it_log work_it it_log.
  - rewrite (finalize_sln cfg) 2!sln_log work_sln.
    have view_eq : anderson_view (log OnStepBegin s_before) = anderson_view s_before.
      by [].
    have := accept_view_congr ludcmp lubksb cfg (in_new_sln e) view_eq.
    by case/(anderson_viewP cfg) => -[_ -> _ _ _] _.
move=> _; rewrite body_begin_abort // final_state_Val.
move=> heap_x del_x trace_x ->; eexists; split; last first.
  by split; [exact: trace_x | exact: del_x | exact: heap_x | exact: live_x].
split; first by [].
- by rewrite finalize_finish_count 2!finish_count_log /= !addn0 count_before.
- by rewrite finalize_num_iters 2!it_log.
- by rewrite (finalize_sln cfg) 2!sln_log.
Qed.

Lemma hook_abort_returns_normally_witness :
  let s_before :=
    run_steps Demo.ludcmp Demo.lubksb Demo.cfg3 [:: Demo.second]
      (final_state
         (solve_entry Demo.ludcmp Demo.lubksb Demo.junk Demo.cfg3 None 2
            Demo.first (new_solver rat))) in
  (exists s',
     [/\ solve Demo.ludcmp Demo.lubksb Demo.junk Demo.cfg3 None 2
           Demo.first ([:: Demo.second] ++ Demo.end_abort :: [:: Demo.third])
           (new_solver rat)
         = Some (Val tt s'),
         finish_count s' = (finish_count (new_solver rat)).+1,
         num_iters s' = it s_before
       & sln_vector s'
         = if in_step_begin Demo.end_abort
           then sln_vector
                  (accept_iterate Demo.ludcmp Demo.lubksb Demo.cfg3
                     (in_new_sln Demo.end_abort) s_before)
           else sln_vector s_before]
     /\ [/\ trace s'
            = trace s_before
              ++ OnStepBegin
                 :: (if in_step_begin Demo.end_abort
                     then linear_solve_events (constant_jacobian Demo.cfg3)
                          ++ [:: StepInfo; OnStepEnd]
                     else [::])
              ++ [:: InfoAborted; Tick; InfoDuration; OnFinish],
            delete_coeff_vec s' = false,
            heap s' = release BlkCoeffVec (heap s_before)
          & None = None :> option (seq rat) -> is_live BlkCoeffVec (heap s_before)])
  /\ (exists s',
        [/\ solve Demo.ludcmp Demo.lubksb Demo.junk Demo.cfg3 None 2
              Demo.first ([:: Demo.second] ++ Demo.begin_abort :: [:: Demo.third])
              (new_solver rat)
            = Some (Val tt s'),
            finish_count s' = (finish_count (new_solver rat)).+1,
            num_iters s' = it s_before
          & sln_vector s'
            = if in_step_begin Demo.begin_abort
              then sln_vector
                     (accept_iterate Demo.ludcmp Demo.lubksb Demo.cfg3
                        (in_new_sln Demo.begin_abort) s_before)
              else sln_vector s_before]
        /\ [/\ trace s'
               = trace s_before
                 ++ OnStepBegin
                    :: (if in_step_begin Demo.begin_abort
                        then linear_solve_events (constant_jacobian Demo.cfg3)
                             ++ [:: StepInfo; OnStepEnd]
                        else [::])
                 ++ [:: InfoAborted; Tick; InfoDuration; OnFinish],
               delete_coeff_vec s' = false,
               heap s' = release BlkCoeffVec (heap s_before)
             & None = None :> option (seq rat)
               -> is_live BlkCoeffVec (heap s_before)]).
Proof.
have num_ok : 2 <= num_last_vectors_used Demo.cfg3 by vm_compute.
have base_ok : base_isOkay Demo.cfg3 by vm_compute.
have cont_first : initial_continuing Demo.first by vm_compute.
have cont_steps : all (@continuing rat) [:: Demo.second] by vm_compute.
have abort_end : hook_abort Demo.end_abort by vm_compute.
have abort_begin : hook_abort Demo.begin_abort by vm_compute.
split.
  exact: (hook_abort_returns_normally Demo.ludcmp Demo.lubksb Demo.junk
            None 2 [:: Demo.third] (new_solver rat) num_ok base_ok
            cont_first cont_steps abort_end).
exact: (hook_abort_returns_normally Demo.ludcmp Demo.lubksb Demo.junk
          None 2 [:: Demo.third] (new_solver rat) num_ok base_ok
          cont_first cont_steps abort_begin).
Defined.

(** C9, as the code has it.  With acceleration on, the row table, the rows
    and the coefficient array that [init_anderson] allocates are still
    allocated whenever [solve] ends: [deinit_anderson] is never called.
    With acceleration off, [solve] neither allocates nor frees any of these
    blocks. *)
Theorem anderson_memory_after_solve (R : comRingType)
    (ludcmp : seq (seq R) -> nat -> seq (seq R) * seq nat * int)
    (lubksb : seq (seq R) -> nat -> seq nat -> seq R -> seq R)
    (uninit : R) (cfg : config R) (arg : option (seq R)) (dim : nat)
    (first : step_input R) (script : seq (step_input R)) (s0 : state R)
    (r : res R unit) :
  2 <= num_last_vectors_used cfg -> base_isOkay cfg ->
  solve ludcmp lubksb uninit cfg arg dim first script s0 = Some r ->
  if anderson_is_on cfg then
    [/\ is_live BlkRowTable (heap (final_state r)),
        is_live BlkCoeffs (heap (final_state r))
      & forall i, (i < capacity cfg)%N -> is_live (BlkRow i) (heap (final_state r))]
  else
    forall b, anderson_block b ->
      is_live b (heap (final_state r)) = is_live b (heap s0).
Proof.
move=> num_ok base_ok run_r.
have live b : anderson_block b ->
    is_live b (heap (final_state r))
    = is_live b (heap (init_anderson uninit cfg (init_solving_body uninit arg dim s0))).
  by move=> ab; have [-> _] := solve_obs num_ok base_ok ab run_r.
case on: (anderson_is_on cfg); last first.
  by move=> b ab; rewrite live // init_anderson_heap on init_body_live.
split=> [||i lt_i]; rewrite live // init_anderson_heap on /is_live;
  move: (heap _) => h /=.
- by rewrite has_cat /= orbT.
- by [].
- rewrite has_cat has_rev has_map; apply/orP; left; apply/hasP.
  by exists i; rewrite ?mem_iota //= eqxx.
Qed.

Lemma anderson_memory_after_solve_witness :
  let r := Demo.outcome Demo.cfg3 Demo.first [:: Demo.second; Demo.converged] in
  let r' := Demo.outcome Demo.cfg_plain Demo.first [:: Demo.second; Demo.converged] in
  [/\ is_live BlkRowTable (heap (final_state r)),
      is_live BlkCoeffs (heap (final_state r))
    & forall i, (i < capacity Demo.cfg3)%N -> is_live (BlkRow i) (heap (final_state r))]
  /\ (forall b, anderson_block b ->
        is_live b (heap (final_state r')) = is_live b (heap (new_solver rat))).
Proof.
have num_ok : 2 <= num_last_vectors_used Demo.cfg3 by vm_compute.
have base_ok : base_isOkay Demo.cfg3 by vm_compute.
have run_r : solve Demo.ludcmp Demo.lubksb Demo.junk Demo.cfg3 (Some Demo.guess) 2
               Demo.first [:: Demo.second; Demo.converged] (new_solver rat)
             = Some (Demo.outcome Demo.cfg3 Demo.first [:: Demo.second; Demo.converged]).
  by vm_compute.
have num_ok' : 2 <= num_last_vectors_used Demo.cfg_plain by vm_compute.
have base_ok' : base_isOkay Demo.cfg_plain by vm_compute.
have run_r' :
    solve Demo.ludcmp Demo.lubksb Demo.junk Demo.cfg_plain (Some Demo.guess) 2
      Demo.first [:: Demo.second; Demo.converged] (new_solver rat)
    = Some (Demo.outcome Demo.cfg_plain Demo.first [:: Demo.second; Demo.converged]).
  by vm_compute.
split.
  exact: (anderson_memory_after_solve num_ok base_ok run_r).
exact: (anderson_memory_after_solve num_ok' base_ok' run_r').
Defined.

(** [deinit_anderson] would have released them. *)
Lemma deinit_anderson_releases :
  let r := Demo.outcome Demo.cfg3 Demo.first [:: Demo.second; Demo.converged] in
  let s := deinit_anderson Demo.cfg3 (final_state r) in
  [/\ is_live BlkRowTable (heap s) = false, is_live BlkCoeffs (heap s) = false
    & all (fun i => ~~ is_live (BlkRow i) (heap s)) (iota 0 (capacity Demo.cfg3))].
Proof. by split; vm_compute. Qed.

(** * Further properties of the code *)

(** ** The dense system and the mixing formula *)

(** X1.  The matrix that [calculate_anderson_coeffs] hands to [ludcmp] is
    symmetric: the entry in row [i] and column [j] is the entry in row [j]
    and column [i] (outside the [n] by [n] block both reads give 0). *)
Theorem anderson_matrix_symmetric (R : comRingType) (pvec : nat -> nat -> R)
    (dim n i j : nat) :
  nth 0 (nth [::] (setup_mat pvec dim n) i) j
  = nth 0 (nth [::] (setup_mat pvec dim n) j) i.
Proof. exact: setup_mat_sym. Qed.

(** X2.  When the increment [previous_vectors[i+1] - previous_vectors[i]]
    of some [i < n] equals the newest increment
    [previous_vectors[n+1] - previous_vectors[n]] in every component, row
    [i] and column [i] of the matrix and entry [i] of the right-hand side
    are 0: the system handed to [ludcmp] is singular, and a solution stays
    a solution whatever is put in its place [i]. *)
Theorem repeated_increment_makes_system_singular (R : comRingType)
    (pvec : nat -> nat -> R) (dim n i : nat) :
  (i < n)%N ->
  (forall c, (c < dim)%N -> residual pvec i c = residual pvec n c) ->
  let mat := setup_mat pvec dim n in
  let rhs := setup_rhs pvec dim n in
  [/\ nth 0 rhs i = 0,
      forall j, nth 0 (nth [::] mat i) j = 0 /\ nth 0 (nth [::] mat j) i = 0
    & forall (x : seq R) (t : R),
        solves_system mat n x rhs -> solves_system mat n (set_nth 0 x i t) rhs].
Proof.
move=> lt_i same /=; have [rhs0 row0] := zero_row same.
have col0 j : nth 0 (nth [::] (setup_mat pvec dim n) j) i = 0.
  by rewrite setup_mat_sym nth_setup_mat row0 if_same.
split=> [|j|x t /solves_systemP sol]; first by rewrite nth_setup_rhs rhs0 if_same.
  by split; rewrite ?col0 // nth_setup_mat row0 if_same.
apply/solves_systemP => i' lt_i'; rewrite -sol //.
apply: eq_bigr => j _; rewrite nth_set_nth /=.
by case: eqP => // ->; rewrite col0 !mul0r.
Qed.

Lemma repeated_increment_makes_system_singular_witness :
  let mat := setup_mat Cases.ramp 2 1 in
  let rhs := setup_rhs Cases.ramp 2 1 in
  [/\ nth 0 rhs 0 = 0,
      forall j, nth 0 (nth [::] mat 0) j = 0 /\ nth 0 (nth [::] mat j) 0 = 0
    & forall (x : seq rat) (t : rat),
        solves_system mat 1 x rhs -> solves_system mat 1 (set_nth 0 x 0 t) rhs].
Proof.
have lt_i : (0 < 1)%N by [].
have same c : (c < 2)%N -> residual Cases.ramp 0 c = residual Cases.ramp 1 c.
  by move=> _; apply/eqP; vm_compute.
exact: (repeated_increment_makes_system_singular lt_i same).
Defined.


(** ** The history over whole runs *)

(** X6.  With acceleration on, after the initial step and any number of
    further passes that all go on, the history holds the last [k] of the
    vectors handed to it (the initial iterate, then the vectors of the
    linear solves, never a mixed vector), oldest first.  While fewer than
    [k] vectors have been handed over, the solution vector is the vector of
    the latest linear solve; from then on the coefficients and the solution
    vector are what [calculate_anderson_coeffs] and the mixing loop compute
    from these [k] vectors alone. *)
Theorem accepted_iterate_is_mix_of_window (R : comRingType)
    (ludcmp : seq (seq R) -> nat -> seq (seq R) * seq nat * int)
    (lubksb : seq (seq R) -> nat -> seq nat -> seq R -> seq R)
    (uninit : R) (cfg : config R) (arg : option (seq R)) (dim : nat)
    (first : step_input R) (steps : seq (step_input R)) (s0 : state R) :
  2 <= num_last_vectors_used cfg -> base_isOkay cfg -> anderson_is_on cfg ->
  size (initial_iterate arg dim) = dim ->
  initial_continuing first -> all (@continuing R) steps ->
  all (fun e => size (in_new_sln e) == dim) (first :: steps) ->
  let x0 := initial_iterate arg dim in
  let xs := [seq in_new_sln e | e <- first :: steps] in
  let h := lastn (capacity cfg) (x0 :: xs) in
  let s :=
    run_steps ludcmp lubksb cfg steps
      (final_state (solve_entry ludcmp lubksb uninit cfg arg dim first s0)) in
  [/\ stored s = h, vec_in_memory s = size h,
      ((size xs).+1 < capacity cfg)%N -> sln_vector s = last x0 xs
    & (capacity cfg <= (size xs).+1)%N ->
      [/\ history s = h,
          anderson_coeffs s
          = calculate_anderson_coeffs ludcmp lubksb (component h) dim (capacity cfg)
              (nseq (capacity cfg).-1 0)
        & sln_vector s
          = mkseq (mixed_entry (component h) (capacity cfg) (anderson_beta cfg)
                     (anderson_coeffs s))
              dim]].
Proof.
move=> num_ok base_ok on sz_x0 cont_first cont_steps sz_all /=.
have [[wf_s dim_s st_s _] [raw mixed]] :=
  run_closed ludcmp lubksb uninit num_ok base_ok on s0 sz_x0 cont_first cont_steps sz_all.
by split=> //; rewrite -(size_stored wf_s) st_s.
Qed.

Lemma accepted_iterate_is_mix_of_window_witness :
  let cfg := Demo.cfg3 in
  let arg := Some Demo.guess in
  let steps := [:: Demo.second; Demo.third] in
  let x0 := initial_iterate arg 2 in
  let xs := [seq in_new_sln e | e <- Demo.first :: steps] in
  let h := lastn (capacity cfg) (x0 :: xs) in
  let s :=
    run_steps Demo.ludcmp Demo.lubksb cfg steps
      (final_state
         (solve_entry Demo.ludcmp Demo.lubksb Demo.junk cfg arg 2 Demo.first
            (new_solver rat))) in
  [/\ stored s = h, vec_in_memory s = size h,
      ((size xs).+1 < capacity cfg)%N -> sln_vector s = last x0 xs
    & (capacity cfg <= (size xs).+1)%N ->
      [/\ history s = h,
          anderson_coeffs s
          = calculate_anderson_coeffs Demo.ludcmp Demo.lubksb (component h) 2
              (capacity cfg) (nseq (capacity cfg).-1 0)
        & sln_vector s
          = mkseq (mixed_entry (component h) (capacity cfg) (anderson_beta cfg)
                     (anderson_coeffs s))
              2]].
Proof.
have num_ok : 2 <= num_last_vectors_used Demo.cfg3 by vm_compute.
have base_ok : base_isOkay Demo.cfg3 by vm_compute.
have on : anderson_is_on Demo.cfg3 by vm_compute.
have sz_x0 : size (initial_iterate (Some Demo.guess) 2) = 2%N by vm_compute.
have cont_first : initial_continuing Demo.first by vm_compute.
have cont_steps : all (@continuing rat) [:: Demo.second; Demo.third] by vm_compute.
have sz_all : all (fun e => size (in_new_sln e) == 2%N)
                (Demo.first :: [:: Demo.second; Demo.third]) by vm_compute.
exact: (accepted_iterate_is_mix_of_window Demo.ludcmp Demo.lubksb Demo.junk
          (new_solver rat) num_ok base_ok on sz_x0 cont_first cont_steps sz_all).
Defined.

(** X7.  With acceleration on, every buffer keeps the size it was allocated
    with throughout a run: no store falls outside the [k] rows of
    [dimension] cells, the [k - 1] coefficients, the solution vector or the
    caller's vector; and the row pointers remain a permutation of the [k]
    row buffers, so that no row is lost or designated twice. *)
Theorem buffers_keep_their_sizes (R : comRingType)
    (ludcmp : seq (seq R) -> nat -> seq (seq R) * seq nat * int)
    (lubksb : seq (seq R) -> nat -> seq nat -> seq R -> seq R)
    (uninit : R) (cfg : config R) (arg : option (seq R)) (dim : nat)
    (first : step_input R) (steps : seq (step_input R)) (s0 : state R) :
  2 <= num_last_vectors_used cfg -> base_isOkay cfg -> anderson_is_on cfg ->
  size (initial_iterate arg dim) = dim ->
  initial_continuing first -> all (@continuing R) steps ->
  all (fun e => size (in_new_sln e) == dim) (first :: steps) ->
  let s :=
    run_steps ludcmp lubksb cfg steps
      (final_state (solve_entry ludcmp lubksb uninit cfg arg dim first s0)) in
  [/\ size (rows s) = capacity cfg,
      all (fun r => size r == dim) (rows s),
      perm_eq (previous_vectors s) (iota 0 (capacity cfg))
    & (vec_in_memory s <= capacity cfg)%N]
  /\ [/\ size (sln_vector s) = dim, size (anderson_coeffs s) = (capacity cfg).-1
       & size (coeff_vec s) = dim].
Proof.
move=> num_ok base_ok on sz_x0 cont_first cont_steps sz_all /=.
have [[wf_s dim_s _ sz_c] _] :=
  run_closed ludcmp lubksb uninit num_ok base_ok on s0 sz_x0 cont_first cont_steps sz_all.
have [_ sz_sln cv_s _] :=
  run_vectors ludcmp lubksb uninit num_ok base_ok s0 sz_x0 cont_first cont_steps sz_all.
case/and5P: wf_s; rewrite dim_s => /eqP sz_rows perm_pv all_rows _ le_v.
by rewrite cv_s; split.
Qed.

Lemma buffers_keep_their_sizes_witness :
  let s :=
    run_steps Demo.ludcmp Demo.lubksb Demo.cfg4 [:: Demo.second; Demo.third; Demo.second]
      (final_state
         (solve_entry Demo.ludcmp Demo.lubksb Demo.junk Demo.cfg4 None 2 Demo.first
            Cases.used)) in
  [/\ size (rows s) = capacity Demo.cfg4,
      all (fun r => size r == 2%N) (rows s),
      perm_eq (previous_vectors s) (iota 0 (capacity Demo.cfg4))
    & (vec_in_memory s <= capacity Demo.cfg4)%N]
  /\ [/\ size (sln_vector s) = 2%N, size (anderson_coeffs s) = (capacity Demo.cfg4).-1
       & size (coeff_vec s) = 2%N].
Proof.
have num_ok : 2 <= num_last_vectors_used Demo.cfg4 by vm_compute.
have base_ok : base_isOkay Demo.cfg4 by vm_compute.
have on : anderson_is_on Demo.cfg4 by vm_compute.
have sz_x0 : size (initial_iterate (None : option (seq rat)) 2) = 2%N by vm_compute.
have cont_first : initial_continuing Demo.first by vm_compute.
have cont_steps :
  all (@continuing rat) [:: Demo.second; Demo.third; Demo.second] by vm_compute.
have sz_all : all (fun e => size (in_new_sln e) == 2%N)
                (Demo.first :: [:: Demo.second; Demo.third; Demo.second]).
  by vm_compute.
exact: (buffers_keep_their_sizes Demo.ludcmp Demo.lubksb Demo.junk
          Cases.used num_ok base_ok on sz_x0 cont_first cont_steps sz_all).
Defined.

(** X8.  Whenever a pass of the loop begins, the caller's vector
    [coeff_vec], at which the next system is assembled, holds the solution
    vector that the pass before has accepted: with acceleration on and a
    full history that is the mixed vector, not the vector of the linear
    solver.  The iteration number then stands at the number of passes
    completed plus 2. *)
Theorem next_system_is_assembled_at_accepted_iterate (R : comRingType)
    (ludcmp : seq (seq R) -> nat -> seq (seq R) * seq nat * int)
    (lubksb : seq (seq R) -> nat -> seq nat -> seq R -> seq R)
    (uninit : R) (cfg : config R) (arg : option (seq R)) (dim : nat)
    (first : step_input R) (steps : seq (step_input R)) (s0 : state R) :
  2 <= num_last_vectors_used cfg -> base_isOkay cfg ->
  size (initial_iterate arg dim) = dim ->
  initial_continuing first -> all (@continuing R) steps ->
  all (fun e => size (in_new_sln e) == dim) (first :: steps) ->
  let s :=
    run_steps ludcmp lubksb cfg steps
      (final_state (solve_entry ludcmp lubksb uninit cfg arg dim first s0)) in
  coeff_vec s = sln_vector s
  /\ get_current_iteration_number s = (size steps).+2.
Proof.
move=> num_ok base_ok sz_x0 cont_first cont_steps sz_all /=.
rewrite /get_current_iteration_number.
by have [_ _ -> ->] :=
  run_vectors ludcmp lubksb uninit num_ok base_ok s0 sz_x0 cont_first cont_steps sz_all.
Qed.

Lemma next_system_is_assembled_at_accepted_iterate_witness :
  let s :=
    run_steps Demo.ludcmp Demo.lubksb Demo.cfg2_damped [:: Demo.second; Demo.third]
      (final_state
         (solve_entry Demo.ludcmp Demo.lubksb Demo.junk Demo.cfg2_damped
            (Some Demo.guess) 2 Demo.first (new_solver rat))) in
  coeff_vec s = sln_vector s /\ get_current_iteration_number s = 4%N.
Proof.
have num_ok : 2 <= num_last_vectors_used Demo.cfg2_damped by vm_compute.
have base_ok : base_isOkay Demo.cfg2_damped by vm_compute.
have sz_x0 : size (initial_iterate (Some Demo.guess) 2) = 2%N by vm_compute.
have cont_first : initial_continuing Demo.first by vm_compute.
have cont_steps : all (@continuing rat) [:: Demo.second; Demo.third] by vm_compute.
have sz_all : all (fun e => size (in_new_sln e) == 2%N)
                (Demo.first :: [:: Demo.second; Demo.third]) by vm_compute.
exact: (next_system_is_assembled_at_accepted_iterate Demo.ludcmp Demo.lubksb Demo.junk
          (new_solver rat) num_ok base_ok sz_x0 cont_first cont_steps sz_all).
Defined.

(** X9.  The iterates of a run depend on the answers of the collaborators
    only: two runs fed the same initial vector and the same answers leave
    the same solution vector and the same [coeff_vec], and with
    acceleration on the same history, whatever the object held before
    [solve] was called and whatever the freshly allocated buffers
    contain. *)
Theorem iterates_do_not_depend_on_earlier_state (R : comRingType)
    (ludcmp : seq (seq R) -> nat -> seq (seq R) * seq nat * int)
    (lubksb : seq (seq R) -> nat -> seq nat -> seq R -> seq R)
    (uninit uninit' : R) (cfg : config R) (arg : option (seq R)) (dim : nat)
    (first : step_input R) (steps : seq (step_input R)) (s0 s0' : state R) :
  2 <= num_last_vectors_used cfg -> base_isOkay cfg ->
  size (initial_iterate arg dim) = dim ->
  initial_continuing first -> all (@continuing R) steps ->
  all (fun e => size (in_new_sln e) == dim) (first :: steps) ->
  let s :=
    run_steps ludcmp lubksb cfg steps
      (final_state (solve_entry ludcmp lubksb uninit cfg arg dim first s0)) in
  let s' :=
    run_steps ludcmp lubksb cfg steps
      (final_state (solve_entry ludcmp lubksb uninit' cfg arg dim first s0')) in
  [/\ sln_vector s = sln_vector s', coeff_vec s = coeff_vec s'
    & anderson_is_on cfg ->
      stored s = stored s' /\ vec_in_memory s = vec_in_memory s'].
Proof.
move=> num_ok base_ok sz_x0 cont_first cont_steps sz_all /=.
have [_ _ cv_s _] :=
  run_vectors ludcmp lubksb uninit num_ok base_ok s0 sz_x0 cont_first cont_steps sz_all.
have [_ _ cv_s' _] :=
  run_vectors ludcmp lubksb uninit' num_ok base_ok s0' sz_x0 cont_first cont_steps sz_all.
rewrite cv_s cv_s'.
case on: (anderson_is_on cfg); last first.
  have [-> _ _ _] :=
    run_plain ludcmp lubksb uninit num_ok base_ok s0 on sz_x0 cont_first cont_steps sz_all.
  by have [-> _ _ _] :=
    run_plain ludcmp lubksb uninit' num_ok base_ok s0' on sz_x0 cont_first cont_steps
      sz_all.
have [[wf_s _ st_s _] [raw mixed]] :=
  run_closed ludcmp lubksb uninit num_ok base_ok on s0 sz_x0 cont_first cont_steps sz_all.
have [[wf_s' _ st_s' _] [raw' mixed']] :=
  run_closed ludcmp lubksb uninit' num_ok base_ok on s0' sz_x0 cont_first cont_steps sz_all.
have sln_eq :
    sln_vector
      (run_steps ludcmp lubksb cfg steps
         (final_state (solve_entry ludcmp lubksb uninit cfg arg dim first s0)))
    = sln_vector
        (run_steps ludcmp lubksb cfg steps
           (final_state (solve_entry ludcmp lubksb uninit' cfg arg dim first s0'))).
  case: (ltnP (size [seq in_new_sln e | e <- first :: steps]).+1 (capacity cfg)).
    by move=> lt_k; rewrite raw // raw'.
  move=> le_k; have [_ co_s ->] := mixed le_k; have [_ co_s' ->] := mixed' le_k.
  by rewrite co_s co_s'.
split=> // _; split; first by rewrite st_s st_s'.
by rewrite -(size_stored wf_s) -(size_stored wf_s') st_s st_s'.
Qed.

Lemma iterates_do_not_depend_on_earlier_state_witness :
  let s :=
    run_steps Demo.ludcmp Demo.lubksb Demo.cfg3 [:: Demo.second; Demo.third]
      (final_state
         (solve_entry Demo.ludcmp Demo.lubksb Demo.junk Demo.cfg3 (Some Demo.guess) 2
            Demo.first (new_solver rat))) in
  let s' :=
    run_steps Demo.ludcmp Demo.lubksb Demo.cfg3 [:: Demo.second; Demo.third]
      (final_state
         (solve_entry Demo.ludcmp Demo.lubksb 0 Demo.cfg3 (Some Demo.guess) 2
            Demo.first Cases.used)) in
  [/\ sln_vector s = sln_vector s', coeff_vec s = coeff_vec s'
    & anderson_is_on Demo.cfg3 ->
      stored s = stored s' /\ vec_in_memory s = vec_in_memory s'].
Proof.
have num_ok : 2 <= num_last_vectors_used Demo.cfg3 by vm_compute.
have base_ok : base_isOkay Demo.cfg3 by vm_compute.
have sz_x0 : size (initial_iterate (Some Demo.guess) 2) = 2%N by vm_compute.
have cont_first : initial_continuing Demo.first by vm_compute.
have cont_steps : all (@continuing rat) [:: Demo.second; Demo.third] by vm_compute.
have sz_all : all (fun e => size (in_new_sln e) == 2%N)
                (Demo.first :: [:: Demo.second; Demo.third]) by vm_compute.
exact: (iterates_do_not_depend_on_earlier_state Demo.ludcmp Demo.lubksb Demo.junk 0
          (new_solver rat) Cases.used num_ok base_ok sz_x0 cont_first cont_steps sz_all).
Defined.

(** ** Acceleration switched off *)

(** X10.  With acceleration off, every pass leaves the vector of its
    linear solve in the solution vector as it is, and a run never writes
    the row pointers, the rows or the coefficients. *)
Theorem plain_picard_without_acceleration (R : comRingType)
    (ludcmp : seq (seq R) -> nat -> seq (seq R) * seq nat * int)
    (lubksb : seq (seq R) -> nat -> seq nat -> seq R -> seq R)
    (uninit : R) (cfg : config R) (arg : option (seq R)) (dim : nat)
    (first : step_input R) (steps : seq (step_input R)) (s0 : state R) :
  2 <= num_last_vectors_used cfg -> base_isOkay cfg -> anderson_is_on cfg = false ->
  size (initial_iterate arg dim) = dim ->
  initial_continuing first -> all (@continuing R) steps ->
  all (fun e => size (in_new_sln e) == dim) (first :: steps) ->
  let s :=
    run_steps ludcmp lubksb cfg steps
      (final_state (solve_entry ludcmp lubksb uninit cfg arg dim first s0)) in
  [/\ sln_vector s = in_new_sln (last first steps),
      previous_vectors s = previous_vectors s0, rows s = rows s0
    & anderson_coeffs s = anderson_coeffs s0].
Proof.
move=> num_ok base_ok off sz_x0 cont_first cont_steps sz_all /=.
exact: (run_plain ludcmp lubksb uninit num_ok base_ok s0 off sz_x0 cont_first cont_steps
          sz_all).
Qed.

Lemma plain_picard_without_acceleration_witness :
  let s :=
    run_steps Demo.ludcmp Demo.lubksb Demo.cfg_plain [:: Demo.second; Demo.third]
      (final_state
         (solve_entry Demo.ludcmp Demo.lubksb Demo.junk Demo.cfg_plain (Some Demo.guess)
            2 Demo.first Cases.used)) in
  [/\ sln_vector s = in_new_sln (last Demo.first [:: Demo.second; Demo.third]),
      previous_vectors s = previous_vectors Cases.used, rows s = rows Cases.used
    & anderson_coeffs s = anderson_coeffs Cases.used].
Proof.
have num_ok : 2 <= num_last_vectors_used Demo.cfg_plain by vm_compute.
have base_ok : base_isOkay Demo.cfg_plain by vm_compute.
have off : anderson_is_on Demo.cfg_plain = false by vm_compute.
have sz_x0 : size (initial_iterate (Some Demo.guess) 2) = 2%N by vm_compute.
have cont_first : initial_continuing Demo.first by vm_compute.
have cont_steps : all (@continuing rat) [:: Demo.second; Demo.third] by vm_compute.
have sz_all : all (fun e => size (in_new_sln e) == 2%N)
                (Demo.first :: [:: Demo.second; Demo.third]) by vm_compute.
exact: (plain_picard_without_acceleration Demo.ludcmp Demo.lubksb Demo.junk
          Cases.used num_ok base_ok off sz_x0 cont_first cont_steps sz_all).
Defined.

(** X11.  With acceleration off, [set_num_last_vector_used] (with a value of
    at least 2, which the check demands) and [set_anderson_beta] change
    nothing in what [solve] does, and neither do the dense helpers: every
    run gives the same result and leaves the same object. *)
Theorem capacity_and_damping_idle_without_acceleration (R : comRingType)
    (ludcmp ludcmp' : seq (seq R) -> nat -> seq (seq R) * seq nat * int)
    (lubksb lubksb' : seq (seq R) -> nat -> seq nat -> seq R -> seq R)
    (uninit : R) (cfg : config R) (num : int) (beta : R) (arg : option (seq R))
    (dim : nat) (first : step_input R) (script : seq (step_input R)) (s0 : state R) :
  anderson_is_on cfg = false -> 2 <= num_last_vectors_used cfg -> 2 <= num ->
  solve ludcmp' lubksb' uninit (set_anderson_beta beta (set_num_last_vector_used num cfg))
    arg dim first script s0
  = solve ludcmp lubksb uninit cfg arg dim first script s0.
Proof.
move=> off num_ok num_ok'.
exact: (@solve_off _ ludcmp ludcmp' lubksb lubksb' uninit cfg
          (set_anderson_beta beta (set_num_last_vector_used num cfg)) off).
Qed.

Lemma capacity_and_damping_idle_without_acceleration_witness :
  solve Demo.ludcmp Demo.lubksb Demo.junk
    (set_anderson_beta (1 / 2%:Q) (set_num_last_vector_used 7 Demo.cfg_plain))
    (Some Demo.guess) 2 Demo.first [:: Demo.second; Demo.converged] (new_solver rat)
  = solve Demo.ludcmp Demo.lubksb Demo.junk Demo.cfg_plain
      (Some Demo.guess) 2 Demo.first [:: Demo.second; Demo.converged] (new_solver rat).
Proof.
have off : anderson_is_on Demo.cfg_plain = false by vm_compute.
have num_ok : 2 <= num_last_vectors_used Demo.cfg_plain by vm_compute.
have num_ok' : (2 : int) <= 7 by vm_compute.
exact: (capacity_and_damping_idle_without_acceleration Demo.ludcmp Demo.ludcmp
          Demo.lubksb Demo.lubksb Demo.junk (1 / 2%:Q) (Some Demo.guess) 2 Demo.first
          [:: Demo.second; Demo.converged] (new_solver rat) off num_ok num_ok').
Defined.

(** ** Where and how [solve] ends *)

(** X12.  [solve] has no iteration bound of its own: it goes on as long as
    the state is [NotConverged] and the hooks answer [true] (in the model:
    until the answers run out), and it ends at the first answer that is not
    of that kind. *)
Theorem solve_ends_at_first_stopping_answer (R : comRingType)
    (ludcmp : seq (seq R) -> nat -> seq (seq R) * seq nat * int)
    (lubksb : seq (seq R) -> nat -> seq nat -> seq R -> seq R)
    (uninit : R) (cfg : config R) (arg : option (seq R)) (dim : nat)
    (first : step_input R) (script : seq (step_input R)) (s0 : state R) :
  2 <= num_last_vectors_used cfg -> base_isOkay cfg ->
  isSome (solve ludcmp lubksb uninit cfg arg dim first script s0)
  = ~~ (initial_continuing first && all (@continuing R) script).
Proof. by move=> num_ok base_ok; apply: solve_ends. Qed.

Lemma solve_ends_at_first_stopping_answer_witness :
  isSome (solve Demo.ludcmp Demo.lubksb Demo.junk Demo.cfg3 (Some Demo.guess) 2
            Demo.first [:: Demo.second; Demo.third] (new_solver rat))
  = ~~ (initial_continuing Demo.first
        && all (@continuing rat) [:: Demo.second; Demo.third]).
Proof.
have num_ok : 2 <= num_last_vectors_used Demo.cfg3 by vm_compute.
have base_ok : base_isOkay Demo.cfg3 by vm_compute.
exact: (solve_ends_at_first_stopping_answer Demo.ludcmp Demo.lubksb Demo.junk
          (Some Demo.guess) 2 Demo.first [:: Demo.second; Demo.third] (new_solver rat)
          num_ok base_ok).
Defined.

(** X13.  How [solve] ends is decided by the first answer that stops it.
    A [false] from [on_step_begin] makes it return, whatever the state
    would have been; otherwise the state [AboveMaxIterations] raises the
    nonlinear exception, [Error] and any unknown state raise a general
    exception, and [Converged] or a [false] from [on_step_end] make it
    return.  The answers after that one are never asked for.  For the
    initial step [on_step_begin] is not asked. *)
Theorem outcome_of_solve (R : comRingType)
    (ludcmp : seq (seq R) -> nat -> seq (seq R) * seq nat * int)
    (lubksb : seq (seq R) -> nat -> seq nat -> seq R -> seq R)
    (uninit : R) (cfg : config R) (arg : option (seq R)) (dim : nat)
    (first : step_input R) (s0 : state R) :
  2 <= num_last_vectors_used cfg -> base_isOkay cfg ->
  (~~ initial_continuing first ->
   forall script, exists s',
     solve ludcmp lubksb uninit cfg arg dim first script s0
     = Some (if raised (in_state first) is Some x then Throw unit x s' else Val tt s'))
  /\ (initial_continuing first ->
      forall steps e rest,
        all (@continuing R) steps -> ~~ continuing e ->
        exists s',
          solve ludcmp lubksb uninit cfg arg dim first (steps ++ e :: rest) s0
          = Some (if in_step_begin e then
                    if raised (in_state e) is Some x then Throw unit x s' else Val tt s'
                  else Val tt s')).
Proof.
move=> num_ok base_ok; split=> [stop script|cont_first steps e rest cont_steps stop].
  rewrite stop_at_once // entry_cases //.
  by case: (in_state first) => /=; try case: ifP => _; eexists.
rewrite stop_in_loop //; set s_b := run_steps _ _ _ _ _.
case begin_e: (in_step_begin e); last by rewrite body_begin_abort //; eexists.
case st: (in_state e) => /=.
- by rewrite body_converged //; eexists.
- have end_e : in_step_end e = false.
    by apply/negbTE; move: stop; rewrite /continuing begin_e st.
  by rewrite body_end_abort ?st //; eexists.
- by rewrite body_above_max //; eexists.
- by rewrite body_error //; eexists.
- by rewrite body_other //; eexists.
Qed.

Lemma outcome_of_solve_witness :
  (exists s',
     solve Demo.ludcmp Demo.lubksb Demo.junk Demo.cfg3 (Some Demo.guess) 2
       Cases.failing [:: Demo.second] (new_solver rat)
     = Some (if raised (in_state Cases.failing) is Some x then Throw unit x s'
             else Val tt s'))
  /\ (exists s',
        solve Demo.ludcmp Demo.lubksb Demo.junk Demo.cfg3 (Some Demo.guess) 2
          Demo.first ([:: Demo.second] ++ Cases.exhausted :: [:: Demo.third])
          (new_solver rat)
        = Some (if in_step_begin Cases.exhausted then
                  if raised (in_state Cases.exhausted) is Some x then Throw unit x s'
                  else Val tt s'
                else Val tt s')).
Proof.
have num_ok : 2 <= num_last_vectors_used Demo.cfg3 by vm_compute.
have base_ok : base_isOkay Demo.cfg3 by vm_compute.
have stop_first : ~~ initial_continuing Cases.failing by vm_compute.
have cont_first : initial_continuing Demo.first by vm_compute.
have cont_steps : all (@continuing rat) [:: Demo.second] by vm_compute.
have stop : ~~ continuing Cases.exhausted by vm_compute.
split.
  have [at_once _] :=
    outcome_of_solve Demo.ludcmp Demo.lubksb Demo.junk (Some Demo.guess) 2
      Cases.failing (new_solver rat) num_ok base_ok.
  exact: (at_once stop_first [:: Demo.second]).
have [_ in_loop] :=
  outcome_of_solve Demo.ludcmp Demo.lubksb Demo.junk (Some Demo.guess) 2
    Demo.first (new_solver rat) num_ok base_ok.
exact: (in_loop cont_first [:: Demo.second] Cases.exhausted [:: Demo.third]
          cont_steps stop).
Defined.

(** X14.  When [solve] ends, [num_iters] is the number of passes begun,
    the initial step counted as the first.  That is the number of linear
    solves made, except after a [false] from [on_step_begin], where the
    pass counted has made none. *)
Theorem num_iters_counts_passes_begun (R : comRingType)
    (ludcmp : seq (seq R) -> nat -> seq (seq R) * seq nat * int)
    (lubksb : seq (seq R) -> nat -> seq nat -> seq R -> seq R)
    (uninit : R) (cfg : config R) (arg : option (seq R)) (dim : nat)
    (first : step_input R) (s0 : state R) :
  2 <= num_last_vectors_used cfg -> base_isOkay cfg ->
  (~~ initial_continuing first ->
   forall script, exists r,
     [/\ solve ludcmp lubksb uninit cfg arg dim first script s0 = Some r,
         num_iters (final_state r) = 1%N
       & count is_matrix_solve (trace (final_state r))
         = (count is_matrix_solve (trace s0)).+1])
  /\ (initial_continuing first ->
      forall steps e rest,
        all (@continuing R) steps -> ~~ continuing e ->
        exists r,
          [/\ solve ludcmp lubksb uninit cfg arg dim first (steps ++ e :: rest) s0
              = Some r,
              num_iters (final_state r) = (size steps).+2
            & count is_matrix_solve (trace (final_state r))
              = (count is_matrix_solve (trace s0) + (size steps).+1
                 + in_step_begin e)%N]).
Proof.
move=> num_ok base_ok; split=> [stop script|cont_first steps e rest cont_steps stop].
  exists (ending (solve_entry ludcmp lubksb uninit cfg arg dim first s0)).
  rewrite stop_at_once // final_ending; split=> //.
    have [_ _ iters _ _] :=
      entry_state ludcmp lubksb uninit num_ok base_ok arg dim first s0.
    exact: (iters (negbTE stop)).
  rewrite entry_trace // (count_cat _ (trace s0)) (count_cat _ [:: Tick; OnInitialization]).
  have [-> _ _] := count_initial_events
                     (jacobian_reusable s0 && constant_jacobian cfg) first.
  by rewrite /= !add0n addn1.
set s_b := run_steps ludcmp lubksb cfg steps
             (final_state (solve_entry ludcmp lubksb uninit cfg arg dim first s0)).
exists (ending (loop_body ludcmp lubksb cfg e s_b)).
rewrite stop_in_loop // final_ending; split=> //.
  have [_ _ iters _ _] := body_state ludcmp lubksb cfg e s_b.
  rewrite (iters (negbTE stop)) /s_b run_it //.
  have [_ -> _ _ _] := entry_state ludcmp lubksb uninit num_ok base_ok arg dim first s0.
  by rewrite cont_first.
rewrite body_trace (count_cat _ (trace s_b)).
have [-> _ _] := count_pass_events (jacobian_reusable s_b && constant_jacobian cfg) e.
by rewrite /s_b run_matrix_solve // entry_matrix_solve // -addn1 -[(size steps).+1]add1n addnA.
Qed.

Lemma num_iters_counts_passes_begun_witness :
  (exists r,
     [/\ solve Demo.ludcmp Demo.lubksb Demo.junk Demo.cfg3 (Some Demo.guess) 2
           Cases.failing [:: Demo.second] (new_solver rat) = Some r,
         num_iters (final_state r) = 1%N
       & count is_matrix_solve (trace (final_state r))
         = (count is_matrix_solve (trace (new_solver rat))).+1])
  /\ (exists r,
        [/\ solve Demo.ludcmp Demo.lubksb Demo.junk Demo.cfg3 (Some Demo.guess) 2
              Demo.first ([:: Demo.second] ++ Demo.begin_abort :: [:: Demo.third])
              (new_solver rat) = Some r,
            num_iters (final_state r) = (size [:: Demo.second]).+2
          & count is_matrix_solve (trace (final_state r))
            = (count is_matrix_solve (trace (new_solver rat))
               + (size [:: Demo.second]).+1 + in_step_begin Demo.begin_abort)%N]).
Proof.
have num_ok : 2 <= num_last_vectors_used Demo.cfg3 by vm_compute.
have base_ok : base_isOkay Demo.cfg3 by vm_compute.
have stop_first : ~~ initial_continuing Cases.failing by vm_compute.
have cont_first : initial_continuing Demo.first by vm_compute.
have cont_steps : all (@continuing rat) [:: Demo.second] by vm_compute.
have stop : ~~ continuing Demo.begin_abort by vm_compute.
split.
  have [at_once _] :=
    num_iters_counts_passes_begun Demo.ludcmp Demo.lubksb Demo.junk (Some Demo.guess) 2
      Cases.failing (new_solver rat) num_ok base_ok.
  exact: (at_once stop_first [:: Demo.second]).
have [_ in_loop] :=
  num_iters_counts_passes_begun Demo.ludcmp Demo.lubksb Demo.junk (Some Demo.guess) 2
    Demo.first (new_solver rat) num_ok base_ok.
exact: (in_loop cont_first [:: Demo.second] Demo.begin_abort [:: Demo.third]
          cont_steps stop).
Defined.

(** ** Assemblies *)

(** X15.  Every linear solve of [solve] is preceded by one assembly.  With
    a constant Jacobian the matrix is assembled from scratch at most once,
    in the first linear solve and only if the reuse flag of the object is
    not set yet; all other linear solves assemble the residual only.
    Otherwise every linear solve assembles from scratch.  [solve] leaves the
    reuse flag set. *)
Theorem matrix_is_assembled_once_when_jacobian_is_constant (R : comRingType)
    (ludcmp : seq (seq R) -> nat -> seq (seq R) * seq nat * int)
    (lubksb : seq (seq R) -> nat -> seq nat -> seq R -> seq R)
    (uninit : R) (cfg : config R) (arg : option (seq R)) (dim : nat)
    (first : step_input R) (script : seq (step_input R)) (s0 : state R)
    (r : res R unit) :
  2 <= num_last_vectors_used cfg -> base_isOkay cfg ->
  solve ludcmp lubksb uninit cfg arg dim first script s0 = Some r ->
  jacobian_reusable (final_state r)
  /\ exists m,
       [/\ count is_matrix_solve (trace (final_state r))
           = (count is_matrix_solve (trace s0) + m.+1)%N,
           count is_assemble (trace (final_state r))
           = (count is_assemble (trace s0)
              + (if constant_jacobian cfg then ~~ jacobian_reusable s0 : nat
                 else m.+1))%N
         & count is_assemble_residual (trace (final_state r))
           = (count is_assemble_residual (trace s0)
              + (if constant_jacobian cfg then m + jacobian_reusable s0 else 0))%N].
Proof. by move=> num_ok base_ok; apply: solve_assembles. Qed.

Lemma matrix_is_assembled_once_when_jacobian_is_constant_witness :
  let r := Demo.outcome Demo.cfg4 Demo.first [:: Demo.second; Demo.converged] in
  jacobian_reusable (final_state r)
  /\ exists m,
       [/\ count is_matrix_solve (trace (final_state r))
           = (count is_matrix_solve (trace (new_solver rat)) + m.+1)%N,
           count is_assemble (trace (final_state r))
           = (count is_assemble (trace (new_solver rat))
              + (if constant_jacobian Demo.cfg4
                 then ~~ jacobian_reusable (new_solver rat) : nat
                 else m.+1))%N
         & count is_assemble_residual (trace (final_state r))
           = (count is_assemble_residual (trace (new_solver rat))
              + (if constant_jacobian Demo.cfg4
                 then m + jacobian_reusable (new_solver rat) else 0))%N].
Proof.
have num_ok : 2 <= num_last_vectors_used Demo.cfg4 by vm_compute.
have base_ok : base_isOkay Demo.cfg4 by vm_compute.
have run_r : solve Demo.ludcmp Demo.lubksb Demo.junk Demo.cfg4 (Some Demo.guess) 2
               Demo.first [:: Demo.second; Demo.converged] (new_solver rat)
             = Some (Demo.outcome Demo.cfg4 Demo.first [:: Demo.second; Demo.converged]).
  by vm_compute.
exact: (matrix_is_assembled_once_when_jacobian_is_constant num_ok base_ok run_r).
Defined.

(** ** The heap *)

(** X16.  However [solve] ends, what it has allocated and not freed is
    this.  Of the buffers of the object: the heap it found, with the
    solution vector of the earlier call (if there was one) replaced by a
    new one and, with acceleration on, the coefficient array, the [k] rows
    and the row table on top.  Of the arrays of [calculate_anderson_coeffs]:
    with acceleration on and [k > 2], one permutation array for every
    linear solve from the [(k - 1)]-th on, and nothing otherwise.  The zero
    vector that [solve] makes for a [NULL] argument is freed on every way
    out, once, also when [finalize_solving] runs twice; a vector of the
    caller is never freed. *)
Theorem memory_after_solve (R : comRingType)
    (ludcmp : seq (seq R) -> nat -> seq (seq R) * seq nat * int)
    (lubksb : seq (seq R) -> nat -> seq nat -> seq R -> seq R)
    (uninit : R) (cfg : config R) (arg : option (seq R)) (dim : nat)
    (first : step_input R) (script : seq (step_input R)) (s0 : state R)
    (r : res R unit) (m : seq scratch) :
  2 <= num_last_vectors_used cfg -> base_isOkay cfg ->
  solve ludcmp lubksb uninit cfg arg dim first script s0 = Some r ->
  let linear_solves :=
    (count is_matrix_solve (trace (final_state r))
     - count is_matrix_solve (trace s0))%N in
  [/\ heap (final_state r)
      = (if anderson_is_on cfg
         then BlkCoeffs :: rev [seq BlkRow i | i <- iota 0 (capacity cfg)]
              ++ [:: BlkRowTable]
         else [::])
        ++ BlkSlnVector :: release BlkSlnVector (heap s0),
      delete_coeff_vec (final_state r) = false
    & solve_scratch ludcmp lubksb uninit cfg arg dim first script s0 m
      = nseq (if anderson_is_on cfg && (capacity cfg != 2%N)
              then (linear_solves.+2 - capacity cfg)%N else 0%N)
          ScratchPerm
        ++ m].
Proof.
move=> num_ok base_ok run_r /=.
have [-> ->] := solve_heap num_ok base_ok run_r.
have [-> ->] := start_heap uninit cfg arg dim s0.
split=> //; last exact: solve_scratch_count.
case: arg {run_r} => [v|] //=.
rewrite release_cat ?release_head //.
case: ifP => // _; rewrite /is_live /= has_cat -/(is_live _ _) live_rows /= orbF.
by apply/hasPn.
Qed.

Lemma memory_after_solve_witness :
  let r := Demo.outcome Demo.cfg3 Demo.first [:: Demo.second; Demo.third; Demo.converged] in
  let linear_solves :=
    (count is_matrix_solve (trace (final_state r))
     - count is_matrix_solve (trace (new_solver rat)))%N in
  [/\ heap (final_state r)
      = (if anderson_is_on Demo.cfg3
         then BlkCoeffs :: rev [seq BlkRow i | i <- iota 0 (capacity Demo.cfg3)]
              ++ [:: BlkRowTable]
         else [::])
        ++ BlkSlnVector :: release BlkSlnVector (heap (new_solver rat)),
      delete_coeff_vec (final_state r) = false
    & solve_scratch Demo.ludcmp Demo.lubksb Demo.junk Demo.cfg3 (Some Demo.guess) 2
        Demo.first [:: Demo.second; Demo.third; Demo.converged] (new_solver rat) [::]
      = nseq (if anderson_is_on Demo.cfg3 && (capacity Demo.cfg3 != 2%N)
              then (linear_solves.+2 - capacity Demo.cfg3)%N else 0%N)
          ScratchPerm
        ++ [::]].
Proof.
have num_ok : 2 <= num_last_vectors_used Demo.cfg3 by vm_compute.
have base_ok : base_isOkay Demo.cfg3 by vm_compute.
have run_r : solve Demo.ludcmp Demo.lubksb Demo.junk Demo.cfg3 (Some Demo.guess) 2
               Demo.first [:: Demo.second; Demo.third; Demo.converged] (new_solver rat)
             = Some (Demo.outcome Demo.cfg3 Demo.first
                       [:: Demo.second; Demo.third; Demo.converged]).
  by vm_compute.
exact: (memory_after_solve [::] num_ok base_ok run_r).
Defined.

(** X17.  [deinit_anderson] frees exactly what [init_anderson] allocates:
    called on what [init_anderson] leaves, it gives back the heap as it was
    before. *)
Theorem deinit_anderson_undoes_init_anderson (R : comRingType) (uninit : R)
    (cfg : config R) (s : state R) :
  heap (deinit_anderson cfg (init_anderson uninit cfg s)) = heap s.
Proof. exact: deinit_init_heap. Qed.


(** ** The calls that a run makes *)

(** X18.  The calls of [solve] on its collaborators and its messages follow
    a fixed protocol.  It starts the clock and calls [on_initialization()];
    the initial step sets the reuse scheme, assembles, solves, reports and
    asks [on_initial_step_end()]; every pass of the loop asks
    [on_step_begin()], sets the reuse scheme, assembles, solves, reports
    and asks [on_step_end()]; the pass that ends the run is cut off where
    it stops and closes with the calls of [finalize_solving].  The hook at
    the end of a step is asked only when the state is [NotConverged].  A
    run that converges in its initial step reports "done" and then
    "aborted" and finalizes twice. *)
Theorem calls_follow_the_protocol (R : comRingType)
    (ludcmp : seq (seq R) -> nat -> seq (seq R) * seq nat * int)
    (lubksb : seq (seq R) -> nat -> seq nat -> seq R -> seq R)
    (uninit : R) (cfg : config R) (arg : option (seq R)) (dim : nat)
    (first : step_input R) (s0 : state R) :
  2 <= num_last_vectors_used cfg -> base_isOkay cfg ->
  let reuse := jacobian_reusable s0 && constant_jacobian cfg in
  (~~ initial_continuing first ->
   forall script, exists r,
     solve ludcmp lubksb uninit cfg arg dim first script s0 = Some r
     /\ trace (final_state r)
        = trace s0 ++ [:: Tick; OnInitialization] ++ initial_events reuse first)
  /\ (initial_continuing first ->
      forall steps e rest,
        all (@continuing R) steps -> ~~ continuing e ->
        exists r,
          solve ludcmp lubksb uninit cfg arg dim first (steps ++ e :: rest) s0 = Some r
          /\ trace (final_state r)
             = trace s0 ++ [:: Tick; OnInitialization] ++ initial_events reuse first
               ++ flatten [seq pass_events (constant_jacobian cfg) e' | e' <- steps]
               ++ pass_events (constant_jacobian cfg) e).
Proof.
move=> num_ok base_ok /=.
split=> [stop script|cont_first steps e rest cont_steps stop].
  exists (ending (solve_entry ludcmp lubksb uninit cfg arg dim first s0)).
  by rewrite stop_at_once // final_ending entry_trace.
set s_e := final_state (solve_entry ludcmp lubksb uninit cfg arg dim first s0).
exists (ending (loop_body ludcmp lubksb cfg e (run_steps ludcmp lubksb cfg steps s_e))).
rewrite stop_in_loop // final_ending; split=> //.
have [jr_e _ _ _ _] := entry_state ludcmp lubksb uninit num_ok base_ok arg dim first s0.
have [jr_r tr_r] := run_trace ludcmp lubksb cfg jr_e cont_steps.
by rewrite body_trace jr_r tr_r entry_trace // -!catA.
Qed.

Lemma calls_follow_the_protocol_witness :
  let reuse := jacobian_reusable (new_solver rat) && constant_jacobian Demo.cfg4 in
  (exists r,
     solve Demo.ludcmp Demo.lubksb Demo.junk Demo.cfg4 (Some Demo.guess) 2
       Demo.converged [:: Demo.second] (new_solver rat) = Some r
     /\ trace (final_state r)
        = trace (new_solver rat) ++ [:: Tick; OnInitialization]
          ++ initial_events reuse Demo.converged)
  /\ (exists r,
        solve Demo.ludcmp Demo.lubksb Demo.junk Demo.cfg4 (Some Demo.guess) 2
          Demo.first ([:: Demo.second] ++ Demo.end_abort :: [:: Demo.third])
          (new_solver rat) = Some r
        /\ trace (final_state r)
           = trace (new_solver rat) ++ [:: Tick; OnInitialization]
             ++ initial_events reuse Demo.first
             ++ flatten [seq pass_events (constant_jacobian Demo.cfg4) e'
                        | e' <- [:: Demo.second]]
             ++ pass_events (constant_jacobian Demo.cfg4) Demo.end_abort).
Proof.
have num_ok : 2 <= num_last_vectors_used Demo.cfg4 by vm_compute.
have base_ok : base_isOkay Demo.cfg4 by vm_compute.
have stop_first : ~~ initial_continuing Demo.converged by vm_compute.
have cont_first : initial_continuing Demo.first by vm_compute.
have cont_steps : all (@continuing rat) [:: Demo.second] by vm_compute.
have stop : ~~ continuing Demo.end_abort by vm_compute.
split.
  have [at_once _] :=
    calls_follow_the_protocol Demo.ludcmp Demo.lubksb Demo.junk (Some Demo.guess) 2
      Demo.converged (new_solver rat) num_ok base_ok.
  exact: (at_once stop_first [:: Demo.second]).
have [_ in_loop] :=
  calls_follow_the_protocol Demo.ludcmp Demo.lubksb Demo.junk (Some Demo.guess) 2
    Demo.first (new_solver rat) num_ok base_ok.
exact: (in_loop cont_first [:: Demo.second] Demo.end_abort [:: Demo.third]
          cont_steps stop).
Defined.

(** ** Scratch memory over a run *)

(** X19.  Of the three arrays that [calculate_anderson_coeffs] allocates,
    the matrix and the right-hand side are released and the permutation
    array is not: with acceleration on and a history of more than two
    vectors, a run whose initial step and [n] passes all go on leaves one
    permutation array behind for every time the history was full, that is
    [n + 3 - num_last_vectors_used] of them, and nothing else.  With a
    history of two vectors nothing is allocated. *)
Theorem permutation_array_is_never_freed (R : comRingType)
    (ludcmp : seq (seq R) -> nat -> seq (seq R) * seq nat * int)
    (lubksb : seq (seq R) -> nat -> seq nat -> seq R -> seq R)
    (uninit : R) (cfg : config R) (arg : option (seq R)) (dim : nat)
    (first : step_input R) (steps : seq (step_input R)) (s0 : state R)
    (m : seq scratch) :
  2 <= num_last_vectors_used cfg -> base_isOkay cfg -> anderson_is_on cfg ->
  size (initial_iterate arg dim) = dim ->
  initial_continuing first -> all (@continuing R) steps ->
  all (fun e => size (in_new_sln e) == dim) (first :: steps) ->
  run_steps_scratch ludcmp lubksb cfg steps
    (final_state (solve_entry ludcmp lubksb uninit cfg arg dim first s0))
    (solve_entry_scratch uninit cfg arg dim first s0 m)
  = nseq (if capacity cfg == 2%N then 0 else (size steps).+3 - capacity cfg)%N
      ScratchPerm ++ m.
Proof.
move=> num_ok base_ok on sz_x0 cont_first cont_steps sz_all.
exact: run_scratch_closed.
Qed.

Lemma permutation_array_is_never_freed_witness :
  run_steps_scratch Demo.ludcmp Demo.lubksb Demo.cfg3 [:: Demo.second; Demo.third]
    (final_state
       (solve_entry Demo.ludcmp Demo.lubksb Demo.junk Demo.cfg3 (Some Demo.guess) 2
          Demo.first (new_solver rat)))
    (solve_entry_scratch Demo.junk Demo.cfg3 (Some Demo.guess) 2 Demo.first
       (new_solver rat) [::])
  = [:: ScratchPerm; ScratchPerm].
Proof.
have num_ok : 2 <= num_last_vectors_used Demo.cfg3 by vm_compute.
have base_ok : base_isOkay Demo.cfg3 by vm_compute.
have on : anderson_is_on Demo.cfg3 by vm_compute.
have sz_x0 : size (initial_iterate (Some Demo.guess) 2) = 2%N by vm_compute.
have cont_first : initial_continuing Demo.first by vm_compute.
have cont_steps : all (@continuing rat) [:: Demo.second; Demo.third] by vm_compute.
have sz_all : all (fun e => size (in_new_sln e) == 2%N)
                [:: Demo.first, Demo.second & [:: Demo.third]] by vm_compute.
exact: (permutation_array_is_never_freed Demo.ludcmp Demo.lubksb Demo.junk
          (new_solver rat) [::] num_ok base_ok on sz_x0 cont_first cont_steps sz_all).
Defined.
